(** * DFS visual explorer: Tower of Hanoi, Sudoku and maze engines

    A shallow embedding of the search engines of [app.py] and the proofs of
    their properties.  Python integers are [Z], Python lists are [list],
    the nested lists used as grids are [list (list Z)], and a Python
    exception is a constructor of [result].  Recursion depth and loop
    iterations are bounded by an explicit [fuel]; the theorems say how much
    fuel is enough. *)

From stdpp Require Import base list gmap sets strings pretty.
From Stdlib Require Import ZArith Lia.

Open Scope Z_scope.

#[global] Set Warnings "-clear-no-such-hyp".

(** ** Python values and exceptions *)

(** The exceptions the engines can end in.  [IndexError] is a list index out
    of range, [RecursionError] an exhausted recursion (or iteration) bound.
    [InvalidParameter] is the error kind of the specification; no code path
    of [app.py] raises it. *)
Inductive exn : Type :=
| IndexError
| RecursionError
| InvalidParameter.

Inductive result (A : Type) : Type :=
| Ok (a : A)
| Raise (e : exn).

Arguments Ok {A} a.
Arguments Raise {A} e.

#[global] Instance result_ret : MRet result := λ A a, Ok a.

#[global] Instance result_bind : MBind result := λ A B f m,
  match m with
  | Ok a => f a
  | Raise e => Raise e
  end.

Lemma bind_Ok {A B} (a : A) (f : A → result B) : Ok a ≫= f = f a.
Proof. reflexivity. Qed.

Lemma bind_Raise {A B} (e : exn) (f : A → result B) : Raise e ≫= f = Raise e.
Proof. reflexivity. Qed.

(** [l[i]] for a Python list: negative indices count from the end, anything
    else out of range raises [IndexError]. *)
Definition py_index (len i : Z) : option nat :=
  if bool_decide (0 ≤ i < len) then Some (Z.to_nat i)
  else if bool_decide (- len ≤ i < 0) then Some (Z.to_nat (len + i))
  else None.

Definition getitem {A} (l : list A) (i : Z) : result A :=
  match py_index (Z.of_nat (length l)) i with
  | Some k => match l !! k with Some x => Ok x | None => Raise IndexError end
  | None => Raise IndexError
  end.

Definition setitem {A} (l : list A) (i : Z) (x : A) : result (list A) :=
  match py_index (Z.of_nat (length l)) i with
  | Some k => Ok (<[k:=x]> l)
  | None => Raise IndexError
  end.

(** [g[r][c]] and [g[r][c] = v] on a list of lists.  The rows of a grid are
    distinct list objects, as every grid of [app.py] is built (a
    comprehension, or a copy [row[:]] of each row), so writing a cell changes
    that row only. *)
Definition getitem2 (g : list (list Z)) (r c : Z) : result Z :=
  row ← getitem g r ; getitem row c.

Definition setitem2 (g : list (list Z)) (r c v : Z) : result (list (list Z)) :=
  row ← getitem g r ;
  row' ← setitem row c v ;
  setitem g r row'.

(** A [for] loop whose body may [return] a value: the first element of [xs]
    at which [body] yields [Some b] ends the loop with [Some b]; a loop that
    runs to its end yields [None]. *)
Fixpoint for_first {A B} (xs : list A) (body : A → result (option B))
    : result (option B) :=
  match xs with
  | [] => Ok None
  | x :: xs =>
      o ← body x ;
      match o with
      | Some b => Ok (Some b)
      | None => for_first xs body
      end
  end.

(** A [for] loop that updates a state. *)
Fixpoint for_each {A S} (xs : list A) (body : A → S → result S) (s : S)
    : result S :=
  match xs with
  | [] => Ok s
  | x :: xs => s ← body x s ; for_each xs body s
  end.

(** [range(a, b)]. *)
Definition range (a b : Z) : list Z := seqZ a (b - a).

Arguments range : simpl never.

(** *** Indexing with non-negative indices

    Every index the engines compute is non-negative; there the Python
    operations are stdpp's lookup and insert, with [IndexError] past the
    end. *)

Definition lookup2 (g : list (list Z)) (r c : Z) : option Z :=
  row ← g !! Z.to_nat r ; row !! Z.to_nat c.

Definition insert2 (g : list (list Z)) (r c v : Z) : list (list Z) :=
  match g !! Z.to_nat r with
  | Some row => <[Z.to_nat r := <[Z.to_nat c := v]> row]> g
  | None => g
  end.

Lemma py_index_nonneg len i :
  0 ≤ i →
  py_index len i = if bool_decide (i < len) then Some (Z.to_nat i) else None.
Proof.
  intros Hi. unfold py_index. repeat case_bool_decide; try lia; reflexivity.
Qed.

Lemma getitem_nonneg {A} (l : list A) i :
  0 ≤ i →
  getitem l i = match l !! Z.to_nat i with
                | Some x => Ok x
                | None => Raise IndexError
                end.
Proof.
  intros Hi. unfold getitem. rewrite py_index_nonneg by done.
  case_bool_decide as Hlt; [done|].
  rewrite lookup_ge_None_2 by lia. reflexivity.
Qed.

Lemma setitem_nonneg {A} (l : list A) i x :
  0 ≤ i →
  setitem l i x = if bool_decide (Z.to_nat i < length l)%nat
                  then Ok (<[Z.to_nat i := x]> l) else Raise IndexError.
Proof.
  intros Hi. unfold setitem. rewrite py_index_nonneg by done.
  repeat case_bool_decide; try lia; reflexivity.
Qed.

Lemma getitem2_nonneg g r c :
  0 ≤ r → 0 ≤ c →
  getitem2 g r c = match lookup2 g r c with
                   | Some v => Ok v
                   | None => Raise IndexError
                   end.
Proof.
  intros Hr Hc. unfold getitem2, lookup2. rewrite getitem_nonneg by done.
  destruct (g !! Z.to_nat r) as [row|]; simpl; [|done].
  by rewrite getitem_nonneg.
Qed.

Lemma setitem2_nonneg g r c v :
  0 ≤ r → 0 ≤ c →
  setitem2 g r c v = if lookup2 g r c is Some _ then Ok (insert2 g r c v)
                     else Raise IndexError.
Proof.
  intros Hr Hc. unfold setitem2, lookup2, insert2.
  rewrite getitem_nonneg by done.
  destruct (g !! Z.to_nat r) as [row|] eqn:Hrow; simpl; [|done].
  rewrite setitem_nonneg by done.
  case_bool_decide as Hlt.
  - destruct (lookup_lt_is_Some_2 row (Z.to_nat c) Hlt) as [x ->]. simpl.
    rewrite setitem_nonneg by done.
    rewrite bool_decide_true; [done|]. by eapply lookup_lt_Some.
  - rewrite lookup_ge_None_2 by lia. reflexivity.
Qed.

Lemma lookup2_insert2 g r c v r' c' :
  0 ≤ r → 0 ≤ c → 0 ≤ r' → 0 ≤ c' → is_Some (lookup2 g r c) →
  lookup2 (insert2 g r c v) r' c'
  = if decide (r' = r ∧ c' = c) then Some v else lookup2 g r' c'.
Proof.
  intros Hr Hc Hr' Hc' [x Hx]. unfold lookup2, insert2 in *.
  destruct (g !! Z.to_nat r) as [row|] eqn:Hrow; simpl in *; [|done].
  destruct (decide (Z.to_nat r' = Z.to_nat r)) as [Heq|Hne].
  - rewrite Heq, list_lookup_insert_eq by (by eapply lookup_lt_Some).
    simpl. assert (r' = r) as -> by lia.
    destruct (decide (Z.to_nat c' = Z.to_nat c)) as [Heqc|Hnec].
    + rewrite Heqc, list_lookup_insert_eq by (by eapply lookup_lt_Some).
      assert (c' = c) as -> by lia. by rewrite decide_True.
    + rewrite list_lookup_insert_ne by done.
      rewrite decide_False by lia. by rewrite Hrow.
  - rewrite list_lookup_insert_ne by done. by rewrite decide_False by lia.
Qed.

(** Writing a cell and then writing back what it held restores the grid. *)
Lemma insert2_undo g r c v w :
  lookup2 g r c = Some w → insert2 (insert2 g r c v) r c w = g.
Proof.
  unfold lookup2, insert2. intros Hg.
  destruct (g !! Z.to_nat r) as [row|] eqn:Hrow; simpl in *; [|done].
  rewrite list_lookup_insert_eq by (by eapply lookup_lt_Some).
  rewrite list_insert_insert_eq, list_insert_insert_eq.
  rewrite (list_insert_id row) by done. by apply list_insert_id.
Qed.

(** *** Loops with an early return *)

Lemma for_first_None {A B} (xs : list A) (body : A → result (option B)) :
  for_first xs body = Ok None → ∀ x, x ∈ xs → body x = Ok None.
Proof.
  induction xs as [|x xs IH]; simpl; intros Hrun y Hy.
  - by apply elem_of_nil in Hy.
  - destruct (body x) as [[b|]|] eqn:Hx; simpl in Hrun; try done.
    apply elem_of_cons in Hy as [->|Hy]; auto.
Qed.

Lemma for_first_Some {A B} (xs : list A) (body : A → result (option B)) b :
  for_first xs body = Ok (Some b) → ∃ x, x ∈ xs ∧ body x = Ok (Some b).
Proof.
  induction xs as [|x xs IH]; simpl; intros Hrun; [done|].
  destruct (body x) as [[b'|]|] eqn:Hx; simpl in Hrun; try done.
  - exists x. split; [left|]. congruence.
  - destruct (IH Hrun) as (y & Hy & Hby). exists y. split; [by right|done].
Qed.

Lemma for_first_total {A B} (xs : list A) (body : A → result (option B)) :
  (∀ x, x ∈ xs → ∃ o, body x = Ok o) → ∃ o, for_first xs body = Ok o.
Proof.
  induction xs as [|x xs IH]; simpl; intros Hbody; [by eexists|].
  destruct (Hbody x) as [[b|] ->]; [left| |]; simpl; [by eexists|].
  apply IH. intros y Hy. apply Hbody. by right.
Qed.

(** The loop stops at the first element on which the body returns a value:
    on every element before it the body returned nothing. *)
Lemma for_first_Some_first {A B} (xs : list A) (body : A → result (option B)) b :
  for_first xs body = Ok (Some b) →
  ∃ pre x post,
    xs = pre ++ x :: post ∧ body x = Ok (Some b)
    ∧ ∀ y, y ∈ pre → body y = Ok None.
Proof.
  induction xs as [|x xs IH]; simpl; intros Hrun; [done|].
  destruct (body x) as [[b'|]|] eqn:Hx; rewrite ?bind_Ok, ?bind_Raise in Hrun;
    try done.
  - exists [], x, xs. split_and!; [done|congruence|].
    intros y Hy. by apply elem_of_nil in Hy.
  - destruct (IH Hrun) as (pre & y & post & -> & Hy & Hpre).
    exists (x :: pre), y, post. split_and!; [done|done|].
    intros z Hz. apply elem_of_cons in Hz as [->|Hz]; auto.
Qed.

(** In a range, the elements before a given one are the smaller ones. *)
Lemma range_split a b pre x post :
  range a b = pre ++ x :: post → ∀ y, a ≤ y < x → y ∈ pre.
Proof.
  unfold range. intros Hsplit y Hy.
  assert (Z.of_nat (length pre) = x - a) as Hlen.
  { assert ((pre ++ x :: post) !! length pre = Some x) as Hx
      by (by rewrite lookup_app_r, Nat.sub_diag by lia).
    rewrite <- Hsplit in Hx. apply lookup_seqZ in Hx. lia. }
  assert (seqZ a (b - a) !! Z.to_nat (y - a) = Some y) as Hlook.
  { apply lookup_seqZ. split; [lia|].
    assert (Z.to_nat (x - a) < length (seqZ a (b - a)))%nat as Hlt.
    { rewrite Hsplit, length_app. simpl. lia. }
    rewrite length_seqZ in Hlt. lia. }
  rewrite Hsplit, lookup_app_l in Hlook by lia.
  by eapply list_elem_of_lookup_2.
Qed.

Lemma elem_of_range a b x : x ∈ range a b ↔ a ≤ x < b.
Proof. unfold range. rewrite elem_of_seqZ. lia. Qed.

Lemma for_each_invariant {A S} (P : S → Prop) (xs : list A)
    (body : A → S → result S) : ∀ s s',
  (∀ x s s', x ∈ xs → P s → body x s = Ok s' → P s') →
  P s → for_each xs body s = Ok s' → P s'.
Proof.
  induction xs as [|x xs IH]; simpl; intros s s' Hbody Hs Hrun.
  - by simplify_eq.
  - destruct (body x s) as [s1|] eqn:Hx; rewrite ?bind_Ok, ?bind_Raise in Hrun;
      [|done].
    eapply IH; [|by eapply (Hbody x s s1); [left|..]|done].
    intros y t t' Hy. apply Hbody. by right.
Qed.

Lemma for_each_total_from {A S} (P : list A → S → Prop) (xs : list A)
    (body : A → S → result S) : ∀ pre s,
  (∀ pre x s, P pre s → x ∈ xs →
     ∃ s', body x s = Ok s' ∧ P (pre ++ [x]) s') →
  P pre s → ∃ s', for_each xs body s = Ok s' ∧ P (pre ++ xs) s'.
Proof.
  induction xs as [|x xs IH]; simpl; intros pre s Hbody Hs.
  - exists s. by rewrite app_nil_r.
  - destruct (Hbody pre x s Hs) as (s1 & -> & Hs1); [left|].
    rewrite bind_Ok.
    destruct (IH (pre ++ [x]) s1) as (s' & Hrun & Hs'); [|done|].
    + intros pre' y t Ht Hy. apply Hbody; [done|by right].
    + exists s'. by rewrite <- app_assoc in Hs'.
Qed.

(** A loop whose body never raises under the invariant [P] runs to its end;
    [P] is indexed by the elements already processed. *)
Lemma for_each_total {A S} (P : list A → S → Prop) (xs : list A)
    (body : A → S → result S) s :
  (∀ pre x s, P pre s → x ∈ xs →
     ∃ s', body x s = Ok s' ∧ P (pre ++ [x]) s') →
  P [] s → ∃ s', for_each xs body s = Ok s' ∧ P xs s'.
Proof. intros Hbody Hs. by apply (for_each_total_from P xs body [] s). Qed.

Lemma insert2_same g r c v : lookup2 g r c = Some v → insert2 g r c v = g.
Proof.
  unfold lookup2, insert2. intros Hg.
  destruct (g !! Z.to_nat r) as [row|] eqn:Hrow; simpl in *; [|done].
  rewrite (list_insert_id row) by done. by apply list_insert_id.
Qed.

Lemma length_filter_le {A} (P Q : A → Prop) `{∀ x, Decision (P x)}
    `{∀ x, Decision (Q x)} (l : list A) :
  (∀ y, y ∈ l → P y → Q y) → (length (filter P l) ≤ length (filter Q l))%nat.
Proof.
  induction l as [|a l IH]; intros HPQ; [done|].
  rewrite !filter_cons.
  assert (length (filter P l) ≤ length (filter Q l))%nat as Hle.
  { apply IH. intros y Hy. apply HPQ. by right. }
  destruct (decide (P a)) as [HP|HP].
  - rewrite decide_True by (apply HPQ; [left|done]). simpl. lia.
  - destruct (decide (Q a)); simpl; lia.
Qed.

(** Fewer elements pass a filter that is stronger everywhere and strictly
    stronger somewhere. *)
Lemma length_filter_lt {A} (P Q : A → Prop) `{∀ x, Decision (P x)}
    `{∀ x, Decision (Q x)} (l : list A) x :
  (∀ y, y ∈ l → P y → Q y) → x ∈ l → Q x → ¬ P x →
  (length (filter P l) < length (filter Q l))%nat.
Proof.
  induction l as [|a l IH]; intros HPQ Hx HQ HP.
  { by apply elem_of_nil in Hx. }
  rewrite !filter_cons.
  assert (length (filter P l) ≤ length (filter Q l))%nat as Hle.
  { apply length_filter_le. intros y Hy. apply HPQ. by right. }
  apply elem_of_cons in Hx as [<-|Hx].
  - rewrite decide_False, decide_True by done. simpl. lia.
  - assert (length (filter P l) < length (filter Q l))%nat as Hlt.
    { apply IH; try done. intros y Hy. apply HPQ. by right. }
    destruct (decide (P a)) as [HPa|HPa].
    + rewrite decide_True by (apply HPQ; [left|done]). simpl. lia.
    + destruct (decide (Q a)); simpl; lia.
Qed.

Lemma for_each_prefix_invariant {A S} (P : list A → S → Prop)
    (xs : list A) (body : A → S → result S) : ∀ pre s s',
  (∀ pre x s s', P pre s → body x s = Ok s' → P (pre ++ [x]) s') →
  P pre s → for_each xs body s = Ok s' → P (pre ++ xs) s'.
Proof.
  induction xs as [|x xs IH]; simpl; intros pre s s' Hbody Hs Hrun.
  - simplify_eq. by rewrite app_nil_r.
  - destruct (body x s) as [s1|] eqn:Hx; rewrite ?bind_Ok, ?bind_Raise in Hrun;
      [|done].
    rewrite (cons_middle x pre xs), app_assoc. eapply IH; eauto.
Qed.

(** ** Tower of Hanoi *)

Module Hanoi.

(** The f-string ["Move disk {n} from {source} to {destination}"]. *)
Definition move_string (n : Z) (source destination : string) : string :=
  "Move disk " +:+ pretty n +:+ " from " +:+ source +:+ " to " +:+ destination.

(** [solve_hanoi_dfs]: [path_moves] is threaded through; [fuel] is the number
    of nested calls the interpreter still allows. *)
Fixpoint solve_hanoi_dfs (fuel : nat) (n : Z)
    (source destination auxiliary : string)
    (path_moves : list string) : result (list string) :=
  match fuel with
  | O => Raise RecursionError
  | S fuel =>
      if bool_decide (n = 1) then
        Ok (path_moves ++ [move_string 1 source destination])
      else
        path_moves ← solve_hanoi_dfs fuel (n - 1) source auxiliary destination path_moves ;
        let path_moves := path_moves ++ [move_string n source destination] in
        solve_hanoi_dfs fuel (n - 1) auxiliary destination source path_moves
  end.

(** [solve_hanoi_dfs] with the list [path_moves] as the caller finds it
    after the call, also after a call that was cut short: the list is
    changed in place, so the moves appended before a [RecursionError] stay
    in it.  The second component is the exception that ended the call, if
    any. *)
Fixpoint solve_hanoi_dfs_in_place (fuel : nat) (n : Z)
    (source destination auxiliary : string)
    (path_moves : list string) : list string * option exn :=
  match fuel with
  | O => (path_moves, Some RecursionError)
  | S fuel =>
      if bool_decide (n = 1) then
        (path_moves ++ [move_string 1 source destination], None)
      else
        match solve_hanoi_dfs_in_place fuel (n - 1) source auxiliary
                destination path_moves with
        | (path_moves, Some e) => (path_moves, Some e)
        | (path_moves, None) =>
            let path_moves := path_moves ++ [move_string n source destination] in
            solve_hanoi_dfs_in_place fuel (n - 1) auxiliary destination source
              path_moves
        end
  end.

(** The route [generate_and_solve_hanoi], reduced to the solution it
    returns: it passes [num_disks] on unchecked. *)
Definition generate_and_solve_hanoi (fuel : nat) (num_disks : Z) : result (list string) :=
  solve_hanoi_dfs fuel num_disks "A" "C" "B" [].

(** A string is a move of one of the disks [1..n] between two of the pegs. *)
Definition is_move (n : Z) (pegs : list string) (m : string) : Prop :=
  ∃ k x y, m = move_string k x y ∧ 1 ≤ k ≤ n ∧ x ∈ pegs ∧ y ∈ pegs.

Lemma is_move_weaken n n' pegs pegs' m :
  n ≤ n' → pegs ⊆ pegs' → is_move n pegs m → is_move n' pegs' m.
Proof.
  intros Hn Hp (k & x & y & -> & Hk & Hx & Hy).
  exists k, x, y. repeat split; try lia; auto.
Qed.

(** Below the base case the recursion only descends: whatever the bound,
    it is exhausted before anything is appended. *)
Lemma solve_hanoi_dfs_nonpositive fuel : ∀ n s d a path,
  n ≤ 0 → solve_hanoi_dfs fuel n s d a path = Raise RecursionError.
Proof.
  induction fuel as [|fuel IH]; intros n s d a path Hn; [reflexivity|].
  simpl. case_bool_decide; [lia|].
  rewrite IH by lia. reflexivity.
Qed.

Lemma solve_hanoi_dfs_count fuel : ∀ n s d a path,
  1 ≤ n → (Z.to_nat n ≤ fuel)%nat →
  ∃ moves, solve_hanoi_dfs fuel n s d a path = Ok (path ++ moves)
         ∧ Z.of_nat (length moves) = 2 ^ n - 1.
Proof.
  induction fuel as [|fuel IH]; intros n s d a path Hn Hfuel; [lia|].
  simpl. case_bool_decide as Hn1.
  - subst n. eexists; split; [reflexivity|]. reflexivity.
  - destruct (IH (n - 1) s a d path) as (m1 & -> & Hl1); [lia..|].
    simpl.
    destruct (IH (n - 1) a d s ((path ++ m1) ++ [move_string n s d]))
      as (m2 & -> & Hl2); [lia..|].
    exists (m1 ++ move_string n s d :: m2). split.
    + f_equal. rewrite <- !app_assoc. reflexivity.
    + rewrite length_app. simpl length.
      assert (2 ^ n = 2 * 2 ^ (n - 1)) as ->.
      { rewrite <- Z.pow_succ_r by lia. f_equal. lia. }
      lia.
Qed.

Lemma solve_hanoi_dfs_shape fuel : ∀ n s d a path path',
  solve_hanoi_dfs fuel n s d a path = Ok path' →
  ∃ moves, path' = path ++ moves ∧ Forall (is_move n [s; d; a]) moves.
Proof.
  induction fuel as [|fuel IH]; intros n s d a path path' Hrun; [discriminate|].
  simpl in Hrun. case_bool_decide as Hn1.
  - inversion Hrun; subst. eexists; split; [reflexivity|].
    constructor; [|constructor].
    exists 1, s, d. repeat split; try lia; set_solver.
  - destruct (decide (n - 1 ≤ 0)) as [Hlt|Hge].
    { rewrite solve_hanoi_dfs_nonpositive in Hrun by lia. discriminate. }
    destruct (solve_hanoi_dfs fuel (n - 1) s a d path) as [p1|] eqn:E1;
      [|discriminate].
    simpl in Hrun.
    destruct (IH _ _ _ _ _ _ E1) as (m1 & -> & Hm1).
    destruct (IH _ _ _ _ _ _ Hrun) as (m2 & -> & Hm2).
    exists (m1 ++ move_string n s d :: m2). split.
    + rewrite <- !app_assoc. reflexivity.
    + apply Forall_app; split; [|constructor].
      * eapply Forall_impl; [exact Hm1|]. intros m.
        apply is_move_weaken; [lia|].
        intros x; rewrite !elem_of_cons; tauto.
      * exists n, s, d. repeat split; try lia; set_solver.
      * eapply Forall_impl; [exact Hm2|]. intros m.
        apply is_move_weaken; [lia|].
        intros x; rewrite !elem_of_cons; tauto.
Qed.

(** C1: for every n ≥ 1, and a recursion bound of at least n nested calls,
    [solve_hanoi_dfs n source destination auxiliary path_moves] returns and
    has appended exactly 2^n − 1 moves to [path_moves]. *)
Theorem solve_hanoi_dfs_appends_pow2_minus_1 (n : Z) (fuel : nat)
    (source destination auxiliary : string) (path_moves : list string) :
  1 ≤ n → (Z.to_nat n ≤ fuel)%nat →
  ∃ moves,
    solve_hanoi_dfs fuel n source destination auxiliary path_moves
      = Ok (path_moves ++ moves)
    ∧ Z.of_nat (length moves) = 2 ^ n - 1.
Proof. intros. by apply solve_hanoi_dfs_count. Qed.

Lemma solve_hanoi_dfs_appends_pow2_minus_1_witness :
  ∃ moves,
    solve_hanoi_dfs 3 3 "A" "C" "B" ["earlier"] = Ok (["earlier"] ++ moves)
    ∧ Z.of_nat (length moves) = 2 ^ 3 - 1.
Proof.
  apply (solve_hanoi_dfs_appends_pow2_minus_1 3 3 "A" "C" "B" ["earlier"]);
    [lia | simpl; lia].
Defined.

(** The two readings of the function agree: the call returns the list it
    leaves, or raises the exception that ended it. *)
Lemma solve_hanoi_dfs_in_place_result fuel : ∀ n s d a path,
  solve_hanoi_dfs fuel n s d a path
  = match solve_hanoi_dfs_in_place fuel n s d a path with
    | (path', None) => Ok path'
    | (_, Some e) => Raise e
    end.
Proof.
  induction fuel as [|fuel IH]; intros n s d a path; [done|].
  simpl. case_bool_decide; [done|].
  rewrite IH.
  destruct (solve_hanoi_dfs_in_place fuel (n - 1) s a d path) as [p1 [e|]];
    [done|].
  rewrite bind_Ok. apply IH.
Qed.

(** Below the base case nothing is appended on the way down. *)
Lemma solve_hanoi_dfs_in_place_nonpositive fuel : ∀ n s d a path,
  n ≤ 0 →
  solve_hanoi_dfs_in_place fuel n s d a path = (path, Some RecursionError).
Proof.
  induction fuel as [|fuel IH]; intros n s d a path Hn; [done|].
  simpl. case_bool_decide; [lia|].
  by rewrite IH by lia.
Qed.

(** C5, as the claim states it, fails at n = 0: no recursion bound makes the
    planner end in [InvalidParameter]. *)
Lemma hanoi_zero_disks_not_InvalidParameter :
  ¬ ∃ fuel, generate_and_solve_hanoi fuel 0 = Raise InvalidParameter.
Proof.
  intros [fuel H]. unfold generate_and_solve_hanoi in H.
  rewrite solve_hanoi_dfs_nonpositive in H by lia. discriminate.
Qed.

(** C5 (amended): for every n ≤ 0 the planner validates nothing; the
    recursion descends from n without meeting its base case, so whatever the
    recursion bound the call ends in [RecursionError]: it returns no plan,
    empty or otherwise, and raises no [InvalidParameter]; and it appends no
    move: the list [path_moves] is after the failed call what it was
    before. *)
Theorem hanoi_nonpositive_exhausts_recursion (n : Z) (fuel : nat) :
  n ≤ 0 →
  generate_and_solve_hanoi fuel n = Raise RecursionError
  ∧ ∀ source destination auxiliary path_moves,
      solve_hanoi_dfs fuel n source destination auxiliary path_moves
        = Raise RecursionError
      ∧ solve_hanoi_dfs_in_place fuel n source destination auxiliary path_moves
        = (path_moves, Some RecursionError).
Proof.
  intros Hn. split; [by apply solve_hanoi_dfs_nonpositive|].
  intros s d a path. split.
  - by apply solve_hanoi_dfs_nonpositive.
  - by apply solve_hanoi_dfs_in_place_nonpositive.
Qed.

Lemma hanoi_nonpositive_exhausts_recursion_witness :
  generate_and_solve_hanoi 1000 0 = Raise RecursionError
  ∧ ∀ source destination auxiliary path_moves,
      solve_hanoi_dfs 1000 0 source destination auxiliary path_moves
        = Raise RecursionError
      ∧ solve_hanoi_dfs_in_place 1000 0 source destination auxiliary path_moves
        = (path_moves, Some RecursionError).
Proof. apply (hanoi_nonpositive_exhausts_recursion 0 1000). lia. Defined.

(** C8: [solve_hanoi_dfs 2 'A' 'C' 'B' path_moves] from an empty [path_moves]
    leaves exactly the three moves of the scenario, and every string any
    returning call appends is "Move disk {k} from {x} to {y}" for a disk k
    of 1..n and two of the three pegs of the call. *)
Theorem solve_hanoi_dfs_two_disks_and_format :
  solve_hanoi_dfs 2 2 "A" "C" "B" []
    = Ok ["Move disk 1 from A to B"; "Move disk 2 from A to C";
          "Move disk 1 from B to C"]
  ∧ ∀ fuel n source destination auxiliary path_moves path_moves',
      solve_hanoi_dfs fuel n source destination auxiliary path_moves
        = Ok path_moves' →
      ∃ moves, path_moves' = path_moves ++ moves
             ∧ Forall (is_move n [source; destination; auxiliary]) moves.
Proof.
  split; [reflexivity|]. intros. by eapply solve_hanoi_dfs_shape.
Qed.

(** *** Playing the plan on three pegs *)

(** A move: the disk, the peg it leaves and the peg it lands on. *)
Abbreviation move := (Z * string * string)%type.

Definition render (m : move) : string := move_string m.1.1 m.1.2 m.2.

(** The pegs, each a stack of disks with its top first. *)
Abbreviation pegs := (gmap string (list Z)).

(** A disk may land on an empty peg or on a larger disk. *)
Definition fits (k : Z) (stack : list Z) : bool :=
  match stack with
  | [] => true
  | top :: _ => bool_decide (k < top)
  end.

(** Play one move: the disk must be the top of the peg it leaves. *)
Definition play (st : pegs) (m : move) : option pegs :=
  match st !!! m.1.2 with
  | top :: rest =>
      if bool_decide (top = m.1.1) && bool_decide (m.1.2 ≠ m.2)
         && fits m.1.1 (st !!! m.2)
      then Some (<[m.2 := m.1.1 :: st !!! m.2]> (<[m.1.2 := rest]> st))
      else None
  | [] => None
  end.

Fixpoint play_all (st : pegs) (ms : list move) : option pegs :=
  match ms with
  | [] => Some st
  | m :: ms => st ← play st m ; play_all st ms
  end.

Lemma play_all_app st ms1 ms2 st1 :
  play_all st ms1 = Some st1 →
  play_all st (ms1 ++ ms2) = play_all st1 ms2.
Proof.
  revert st. induction ms1 as [|m ms1 IH]; simpl; intros st Hrun.
  - by simplify_eq.
  - destruct (play st m) as [st'|]; simpl in *; [|done]. by apply IH.
Qed.

Lemma fits_Forall k stack : Forall (λ x, k < x) stack → fits k stack = true.
Proof.
  destruct stack as [|top stack]; [done|]. intros Hall.
  apply Forall_cons in Hall as [Htop _]. simpl. by apply bool_decide_eq_true.
Qed.

(** The tower 1..n on top of [S], moved from [s] to [d]: every move is
    legal, and the disks below the tower and on the peg [a] stay. *)
Lemma solve_hanoi_dfs_plays fuel : ∀ n s d a path path' (st : pegs) S D A,
  s ≠ d → s ≠ a → d ≠ a → 1 ≤ n →
  solve_hanoi_dfs fuel n s d a path = Ok path' →
  st !!! s = seqZ 1 n ++ S → st !!! d = D → st !!! a = A →
  Forall (λ x, n < x) S → Forall (λ x, n < x) D → Forall (λ x, n < x) A →
  ∃ ms st',
    path' = path ++ (render <$> ms)
    ∧ play_all st ms = Some st'
    ∧ st' !!! s = S ∧ st' !!! d = seqZ 1 n ++ D ∧ st' !!! a = A
    ∧ ∀ x, x ≠ s → x ≠ d → x ≠ a → st' !!! x = st !!! x.
Proof.
  induction fuel as [|fuel IH];
    intros n s d a path path' st S D A Hsd Hsa Hda Hn Hrun Hs Hd Ha HS HD HA;
    [done|].
  simpl in Hrun. case_bool_decide as Hn1.
  - subst n. simplify_eq.
    exists [(1, s, d)], (<[d := 1 :: st !!! d]> (<[s := S]> st)).
    split_and!.
    + done.
    + simpl. unfold play. simpl. rewrite Hs. simpl.
      rewrite !bool_decide_true by done. by rewrite fits_Forall.
    + by rewrite lookup_total_insert_ne, lookup_total_insert_eq.
    + by rewrite lookup_total_insert_eq.
    + by rewrite !lookup_total_insert_ne.
    + intros x ? ? ?. by rewrite !lookup_total_insert_ne.
  - destruct (solve_hanoi_dfs fuel (n - 1) s a d path) as [p1|] eqn:E1;
      [|done].
    rewrite bind_Ok in Hrun.
    assert (seqZ 1 n = seqZ 1 (n - 1) ++ [n]) as Hseq.
    { replace n with ((n - 1) + 1) at 1 by lia.
      rewrite seqZ_app by lia. f_equal. replace (1 + (n - 1)) with n by lia.
      done. }
    destruct (IH (n - 1) s a d path p1 st (n :: S) A D)
      as (ms1 & st1 & -> & Hplay1 & Hs1 & Ha1 & Hd1 & Hx1); try done; try lia.
    { rewrite Hs, Hseq, <- app_assoc. done. }
    { constructor; [lia|]. eapply Forall_impl; [exact HS|]. simpl. lia. }
    { eapply Forall_impl; [exact HA|]. simpl. lia. }
    { eapply Forall_impl; [exact HD|]. simpl. lia. }
    set (st2 := <[d := n :: D]> (<[s := S]> st1)).
    destruct (IH (n - 1) a d s _ path' st2 A (n :: D) S
                (not_eq_sym Hda) (not_eq_sym Hsa) (not_eq_sym Hsd)
                ltac:(lia) Hrun)
      as (ms2 & st3 & -> & Hplay2 & Ha3 & Hd3 & Hs3 & Hx3).
    { unfold st2. by rewrite !lookup_total_insert_ne. }
    { unfold st2. by rewrite lookup_total_insert_eq. }
    { unfold st2. by rewrite lookup_total_insert_ne, lookup_total_insert_eq. }
    { eapply Forall_impl; [exact HA|]. simpl. lia. }
    { constructor; [lia|]. eapply Forall_impl; [exact HD|]. simpl. lia. }
    { eapply Forall_impl; [exact HS|]. simpl. lia. }
    exists (ms1 ++ (n, s, d) :: ms2), st3. split_and!.
    + rewrite fmap_app, fmap_cons, <- !app_assoc. done.
    + rewrite (play_all_app _ _ _ _ Hplay1). simpl. unfold play. simpl.
      rewrite Hs1. simpl. rewrite !bool_decide_true by done.
      rewrite Hd1, fits_Forall by done. simpl. exact Hplay2.
    + done.
    + rewrite Hd3, Hseq, <- app_assoc. done.
    + done.
    + intros x ? ? ?. rewrite Hx3 by done. unfold st2.
      rewrite !lookup_total_insert_ne by done. by apply Hx1.
Qed.

(** The recursion is exactly n calls deep. *)
Lemma solve_hanoi_dfs_too_deep fuel : ∀ n s d a path,
  (fuel < Z.to_nat n)%nat →
  solve_hanoi_dfs fuel n s d a path = Raise RecursionError.
Proof.
  induction fuel as [|fuel IH]; intros n s d a path Hfuel; [done|].
  simpl. case_bool_decide; [lia|].
  rewrite IH by lia. done.
Qed.

(** X5: for three distinct pegs and n ≥ 1 disks, the strings
    [solve_hanoi_dfs] appends are the renderings of a sequence of moves
    that, played from the tower 1..n on the source peg, are all legal (each
    moves the top disk of its peg onto an empty peg or a larger disk) and
    end with the whole tower on the destination peg and the other two pegs
    empty. *)
Theorem solve_hanoi_dfs_plan_is_legal (n : Z) (fuel : nat)
    (source destination auxiliary : string) (path_moves : list string) :
  1 ≤ n → (Z.to_nat n ≤ fuel)%nat →
  source ≠ destination → source ≠ auxiliary → destination ≠ auxiliary →
  ∃ ms st',
    solve_hanoi_dfs fuel n source destination auxiliary path_moves
      = Ok (path_moves ++ (render <$> ms))
    ∧ play_all {[ source := seqZ 1 n ]} ms = Some st'
    ∧ ∀ x, st' !!! x = if decide (x = destination) then seqZ 1 n else [].
Proof.
  intros Hn Hfuel Hsd Hsa Hda.
  destruct (solve_hanoi_dfs_count fuel n source destination auxiliary
              path_moves Hn Hfuel) as (moves & Hrun & _).
  destruct (solve_hanoi_dfs_plays fuel n source destination auxiliary
              path_moves _ {[ source := seqZ 1 n ]} [] [] []
              Hsd Hsa Hda Hn Hrun)
    as (ms & st' & Hpath & Hplay & Hs & Hd & Ha & Hx); try done.
  { by rewrite lookup_total_singleton_eq, app_nil_r. }
  { by rewrite lookup_total_singleton_ne. }
  { by rewrite lookup_total_singleton_ne. }
  exists ms, st'. split_and!; [by rewrite Hrun, Hpath|done|].
  intros x. rewrite app_nil_r in Hd.
  destruct (decide (x = destination)) as [->|Hxd]; [done|].
  destruct (decide (x = source)) as [->|Hxs]; [done|].
  destruct (decide (x = auxiliary)) as [->|Hxa]; [done|].
  rewrite Hx by done. by rewrite lookup_total_singleton_ne.
Qed.

Lemma solve_hanoi_dfs_plan_is_legal_witness :
  ∃ ms st',
    solve_hanoi_dfs 3 3 "A" "C" "B" [] = Ok ([] ++ (render <$> ms))
    ∧ play_all {[ "A" := seqZ 1 3 ]} ms = Some st'
    ∧ ∀ x, st' !!! x = if decide (x = "C") then seqZ 1 3 else [].
Proof.
  apply (solve_hanoi_dfs_plan_is_legal 3 3 "A" "C" "B" []);
    [lia|simpl; lia|done..].
Defined.

(** X6: the recursion of [solve_hanoi_dfs n] is exactly n calls deep: for
    n ≥ 1 the call returns when the interpreter allows n nested calls and
    ends in [RecursionError] when it allows fewer. *)
Theorem solve_hanoi_dfs_depth (n : Z) (fuel : nat)
    (source destination auxiliary : string) (path_moves : list string) :
  1 ≤ n →
  (∃ path_moves',
     solve_hanoi_dfs fuel n source destination auxiliary path_moves
       = Ok path_moves')
  ↔ (Z.to_nat n ≤ fuel)%nat.
Proof.
  intros Hn. split.
  - intros [path' Hrun]. destruct (decide (Z.to_nat n ≤ fuel)%nat); [done|].
    rewrite solve_hanoi_dfs_too_deep in Hrun by lia. done.
  - intros Hfuel.
    destruct (solve_hanoi_dfs_count fuel n source destination auxiliary
                path_moves Hn Hfuel) as (moves & Hrun & _).
    by eexists.
Qed.

Lemma solve_hanoi_dfs_depth_witness :
  (∃ path_moves', solve_hanoi_dfs 3 4 "A" "C" "B" [] = Ok path_moves')
  ↔ (Z.to_nat 4 ≤ 3)%nat.
Proof. apply (solve_hanoi_dfs_depth 4 3 "A" "C" "B" []). lia. Defined.

End Hanoi.

(** ** Sudoku *)

Module Sudoku.

(** A board is a list of rows. *)
Abbreviation board := (list (list Z)).

(** [find_empty]: the first cell holding 0 in row-major order, or [None]. *)
Definition find_empty (b : board) : result (option (Z * Z)) :=
  for_first (range 0 9) (λ r,
    for_first (range 0 9) (λ c,
      v ← getitem2 b r c ;
      Ok (if bool_decide (v = 0) then Some (r, c) else None))).

(** [is_valid_sudoku_move]: each of the three scans returns [False] at the
    first other cell of the row, column or box that already holds [num]. *)
Definition is_valid_sudoku_move (b : board) (num : Z) (pos : Z * Z)
    : result bool :=
  hit ← for_first (range 0 9) (λ col,
           v ← getitem2 b pos.1 col ;
           Ok (if bool_decide (v = num ∧ pos.2 ≠ col) then Some () else None)) ;
  if hit is Some _ then Ok false else
  hit ← for_first (range 0 9) (λ row,
           v ← getitem2 b row pos.2 ;
           Ok (if bool_decide (v = num ∧ pos.1 ≠ row) then Some () else None)) ;
  if hit is Some _ then Ok false else
  let box_x := pos.2 `div` 3 in
  let box_y := pos.1 `div` 3 in
  hit ← for_first (range (box_y * 3) (box_y * 3 + 3)) (λ r,
           for_first (range (box_x * 3) (box_x * 3 + 3)) (λ c,
             v ← getitem2 b r c ;
             Ok (if bool_decide (v = num ∧ (r, c) ≠ pos)
                 then Some () else None))) ;
  if hit is Some _ then Ok false else Ok true.

(** The [for i in range(1, 10)] loop of [solve_sudoku_dfs] over the digits
    still to try, with [rec] the recursive call. *)
Fixpoint try_digits (rec : board → result (bool * board)) (row col : Z)
    (digits : list Z) (b : board) : result (bool * board) :=
  match digits with
  | [] => Ok (false, b)
  | i :: digits =>
      valid ← is_valid_sudoku_move b i (row, col) ;
      if valid : bool then
        b ← setitem2 b row col i ;
        r ← rec b ;
        if r.1 : bool then Ok (true, r.2)
        else
          b ← setitem2 r.2 row col 0 ;
          try_digits rec row col digits b
      else try_digits rec row col digits b
  end.

(** [solve_sudoku_dfs]: the board is mutated in place, so the model returns
    it next to the boolean. *)
Fixpoint solve_sudoku_dfs (fuel : nat) (b : board) : result (bool * board) :=
  match fuel with
  | O => Raise RecursionError
  | S fuel =>
      find ← find_empty b ;
      match find with
      | None => Ok (true, b)
      | Some (row, col) =>
          try_digits (solve_sudoku_dfs fuel) row col (range 1 10) b
      end
  end.

Definition base_board : board :=
  [ [3; 1; 6; 5; 7; 8; 4; 9; 2];
    [5; 2; 9; 1; 3; 4; 7; 6; 8];
    [4; 8; 7; 6; 2; 9; 5; 3; 1];
    [2; 6; 3; 4; 1; 5; 9; 8; 7];
    [9; 7; 4; 8; 6; 3; 1; 2; 5];
    [8; 5; 1; 7; 9; 2; 6; 4; 3];
    [1; 3; 8; 9; 5; 7; 2; 0; 4];
    [6; 9; 2; 3; 4; 1; 8; 7; 5];
    [7; 4; 5; 2; 8; 6; 3; 1; 9] ].

(** The removal loop of [generate_sudoku_puzzle].  [draws] are the outcomes
    of the successive pairs of [random.randint(0, 8)] calls, one pair per
    iteration; [None] says the loop is still running when they are used
    up. *)
Fixpoint remove_cells (draws : list (Z * Z)) (difficulty : Z)
    (puzzle_board : board) (cells_removed : Z) : option (result board) :=
  if bool_decide (cells_removed < difficulty) then
    match draws with
    | [] => None
    | (row, col) :: draws =>
        match getitem2 puzzle_board row col with
        | Raise e => Some (Raise e)
        | Ok v =>
            if bool_decide (v ≠ 0) then
              match setitem2 puzzle_board row col 0 with
              | Raise e => Some (Raise e)
              | Ok puzzle_board =>
                  remove_cells draws difficulty puzzle_board (cells_removed + 1)
              end
            else remove_cells draws difficulty puzzle_board cells_removed
        end
    end
  else Some (Ok puzzle_board).

Definition generate_sudoku_puzzle (draws : list (Z * Z)) (difficulty : Z)
    : option (result board) :=
  remove_cells draws difficulty base_board 0.

(** *** Grids, units and validity *)

Definition is_9x9 (b : board) : Prop :=
  length b = 9%nat ∧ Forall (λ row, length row = 9%nat) b.

(** The 81 positions [(row, col)] of the grid. *)
Definition positions : list (Z * Z) :=
  r ← range 0 9 ; (λ c, (r, c)) <$> range 0 9.

Definition in_grid (p : Z * Z) : Prop := 0 ≤ p.1 < 9 ∧ 0 ≤ p.2 < 9.

(** Two positions share a row, a column or a 3×3 box. *)
Definition same_unit (p q : Z * Z) : Prop :=
  p.1 = q.1 ∨ p.2 = q.2 ∨ (p.1 `div` 3 = q.1 `div` 3 ∧ p.2 `div` 3 = q.2 `div` 3).

#[global] Instance same_unit_dec p q : Decision (same_unit p q).
Proof. unfold same_unit. apply _. Defined.

Definition at_pos (b : board) (p : Z * Z) : option Z := lookup2 b p.1 p.2.

(** Every cell holds 0 (empty) or a digit. *)
Definition cells_in_range (b : board) : Prop :=
  Forall (Forall (λ v, 0 ≤ v ≤ 9)) b.

(** No digit already on the board occurs twice in a row, column or box. *)
Definition givens_consistent (b : board) : Prop :=
  Forall (λ p, Forall (λ q,
    p = q ∨ ¬ same_unit p q ∨ at_pos b p = Some 0 ∨ at_pos b p ≠ at_pos b q)
    positions) positions.

#[global] Instance givens_consistent_dec b : Decision (givens_consistent b).
Proof. unfold givens_consistent. apply _. Defined.

#[global] Instance cells_in_range_dec b : Decision (cells_in_range b).
Proof. unfold cells_in_range. apply _. Defined.

#[global] Instance is_9x9_dec b : Decision (is_9x9 b).
Proof. unfold is_9x9. apply _. Defined.

(** The positions of the empty cells, and their number. *)
Definition empty_cells (b : board) : list (Z * Z) :=
  filter (λ p, at_pos b p = Some 0) positions.

Definition count_empty (b : board) : nat := length (empty_cells b).

(** The 27 units, as lists of positions. *)
Definition row_unit (r : Z) : list (Z * Z) := (λ c, (r, c)) <$> range 0 9.
Definition col_unit (c : Z) : list (Z * Z) := (λ r, (r, c)) <$> range 0 9.
Definition box_unit (k : Z) : list (Z * Z) :=
  r ← range (k `div` 3 * 3) (k `div` 3 * 3 + 3) ;
  (λ c, (r, c)) <$> range (k `mod` 3 * 3) (k `mod` 3 * 3 + 3).

Definition units : list (list (Z * Z)) :=
  (row_unit <$> range 0 9) ++ (col_unit <$> range 0 9)
  ++ (box_unit <$> range 0 9).

(** The board is solved: 9×9, every cell a digit of 1..9, and the cells of
    every unit are the digits 1..9, each exactly once. *)
Definition solved (b : board) : Prop :=
  is_9x9 b
  ∧ Forall (Forall (λ v, 1 ≤ v ≤ 9)) b
  ∧ Forall (λ u, at_pos b <$> u ≡ₚ Some <$> range 1 10) units.

(** *** What the scans establish *)

Lemma find_empty_Some b row col :
  find_empty b = Ok (Some (row, col)) →
  0 ≤ row < 9 ∧ 0 ≤ col < 9 ∧ lookup2 b row col = Some 0.
Proof.
  intros Hrun. apply for_first_Some in Hrun as (r & Hr & Hrun).
  apply for_first_Some in Hrun as (c & Hc & Hrun).
  apply elem_of_range in Hr, Hc.
  rewrite getitem2_nonneg in Hrun by lia.
  destruct (lookup2 b r c) as [v|] eqn:Hv; simpl in Hrun; [|done].
  case_bool_decide; simplify_eq. split_and!; (lia || done).
Qed.

Lemma find_empty_None b r c :
  find_empty b = Ok None → 0 ≤ r < 9 → 0 ≤ c < 9 →
  ∃ v, lookup2 b r c = Some v ∧ v ≠ 0.
Proof.
  intros Hrun Hr Hc.
  pose proof (for_first_None _ _ Hrun r (proj2 (elem_of_range 0 9 r) Hr))
    as Hrow.
  pose proof (for_first_None _ _ Hrow c (proj2 (elem_of_range 0 9 c) Hc))
    as Hcell.
  cbv beta in Hcell.
  rewrite getitem2_nonneg in Hcell by lia.
  destruct (lookup2 b r c) as [v|]; simpl in Hcell; [|done].
  case_bool_decide; simplify_eq. by exists v.
Qed.

Lemma solve_sudoku_dfs_S fuel b :
  solve_sudoku_dfs (S fuel) b
  = (find ← find_empty b ;
     match find with
     | None => Ok (true, b)
     | Some (row, col) =>
         try_digits (solve_sudoku_dfs fuel) row col (range 1 10) b
     end).
Proof. reflexivity. Qed.

(** *** Backtracking undoes every tentative digit *)

Lemma try_digits_false_restores rec row col digits : ∀ b b',
  (∀ b1 b1', rec b1 = Ok (false, b1') → b1' = b1) →
  0 ≤ row → 0 ≤ col → lookup2 b row col = Some 0 →
  try_digits rec row col digits b = Ok (false, b') → b' = b.
Proof.
  intros b b' Hrec Hrow Hcol. revert b.
  induction digits as [|i digits IH]; simpl; intros b Hcell Hrun.
  { by simplify_eq. }
  destruct (is_valid_sudoku_move b i (row, col)) as [[]|]; simpl in Hrun;
    [|by auto|done].
  rewrite setitem2_nonneg, Hcell in Hrun by done. simpl in Hrun.
  destruct (rec (insert2 b row col i)) as [[[] b1]|] eqn:Hb1;
    simpl in Hrun; [done| |done].
  apply Hrec in Hb1 as ->.
  assert (is_Some (lookup2 (insert2 b row col i) row col)) as [w Hw].
  { rewrite lookup2_insert2, decide_True by eauto. eauto. }
  rewrite setitem2_nonneg, Hw, insert2_undo in Hrun by done.
  simpl in Hrun. by apply IH.
Qed.

Lemma solve_sudoku_dfs_false_restores fuel : ∀ b b',
  solve_sudoku_dfs fuel b = Ok (false, b') → b' = b.
Proof.
  induction fuel as [|fuel IH]; intros b b' Hrun; [done|].
  rewrite solve_sudoku_dfs_S in Hrun.
  destruct (find_empty b) as [[[row col]|]|] eqn:Hfind;
    rewrite ?bind_Ok, ?bind_Raise in Hrun; [|done..].
  apply find_empty_Some in Hfind as (Hrow & Hcol & Hcell).
  eapply try_digits_false_restores in Hrun; eauto; lia.
Qed.

(** *** The invariant of the search: no two equal digits in a unit *)

Definition inv (b : board) : Prop :=
  is_9x9 b
  ∧ (∀ p, in_grid p → ∃ v, at_pos b p = Some v ∧ 0 ≤ v ≤ 9)
  ∧ (∀ p q v, in_grid p → in_grid q → p ≠ q → same_unit p q → v ≠ 0 →
       at_pos b p = Some v → at_pos b q ≠ Some v).

Definition full (b : board) : Prop := ∀ p, in_grid p → at_pos b p ≠ Some 0.

Lemma elem_of_positions p : p ∈ positions ↔ in_grid p.
Proof.
  unfold positions, in_grid. rewrite list_elem_of_bind. split.
  - intros (r & Hp & Hr). apply list_elem_of_fmap in Hp as (c & -> & Hc).
    apply elem_of_range in Hr, Hc. done.
  - intros [Hr Hc]. exists p.1. rewrite elem_of_range. split; [|done].
    apply list_elem_of_fmap. exists p.2. rewrite elem_of_range.
    by destruct p.
Qed.

Lemma same_unit_sym p q : same_unit p q → same_unit q p.
Proof. unfold same_unit. intuition congruence. Qed.

Lemma is_9x9_at_pos b p : is_9x9 b → in_grid p → is_Some (at_pos b p).
Proof.
  intros [Hlen Hrows] [Hr Hc]. unfold at_pos, lookup2.
  destruct (lookup_lt_is_Some_2 b (Z.to_nat p.1)) as [row Hrow]; [lia|].
  rewrite Hrow. simpl. apply lookup_lt_is_Some_2.
  rewrite Forall_lookup in Hrows. rewrite (Hrows _ _ Hrow). lia.
Qed.

Lemma at_pos_of_nat (b : board) (i j : nat) (row : list Z) (v : Z) :
  b !! i = Some row → row !! j = Some v →
  at_pos b (Z.of_nat i, Z.of_nat j) = Some v.
Proof.
  intros Hrow Hv. unfold at_pos, lookup2. cbn [fst snd].
  rewrite !Nat2Z.id, Hrow. simpl. done.
Qed.

Lemma inv_of_givens b :
  is_9x9 b → cells_in_range b → givens_consistent b → inv b.
Proof.
  intros Hshape Hrange Hgiv. split_and!; [done|..].
  - intros p Hp. destruct (is_9x9_at_pos b p Hshape Hp) as [v Hv].
    exists v. split; [done|]. unfold at_pos, lookup2 in Hv.
    destruct (b !! Z.to_nat p.1) as [row|] eqn:Hrow; simpl in Hv; [|done].
    unfold cells_in_range in Hrange. rewrite Forall_lookup in Hrange.
    specialize (Hrange _ _ Hrow). rewrite Forall_lookup in Hrange. eauto.
  - intros p q v Hp Hq Hne Hsame Hv Hpv Hqv.
    unfold givens_consistent in Hgiv. rewrite Forall_forall in Hgiv.
    apply elem_of_positions in Hp, Hq.
    specialize (Hgiv p Hp). rewrite Forall_forall in Hgiv.
    destruct (Hgiv q Hq) as [?|[?|[?|?]]]; [done|done|congruence|congruence].
Qed.

Lemma at_pos_insert2 b row col v p :
  in_grid (row, col) → in_grid p → is_Some (at_pos b (row, col)) →
  at_pos (insert2 b row col v) p
  = if decide (p = (row, col)) then Some v else at_pos b p.
Proof.
  intros [Hr Hc] [Hpr Hpc] Hsome. unfold at_pos in *. simpl in *.
  rewrite lookup2_insert2 by (done || lia).
  destruct p as [r c]; simpl in *.
  repeat case_decide; try done.
  - destruct H as [-> ->]. done.
  - simplify_eq. exfalso. auto.
Qed.

Lemma is_9x9_insert2 b row col v : is_9x9 b → is_9x9 (insert2 b row col v).
Proof.
  intros [Hlen Hrows]. unfold insert2.
  destruct (b !! Z.to_nat row) as [r|] eqn:Hr; [|done].
  split; [by rewrite length_insert|].
  apply Forall_insert; [done|]. rewrite length_insert.
  rewrite Forall_lookup in Hrows. eauto.
Qed.

Lemma inv_insert2 b row col i :
  inv b → in_grid (row, col) → at_pos b (row, col) = Some 0 → 1 ≤ i ≤ 9 →
  (∀ q, in_grid q → q ≠ (row, col) → same_unit q (row, col) →
        at_pos b q ≠ Some i) →
  inv (insert2 b row col i).
Proof.
  intros (Hshape & Hcells & Hclash) Hpos Hempty Hi Hfree. split_and!.
  - by apply is_9x9_insert2.
  - intros p Hp. rewrite at_pos_insert2 by eauto.
    case_decide; [|by apply Hcells]. exists i. split; [done|lia].
  - intros p q v Hp Hq Hne Hsame Hv.
    rewrite !at_pos_insert2 by eauto.
    repeat case_decide; simplify_eq; intros Hpv; simplify_eq.
    + apply Hfree; [done|done|by apply same_unit_sym].
    + intros [= ->]. by apply (Hfree p).
    + by apply (Hclash p q v).
Qed.

(** A move the three scans accept clashes with no other cell of its units. *)
Lemma is_valid_sudoku_move_true b num pos :
  in_grid pos → is_valid_sudoku_move b num pos = Ok true →
  ∀ q, in_grid q → q ≠ pos → same_unit q pos → at_pos b q ≠ Some num.
Proof.
  intros [Hpr Hpc] Hrun q [Hqr Hqc] Hne Hsame Hq.
  unfold is_valid_sudoku_move in Hrun.
  repeat match type of Hrun with
  | (?m ≫= _) = _ =>
      destruct m as [[[]|]|] eqn:?; rewrite ?bind_Ok, ?bind_Raise in Hrun;
      try done
  end.
  unfold at_pos in Hq. unfold same_unit in Hsame.
  destruct q as [qr qc], pos as [pr pc]; cbn [fst snd] in *.
  destruct Hsame as [->|[->|[Hdr Hdc]]].
  - pose proof (for_first_None _ _ Heqr qc (proj2 (elem_of_range 0 9 qc) Hqc))
      as Hscan. cbv beta in Hscan.
    rewrite getitem2_nonneg, Hq, bind_Ok in Hscan by lia.
    case_bool_decide as Hb; [done|]. apply Hne. f_equal.
    destruct (decide (pc = qc)); [done|]. exfalso; apply Hb; done.
  - pose proof (for_first_None _ _ Heqr0 qr (proj2 (elem_of_range 0 9 qr) Hqr))
      as Hscan. cbv beta in Hscan.
    rewrite getitem2_nonneg, Hq, bind_Ok in Hscan by lia.
    case_bool_decide as Hb; [done|]. apply Hne. f_equal.
    destruct (decide (pr = qr)); [done|]. exfalso; apply Hb; done.
  - assert (qr ∈ range (pr `div` 3 * 3) (pr `div` 3 * 3 + 3)) as Hinr.
    { apply elem_of_range. rewrite <- Hdr.
      clear. Z.to_euclidean_division_equations. lia. }
    assert (qc ∈ range (pc `div` 3 * 3) (pc `div` 3 * 3 + 3)) as Hinc.
    { apply elem_of_range. rewrite <- Hdc.
      clear. Z.to_euclidean_division_equations. lia. }
    pose proof (for_first_None _ _ Heqr1 qr Hinr) as Hscan. cbv beta in Hscan.
    pose proof (for_first_None _ _ Hscan qc Hinc) as Hcell. cbv beta in Hcell.
    rewrite getitem2_nonneg, Hq, bind_Ok in Hcell by lia.
    case_bool_decide as Hb; [done|]. apply Hb. done.
Qed.

(** *** A successful search ends on a solved board *)

Lemma try_digits_true_inv rec row col digits : ∀ b b',
  (∀ b1 b1', rec b1 = Ok (false, b1') → b1' = b1) →
  (∀ b1 b1', inv b1 → rec b1 = Ok (true, b1') → inv b1' ∧ full b1') →
  in_grid (row, col) → Forall (λ i, 1 ≤ i ≤ 9) digits →
  inv b → at_pos b (row, col) = Some 0 →
  try_digits rec row col digits b = Ok (true, b') → inv b' ∧ full b'.
Proof.
  intros b b' Hfalse Htrue Hpos. revert b.
  induction digits as [|i digits IH]; simpl; intros b Hdigits Hinv Hcell Hrun.
  { done. }
  apply Forall_cons in Hdigits as [Hi Hdigits].
  destruct (is_valid_sudoku_move b i (row, col)) as [[]|] eqn:Hvalid;
    rewrite ?bind_Ok, ?bind_Raise in Hrun; [|by eauto|done].
  destruct Hpos as [Hr Hc]; simpl in Hr, Hc. unfold at_pos in Hcell.
  simpl in Hcell.
  rewrite setitem2_nonneg, Hcell, bind_Ok in Hrun by lia.
  destruct (rec (insert2 b row col i)) as [[[] b1]|] eqn:Hb1;
    rewrite ?bind_Ok, ?bind_Raise in Hrun; simpl in Hrun; [| |done].
  - simplify_eq. eapply Htrue; [|done].
    apply inv_insert2; try done.
    by apply is_valid_sudoku_move_true.
  - apply Hfalse in Hb1 as ->.
    assert (is_Some (lookup2 (insert2 b row col i) row col)) as [w Hw].
    { rewrite lookup2_insert2, decide_True by (eauto || lia). eauto. }
    rewrite setitem2_nonneg, Hw, insert2_undo, bind_Ok in Hrun by (done || lia).
    by apply (IH b).
Qed.

Lemma solve_sudoku_dfs_true_inv fuel : ∀ b b',
  inv b → solve_sudoku_dfs fuel b = Ok (true, b') → inv b' ∧ full b'.
Proof.
  induction fuel as [|fuel IH]; intros b b' Hinv Hrun; [done|].
  rewrite solve_sudoku_dfs_S in Hrun.
  destruct (find_empty b) as [[[row col]|]|] eqn:Hfind;
    rewrite ?bind_Ok, ?bind_Raise in Hrun; [| |done].
  - apply find_empty_Some in Hfind as (Hrow & Hcol & Hcell).
    eapply try_digits_true_inv; [| |split| | | |exact Hrun]; eauto.
    + apply solve_sudoku_dfs_false_restores.
    + apply Forall_forall. intros i Hi. apply elem_of_range in Hi. lia.
  - simplify_eq. split; [done|]. intros p [Hr Hc] Hp.
    destruct (find_empty_None _ p.1 p.2 Hfind Hr Hc) as (v & Hv & Hne).
    unfold at_pos in Hp. congruence.
Qed.

(** Each unit holds nine distinct positions of the grid, any two of which
    share that unit. *)
Lemma units_facts :
  Forall (λ u, NoDup u ∧ length u = 9%nat ∧ Forall (λ p, p ∈ positions) u
             ∧ Forall (λ p, Forall (λ q, same_unit p q) u) u) units.
Proof. refine (bool_decide_unpack _ _). vm_compute. exact I. Qed.

Lemma solved_of_inv_full b : inv b → full b → solved b.
Proof.
  intros (Hshape & Hcells & Hclash) Hfull. split_and!; [done|..].
  - apply Forall_lookup. intros i row Hrow.
    apply Forall_lookup. intros j v Hv.
    pose proof (at_pos_of_nat _ _ _ _ _ Hrow Hv) as Hat.
    assert (in_grid (Z.of_nat i, Z.of_nat j)) as Hin.
    { destruct Hshape as [Hlen Hrows]. rewrite Forall_lookup in Hrows.
      apply lookup_lt_Some in Hrow as Hi. apply lookup_lt_Some in Hv as Hj.
      rewrite (Hrows _ _ Hrow) in Hj. split; simpl; lia. }
    destruct (Hcells _ Hin) as (v' & Hv' & Hrange).
    pose proof (Hfull _ Hin). assert (v ≠ 0) by congruence.
    assert (v' = v) as -> by congruence. lia.
  - pose proof units_facts as Hunits. rewrite Forall_forall in Hunits.
    apply Forall_forall. intros u Hu.
    destruct (Hunits u Hu) as (Hnodup & Hlen & Hpos & Hsame).
    rewrite Forall_forall in Hpos, Hsame.
    assert (∀ p, p ∈ u → ∃ v, at_pos b p = Some v ∧ 1 ≤ v ≤ 9) as Hdigit.
    { intros p Hp. apply Hpos, elem_of_positions in Hp.
      destruct (Hcells p Hp) as (v & Hv & Hrange). exists v. split; [done|].
      pose proof (Hfull p Hp). assert (v ≠ 0) by congruence. lia. }
    apply submseteq_length_Permutation.
    + apply NoDup_submseteq.
      * apply NoDup_fmap_2_strong; [|done].
        intros p q Hp Hq Heq. destruct (decide (p = q)) as [|Hne]; [done|].
        destruct (Hdigit p Hp) as (v & Hv & Hrange). exfalso.
        eapply (Hclash p q v); try done.
        -- by apply elem_of_positions, Hpos.
        -- by apply elem_of_positions, Hpos.
        -- specialize (Hsame p Hp). rewrite Forall_forall in Hsame. auto.
        -- lia.
        -- congruence.
      * intros o Ho. apply list_elem_of_fmap in Ho as (p & -> & Hp).
        destruct (Hdigit p Hp) as (v & -> & Hrange).
        apply list_elem_of_fmap. exists v. split; [done|].
        apply elem_of_range. lia.
    + rewrite !length_fmap, Hlen. done.
Qed.

Lemma solve_sudoku_dfs_true_solved fuel b b' :
  is_9x9 b → cells_in_range b → givens_consistent b →
  solve_sudoku_dfs fuel b = Ok (true, b') → solved b'.
Proof.
  intros Hshape Hrange Hgiv Hrun.
  destruct (solve_sudoku_dfs_true_inv fuel b b') as [Hinv Hfull]; [|done|].
  - by apply inv_of_givens.
  - by apply solved_of_inv_full.
Qed.

(** A full grid holding the digit 1 everywhere. *)
Definition all_ones : board := replicate 9 (replicate 9 1).

(** A solvable puzzle: a completed grid with its first and fifth rows
    emptied. *)
Definition sample_puzzle : board :=
  [ [0; 0; 0; 0; 0; 0; 0; 0; 0];
    [4; 5; 6; 7; 8; 9; 1; 2; 3];
    [7; 8; 9; 1; 2; 3; 4; 5; 6];
    [2; 3; 4; 5; 6; 7; 8; 9; 1];
    [0; 0; 0; 0; 0; 0; 0; 0; 0];
    [8; 9; 1; 2; 3; 4; 5; 6; 7];
    [3; 4; 5; 6; 7; 8; 9; 1; 2];
    [6; 7; 8; 9; 1; 2; 3; 4; 5];
    [9; 1; 2; 3; 4; 5; 6; 7; 8] ].

Definition sample_solution : board :=
  [ [1; 2; 3; 4; 5; 6; 7; 8; 9];
    [4; 5; 6; 7; 8; 9; 1; 2; 3];
    [7; 8; 9; 1; 2; 3; 4; 5; 6];
    [2; 3; 4; 5; 6; 7; 8; 9; 1];
    [5; 6; 7; 8; 9; 1; 2; 3; 4];
    [8; 9; 1; 2; 3; 4; 5; 6; 7];
    [3; 4; 5; 6; 7; 8; 9; 1; 2];
    [6; 7; 8; 9; 1; 2; 3; 4; 5];
    [9; 1; 2; 3; 4; 5; 6; 7; 8] ].

(** A puzzle with no solution: the last cell of the first row can take no
    digit. *)
Definition dead_end_puzzle : board :=
  [ [1; 2; 3; 4; 5; 6; 7; 8; 0];
    [0; 0; 0; 0; 0; 0; 0; 0; 9];
    [0; 0; 0; 0; 0; 0; 0; 0; 0];
    [0; 0; 0; 0; 0; 0; 0; 0; 0];
    [0; 0; 0; 0; 0; 0; 0; 0; 0];
    [0; 0; 0; 0; 0; 0; 0; 0; 0];
    [0; 0; 0; 0; 0; 0; 0; 0; 0];
    [0; 0; 0; 0; 0; 0; 0; 0; 0];
    [0; 0; 0; 0; 0; 0; 0; 0; 0] ].

(** A puzzle with no solution that makes the search place digits and take
    them back: the cell (0, 7) can take 8 or 9, and either leaves no digit
    for the cell (0, 8). *)
Definition backtrack_puzzle : board :=
  [ [1; 2; 3; 4; 5; 6; 7; 0; 0];
    [0; 0; 0; 0; 0; 0; 0; 0; 0];
    [0; 0; 0; 0; 0; 0; 0; 0; 0];
    [0; 0; 0; 0; 0; 0; 0; 0; 8];
    [0; 0; 0; 0; 0; 0; 0; 0; 9];
    [0; 0; 0; 0; 0; 0; 0; 0; 0];
    [0; 0; 0; 0; 0; 0; 0; 0; 0];
    [0; 0; 0; 0; 0; 0; 0; 0; 0];
    [0; 0; 0; 0; 0; 0; 0; 0; 0] ].

(** C2, as the claim states it, fails on a 9×9 grid whose givens already
    clash: on the full grid of 1s [solve_sudoku_dfs] finds no empty cell and
    returns [True] at once, and that grid is not solved. *)
Lemma solve_sudoku_dfs_accepts_clashing_full_grid :
  is_9x9 all_ones
  ∧ solve_sudoku_dfs 82 all_ones = Ok (true, all_ones)
  ∧ ¬ solved all_ones.
Proof.
  split_and!.
  - refine (bool_decide_unpack _ _). vm_compute. exact I.
  - vm_compute. reflexivity.
  - intros (_ & _ & Hunits). rewrite Forall_forall in Hunits.
    assert (row_unit 0 ∈ units) as Hrow
      by (refine (bool_decide_unpack _ _); vm_compute; exact I).
    apply Hunits in Hrow.
    assert (Some 2 ∉ at_pos all_ones <$> row_unit 0) as Hnotin
      by (refine (proj1 (bool_decide_eq_false _) _); vm_compute; reflexivity).
    apply Hnotin. rewrite Hrow.
    refine (bool_decide_unpack _ _). vm_compute. exact I.
Qed.

(** C2 (amended): for every 9×9 grid of entries 0..9 in which no digit
    already occurs twice in a row, column or 3×3 box, if [solve_sudoku_dfs]
    returns [True] then the resulting grid is 9×9, holds no zero, and every
    row, every column and every 3×3 box contains each digit 1–9 exactly
    once. *)
Theorem solve_sudoku_dfs_success_is_solved (fuel : nat) (b b' : board) :
  is_9x9 b → cells_in_range b → givens_consistent b →
  solve_sudoku_dfs fuel b = Ok (true, b') → solved b'.
Proof. apply solve_sudoku_dfs_true_solved. Qed.

Lemma solve_sudoku_dfs_success_is_solved_witness :
  solve_sudoku_dfs 82 sample_puzzle = Ok (true, sample_solution)
  ∧ solved sample_solution.
Proof.
  assert (solve_sudoku_dfs 82 sample_puzzle = Ok (true, sample_solution))
    as Hrun by (vm_compute; reflexivity).
  split; [exact Hrun|].
  apply (solve_sudoku_dfs_success_is_solved 82 sample_puzzle sample_solution);
    [refine (bool_decide_unpack _ _); vm_compute; exact I ..|exact Hrun].
Defined.

(** C6: if [solve_sudoku_dfs] returns [False], the grid after the call is
    the grid before the call: every cell a candidate digit was tentatively
    placed into has been reset to 0. *)
Theorem solve_sudoku_dfs_failure_leaves_board_unchanged
    (fuel : nat) (b b' : board) :
  solve_sudoku_dfs fuel b = Ok (false, b') → b' = b.
Proof. apply solve_sudoku_dfs_false_restores. Qed.

Lemma solve_sudoku_dfs_failure_leaves_board_unchanged_witness :
  solve_sudoku_dfs 1 backtrack_puzzle = Raise RecursionError
  ∧ solve_sudoku_dfs 82 backtrack_puzzle = Ok (false, backtrack_puzzle).
Proof.
  split; [vm_compute; reflexivity|].
  assert (∃ b', solve_sudoku_dfs 82 backtrack_puzzle = Ok (false, b'))
    as [b' Hrun] by (eexists; vm_compute; reflexivity).
  rewrite Hrun.
  by rewrite (solve_sudoku_dfs_failure_leaves_board_unchanged
                82 backtrack_puzzle b' Hrun).
Defined.

(** *** The search returns on every 9×9 board *)

Lemma is_9x9_lookup2 b r c :
  is_9x9 b → 0 ≤ r < 9 → 0 ≤ c < 9 → is_Some (lookup2 b r c).
Proof. intros Hshape Hr Hc. by apply (is_9x9_at_pos b (r, c)). Qed.

Lemma find_empty_total b : is_9x9 b → ∃ o, find_empty b = Ok o.
Proof.
  intros Hshape. apply for_first_total. intros r Hr.
  apply for_first_total. intros c Hc. apply elem_of_range in Hr, Hc.
  destruct (is_9x9_lookup2 b r c Hshape Hr Hc) as [v Hv].
  rewrite getitem2_nonneg, Hv, bind_Ok by lia. eauto.
Qed.

Lemma is_valid_sudoku_move_total b num pos :
  is_9x9 b → in_grid pos → ∃ ok, is_valid_sudoku_move b num pos = Ok ok.
Proof.
  intros Hshape [Hpr Hpc]. unfold is_valid_sudoku_move.
  destruct (for_first_total (range 0 9) (λ col,
      v ← getitem2 b pos.1 col ;
      Ok (if bool_decide (v = num ∧ pos.2 ≠ col) then Some () else None)))
    as [hit1 ->].
  { intros c Hc. apply elem_of_range in Hc.
    destruct (is_9x9_lookup2 b pos.1 c Hshape Hpr Hc) as [v Hv].
    rewrite getitem2_nonneg, Hv, bind_Ok by lia. eauto. }
  rewrite bind_Ok. destruct hit1; [by eexists|].
  destruct (for_first_total (range 0 9) (λ row,
      v ← getitem2 b row pos.2 ;
      Ok (if bool_decide (v = num ∧ pos.1 ≠ row) then Some () else None)))
    as [hit2 ->].
  { intros r Hr. apply elem_of_range in Hr.
    destruct (is_9x9_lookup2 b r pos.2 Hshape Hr Hpc) as [v Hv].
    rewrite getitem2_nonneg, Hv, bind_Ok by lia. eauto. }
  rewrite bind_Ok. destruct hit2; [by eexists|].
  cbv zeta.
  destruct (for_first_total
      (range (pos.1 `div` 3 * 3) (pos.1 `div` 3 * 3 + 3)) (λ r,
        for_first (range (pos.2 `div` 3 * 3) (pos.2 `div` 3 * 3 + 3)) (λ c,
          v ← getitem2 b r c ;
          Ok (if bool_decide (v = num ∧ (r, c) ≠ pos)
              then Some () else None))))
    as [hit3 ->].
  { intros r Hr. apply for_first_total. intros c Hc.
    apply elem_of_range in Hr, Hc.
    assert (0 ≤ r < 9) as Hr9
      by (clear -Hr Hpr; Z.to_euclidean_division_equations; lia).
    assert (0 ≤ c < 9) as Hc9
      by (clear -Hc Hpc; Z.to_euclidean_division_equations; lia).
    destruct (is_9x9_lookup2 b r c Hshape Hr9 Hc9) as [v Hv].
    rewrite getitem2_nonneg, Hv, bind_Ok by lia. eauto. }
  rewrite bind_Ok. destruct hit3; by eexists.
Qed.

Lemma count_empty_insert2 b row col i :
  is_9x9 b → in_grid (row, col) → at_pos b (row, col) = Some 0 → i ≠ 0 →
  (count_empty (insert2 b row col i) < count_empty b)%nat.
Proof.
  intros Hshape Hpos Hcell Hi. unfold count_empty, empty_cells.
  apply (length_filter_lt _ _ positions (row, col)).
  - intros p Hp. apply elem_of_positions in Hp.
    rewrite at_pos_insert2 by eauto. case_decide; [|done]. congruence.
  - by apply elem_of_positions.
  - done.
  - rewrite at_pos_insert2, decide_True by eauto. congruence.
Qed.

Lemma try_digits_total rec row col digits : ∀ b,
  (∀ b1 b1', rec b1 = Ok (false, b1') → b1' = b1) →
  (∀ b1, is_9x9 b1 → (count_empty b1 < count_empty b)%nat →
         ∃ r, rec b1 = Ok r) →
  is_9x9 b → in_grid (row, col) → at_pos b (row, col) = Some 0 →
  Forall (λ i, i ≠ 0) digits →
  ∃ r, try_digits rec row col digits b = Ok r.
Proof.
  intros b Hfalse Hrec Hshape Hpos Hcell.
  induction digits as [|i digits IH]; simpl; intros Hdigits; [by eexists|].
  apply Forall_cons in Hdigits as [Hi Hdigits].
  destruct (is_valid_sudoku_move_total b i (row, col)) as [[] ->];
    try done; rewrite bind_Ok; [|by apply IH].
  pose proof Hpos as [Hr Hc]. simpl in Hr, Hc.
  pose proof Hcell as Hcell'. unfold at_pos in Hcell'. simpl in Hcell'.
  rewrite setitem2_nonneg, Hcell', bind_Ok by lia.
  destruct (Hrec (insert2 b row col i)) as [[[] b1] Hb1].
  { by apply is_9x9_insert2. }
  { by apply count_empty_insert2. }
  - rewrite Hb1, bind_Ok. by eexists.
  - rewrite Hb1, bind_Ok. simpl. apply Hfalse in Hb1 as ->.
    assert (is_Some (lookup2 (insert2 b row col i) row col)) as [w Hw].
    { rewrite lookup2_insert2, decide_True by (eauto || lia). eauto. }
    rewrite setitem2_nonneg, Hw, insert2_undo, bind_Ok by (done || lia).
    by apply IH.
Qed.

Lemma solve_sudoku_dfs_total fuel : ∀ b,
  is_9x9 b → (count_empty b < fuel)%nat →
  ∃ r, solve_sudoku_dfs fuel b = Ok r.
Proof.
  induction fuel as [|fuel IH]; intros b Hshape Hfuel; [lia|].
  rewrite solve_sudoku_dfs_S.
  destruct (find_empty_total b Hshape) as [[[row col]|] Hfind];
    rewrite Hfind, bind_Ok; [|by eexists].
  apply find_empty_Some in Hfind as (Hrow & Hcol & Hcell).
  apply try_digits_total; try done.
  - apply solve_sudoku_dfs_false_restores.
  - intros b1 Hshape1 Hlt. apply IH; [done|lia].
  - apply Forall_forall. intros i Hi. apply elem_of_range in Hi. lia.
Qed.

(** X1: on every 9×9 board [solve_sudoku_dfs] returns [True] or [False]
    within a recursion depth of 82: it neither raises nor recurses deeper
    than the number of empty cells. *)
Theorem solve_sudoku_dfs_returns (b : board) :
  is_9x9 b → ∃ solved b', solve_sudoku_dfs 82 b = Ok (solved, b').
Proof.
  intros Hshape.
  destruct (solve_sudoku_dfs_total 82 b Hshape) as [[solved b'] Hrun].
  - unfold count_empty, empty_cells.
    assert (length positions = 81%nat) as Hlen by (vm_compute; reflexivity).
    pose proof (length_filter (λ p, at_pos b p = Some 0) positions). lia.
  - by exists solved, b'.
Qed.

Lemma solve_sudoku_dfs_returns_witness :
  ∃ solved b', solve_sudoku_dfs 82 dead_end_puzzle = Ok (solved, b').
Proof.
  apply (solve_sudoku_dfs_returns dead_end_puzzle).
  refine (bool_decide_unpack _ _). vm_compute. exact I.
Defined.

(** X4: the base grid of [generate_sudoku_puzzle] is not a solved Sudoku
    with one cell blanked: its last column holds 5 twice (rows 4 and 7), and
    [solve_sudoku_dfs] on it returns [False]. *)
Theorem base_board_is_not_solvable :
  at_pos base_board (4, 8) = Some 5
  ∧ at_pos base_board (7, 8) = Some 5
  ∧ ¬ givens_consistent base_board
  ∧ solve_sudoku_dfs 82 base_board = Ok (false, base_board).
Proof.
  split_and!; [done|done| |vm_compute; reflexivity].
  refine (proj1 (bool_decide_eq_false _) _). vm_compute. reflexivity.
Qed.

(** *** The puzzle generator *)

(** The loop invariant: [removed] are the distinct filled cells of the base
    grid zeroed so far, and the board differs from the base grid there
    only. *)
Definition removal_state (removed : list (Z * Z)) (b : board) : Prop :=
  is_9x9 b
  ∧ NoDup removed
  ∧ (∀ p, p ∈ removed → in_grid p ∧ at_pos base_board p ≠ Some 0)
  ∧ (∀ p, in_grid p →
       at_pos b p = if decide (p ∈ removed) then Some 0
                    else at_pos base_board p).

Lemma base_board_9x9 : is_9x9 base_board.
Proof. refine (bool_decide_unpack _ _). vm_compute. exact I. Qed.

Lemma base_board_empty_cells : empty_cells base_board = [(6, 7)].
Proof. vm_compute. reflexivity. Qed.

Lemma positions_NoDup : NoDup positions.
Proof. refine (bool_decide_unpack _ _). vm_compute. exact I. Qed.

Lemma elem_of_empty_cells b p :
  p ∈ empty_cells b ↔ in_grid p ∧ at_pos b p = Some 0.
Proof.
  unfold empty_cells. rewrite list_elem_of_filter, elem_of_positions. tauto.
Qed.

Lemma removal_state_base : removal_state [] base_board.
Proof.
  split_and!.
  - apply base_board_9x9.
  - constructor.
  - intros p Hp. by apply elem_of_nil in Hp.
  - intros p _. rewrite decide_False; [done|]. apply not_elem_of_nil.
Qed.

Lemma removal_state_empty_cells removed b :
  removal_state removed b → empty_cells b ≡ₚ removed ++ [(6, 7)].
Proof.
  intros (Hshape & Hnodup & Hfilled & Hcells).
  assert (∀ p, in_grid p ∧ at_pos base_board p = Some 0 ↔ p = (6, 7)) as Hbase.
  { intros p. rewrite <- elem_of_empty_cells, base_board_empty_cells.
    apply list_elem_of_singleton. }
  apply NoDup_Permutation.
  - apply NoDup_filter, positions_NoDup.
  - apply NoDup_app. split_and!; [done| |apply NoDup_singleton].
    intros p Hp Hp'. apply list_elem_of_singleton in Hp' as ->.
    apply Hfilled in Hp as [_ Hp]. apply Hp. by apply Hbase.
  - intros p. rewrite elem_of_empty_cells, elem_of_app, list_elem_of_singleton.
    rewrite <- Hbase. split.
    + intros [Hin Hp]. rewrite Hcells in Hp by done.
      case_decide; [by left|by right].
    + intros [Hp|[Hin Hp]].
      * destruct (Hfilled p Hp) as [Hin _]. split; [done|].
        rewrite Hcells by done. by rewrite decide_True.
      * split; [done|]. rewrite Hcells by done. by case_decide.
Qed.

(** The base grid has 80 filled cells: no more can be removed. *)
Lemma removal_state_at_most_80 removed b :
  removal_state removed b → (length removed ≤ 80)%nat.
Proof.
  intros Hstate. pose proof (removal_state_empty_cells _ _ Hstate) as Hperm.
  apply Permutation_length in Hperm. rewrite length_app in Hperm.
  simpl in Hperm.
  assert (length (empty_cells b) ≤ length positions)%nat as Hle
    by apply length_filter.
  assert (length positions = 81%nat) as Hlen by (vm_compute; reflexivity).
  lia.
Qed.

Lemma remove_cells_spec draws difficulty : ∀ b removed r,
  Forall in_grid draws → removal_state removed b →
  remove_cells draws difficulty b (Z.of_nat (length removed)) = Some r →
  ∃ b' removed',
    r = Ok b' ∧ removal_state removed' b'
    ∧ Z.of_nat (length removed')
      = Z.max difficulty (Z.of_nat (length removed)).
Proof.
  induction draws as [|[row col] draws IH]; intros b removed r Hdraws Hstate;
    simpl; case_bool_decide as Hlt; intros Hrun; try done.
  - simplify_eq. exists b, removed. split_and!; [done|done|lia].
  - apply Forall_cons in Hdraws as [[Hrow Hcol] Hdraws]. simpl in Hrow, Hcol.
    destruct Hstate as (Hshape & Hnodup & Hfilled & Hcells).
    destruct (is_9x9_at_pos b (row, col) Hshape) as [v Hv]; [done|].
    pose proof Hv as Hv'. unfold at_pos in Hv'. simpl in Hv'.
    rewrite getitem2_nonneg, Hv' in Hrun by lia.
    case_bool_decide as Hv0.
    + rewrite setitem2_nonneg, Hv' in Hrun by lia.
      assert ((row, col) ∉ removed) as Hfresh.
      { intros Hin. rewrite Hcells, decide_True in Hv by done. congruence. }
      replace (Z.of_nat (length removed) + 1)
        with (Z.of_nat (length ((row, col) :: removed))) in Hrun
        by (simpl length; lia).
      apply IH in Hrun as (b' & removed' & -> & Hstate' & Hlen); [|done|].
      * exists b', removed'. split_and!; [done|done|].
        rewrite Hlen. simpl length. lia.
      * split_and!.
        -- by apply is_9x9_insert2.
        -- by constructor.
        -- intros p Hp. apply elem_of_cons in Hp as [->|Hp]; [|by auto].
           split; [done|]. rewrite Hcells, decide_False in Hv by done.
           congruence.
        -- intros p Hp. rewrite at_pos_insert2 by (done || eauto).
           destruct (decide (p = (row, col))) as [->|Hne].
           ++ rewrite decide_True; [done|left].
           ++ rewrite Hcells by done.
              destruct (decide (p ∈ removed)) as [Hin|Hnin].
              ** rewrite decide_True; [done|by right].
              ** rewrite decide_False; [done|].
                 intros Hin. apply elem_of_cons in Hin as [?|?]; done.
    + apply IH in Hrun as (b' & removed' & -> & Hstate' & Hlen); [|done|done].
      exists b', removed'. done.
  - simplify_eq. exists b, removed.
    split_and!; [done|done|lia].
Qed.

Lemma remove_cells_81_runs_on draws difficulty : ∀ b removed,
  81 ≤ difficulty → Forall in_grid draws → removal_state removed b →
  remove_cells draws difficulty b (Z.of_nat (length removed)) = None.
Proof.
  intros b removed Hd Hdraws Hstate.
  destruct (remove_cells _ _ _ _) as [r|] eqn:Hrun; [|done].
  apply remove_cells_spec in Hrun as (b' & removed' & _ & Hstate' & Hlen);
    [|done..].
  apply removal_state_at_most_80 in Hstate'. lia.
Qed.

(** X3: whatever the draws, a difficulty of 81 or more keeps the removal
    loop of [generate_sudoku_puzzle] running: only 80 cells of the base grid
    are filled. *)
Theorem generate_sudoku_puzzle_81_never_returns
    (draws : list (Z * Z)) (difficulty : Z) :
  81 ≤ difficulty → Forall in_grid draws →
  generate_sudoku_puzzle draws difficulty = None.
Proof.
  intros Hd Hdraws.
  apply (remove_cells_81_runs_on draws difficulty base_board []); try done.
  apply removal_state_base.
Qed.

Lemma generate_sudoku_puzzle_81_never_returns_witness :
  generate_sudoku_puzzle (positions ++ positions) 81 = None.
Proof.
  apply (generate_sudoku_puzzle_81_never_returns (positions ++ positions) 81);
    [lia|].
  refine (bool_decide_unpack _ _). vm_compute. exact I.
Defined.

(** The filled cells of the base grid that occur among the draws. *)
Definition filled_cells_drawn (draws : list (Z * Z)) : gset (Z * Z) :=
  list_to_set (filter (λ p, at_pos base_board p ≠ Some 0) draws).

(** The loop finishes on the draws exactly when they hold enough filled
    cells that have not been removed yet: a draw of an empty cell, or of a
    cell removed before, is passed over. *)
Lemma remove_cells_finishes draws difficulty : ∀ b removed,
  Forall in_grid draws → removal_state removed b →
  (∃ r, remove_cells draws difficulty b (Z.of_nat (length removed)) = Some r)
  ↔ difficulty
    ≤ Z.of_nat (length removed
                + size (filled_cells_drawn draws ∖ list_to_set removed)).
Proof.
  induction draws as [|[row col] draws IH]; intros b removed Hdraws Hstate.
  - unfold filled_cells_drawn. rewrite filter_nil, list_to_set_nil.
    assert ((∅ : gset (Z * Z)) ∖ list_to_set removed = ∅) as ->
      by (apply set_eq; intros q; rewrite elem_of_difference; set_solver).
    rewrite size_empty. simpl.
    case_bool_decide as Hlt; split.
    + by intros [r ?].
    + lia.
    + lia.
    + intros _. by eexists.
  - apply Forall_cons in Hdraws as [[Hrow Hcol] Hdraws]. simpl in Hrow, Hcol.
    simpl remove_cells. case_bool_decide as Hlt.
    2:{ split; [lia|]. intros _. by eexists. }
    pose proof Hstate as (Hshape & Hnodup & Hfilled & Hcells).
    destruct (is_9x9_at_pos b (row, col) Hshape) as [v Hv]; [done|].
    pose proof Hv as Hv'. unfold at_pos in Hv'. simpl in Hv'.
    rewrite getitem2_nonneg, Hv' by lia.
    unfold filled_cells_drawn. rewrite filter_cons.
    fold (filled_cells_drawn draws).
    case_bool_decide as Hv0.
    + (* a filled cell: it is removed *)
      rewrite setitem2_nonneg, Hv' by lia.
      assert ((row, col) ∉ removed) as Hfresh.
      { intros Hin. rewrite Hcells, decide_True in Hv by done. congruence. }
      assert (at_pos base_board (row, col) ≠ Some 0) as Hbase.
      { rewrite Hcells, decide_False in Hv by done. congruence. }
      rewrite decide_True by done. rewrite list_to_set_cons.
      fold (filled_cells_drawn draws).
      replace (Z.of_nat (length removed) + 1)
        with (Z.of_nat (length ((row, col) :: removed)))
        by (simpl length; lia).
      rewrite (IH (insert2 b row col 0) ((row, col) :: removed)); [|done|].
      * rewrite list_to_set_cons.
        assert (size (({[(row, col)]} ∪ filled_cells_drawn draws)
                        ∖ list_to_set removed)
                = S (size (filled_cells_drawn draws
                             ∖ ({[(row, col)]} ∪ list_to_set removed))))
          as ->.
        { assert (({[(row, col)]} ∪ filled_cells_drawn draws)
                    ∖ list_to_set removed
                  = {[(row, col)]}
                    ∪ filled_cells_drawn draws
                      ∖ ({[(row, col)]} ∪ list_to_set removed)) as ->.
          { apply set_eq. intros q.
            rewrite !elem_of_union, !elem_of_difference, !elem_of_union,
              elem_of_singleton, elem_of_list_to_set.
            destruct (decide (q = (row, col))) as [->|]; naive_solver. }
          rewrite size_union; [by rewrite size_singleton|].
          intros q Hq1 Hq2. apply elem_of_singleton in Hq1 as ->.
          apply elem_of_difference in Hq2 as [_ Hq2]. apply Hq2.
          by apply elem_of_union_l, elem_of_singleton. }
        simpl length. split; lia.
      * split_and!.
        -- by apply is_9x9_insert2.
        -- by constructor.
        -- intros p Hp. apply elem_of_cons in Hp as [->|Hp]; [|by auto].
           done.
        -- intros p Hp. rewrite at_pos_insert2 by (done || eauto).
           destruct (decide (p = (row, col))) as [->|Hne].
           ++ rewrite decide_True; [done|left].
           ++ rewrite Hcells by done.
              destruct (decide (p ∈ removed)) as [Hin|Hnin].
              ** rewrite decide_True; [done|by right].
              ** rewrite decide_False; [done|].
                 intros Hin. apply elem_of_cons in Hin as [?|?]; done.
    + (* an empty cell: the draw is passed over *)
      assert (v = 0) as -> by (by destruct (decide (v = 0))).
      rewrite (IH b removed) by done.
      assert (list_to_set
                (if decide (at_pos base_board (row, col) ≠ Some 0)
                 then (row, col) :: filter (λ p, at_pos base_board p ≠ Some 0)
                                      draws
                 else filter (λ p, at_pos base_board p ≠ Some 0) draws)
                ∖ list_to_set removed
              = filled_cells_drawn draws ∖ (list_to_set removed : gset _))
        as ->; [|done].
      case_decide as Hbase; [|done].
      assert ((row, col) ∈ removed) as Hin.
      { destruct (decide ((row, col) ∈ removed)) as [|Hnin]; [done|].
        rewrite Hcells, decide_False in Hv by done. congruence. }
      rewrite list_to_set_cons. fold (filled_cells_drawn draws).
      apply set_eq. intros q.
      rewrite !elem_of_difference, elem_of_union, elem_of_singleton,
        elem_of_list_to_set.
      split; [|naive_solver]. intros [[->|?] ?]; done.
Qed.

(** Drawing the cells in row-major order finishes the loop for every
    difficulty up to 80. *)
Lemma generate_sudoku_puzzle_finishes difficulty :
  0 ≤ difficulty ≤ 80 →
  ∃ b, generate_sudoku_puzzle positions difficulty = Some (Ok b).
Proof.
  intros Hd.
  assert (Forall (λ d, match generate_sudoku_puzzle positions d with
                       | Some (Ok _) => True
                       | _ => False
                       end) (range 0 81)) as Hall.
  { apply Forall_forall. intros d Hin.
    assert (Forall (λ d, bool_decide
              (match generate_sudoku_puzzle positions d with
               | Some (Ok _) => true
               | _ => false
               end = true)) (range 0 81)) as Hb
      by (refine (bool_decide_unpack _ _); vm_compute; exact I).
    rewrite Forall_forall in Hb. specialize (Hb d Hin).
    apply bool_decide_unpack in Hb.
    destruct (generate_sudoku_puzzle positions d) as [[]|]; done. }
  rewrite Forall_forall in Hall.
  specialize (Hall difficulty). rewrite elem_of_range in Hall.
  destruct (generate_sudoku_puzzle positions difficulty) as [[b|]|];
    [by exists b|exfalso; apply Hall; lia..].
Qed.

(** C4, as the claim states it, fails at difficulty 0: the grid returned is
    the base grid, which already holds one empty cell. *)
Lemma generate_sudoku_puzzle_zero_has_one_empty_cell :
  generate_sudoku_puzzle [] 0 = Some (Ok base_board)
  ∧ count_empty base_board = 1%nat.
Proof. split; vm_compute; reflexivity. Qed.

(** C4 (amended): for every difficulty d with 0 ≤ d ≤ 80 and every sequence
    of random draws, a call of [generate_sudoku_puzzle d] whose removal loop
    finishes returns a 9×9 grid obtained from the base grid, which already
    holds one empty cell, by zeroing exactly d distinct filled cells (no cell
    zeroed twice), so the returned grid contains exactly d + 1 empty cells;
    the loop finishes on the draws exactly when d distinct filled cells of
    the base grid occur among them, whatever else is drawn in between; and
    for each such d there are draws on which it finishes. *)
Theorem generate_sudoku_puzzle_removes_d_filled_cells
    (difficulty : Z) (draws : list (Z * Z)) :
  0 ≤ difficulty ≤ 80 → Forall in_grid draws →
  (∀ r, generate_sudoku_puzzle draws difficulty = Some r →
     ∃ b removed,
       r = Ok b ∧ is_9x9 b
       ∧ NoDup removed ∧ Z.of_nat (length removed) = difficulty
       ∧ (∀ p, p ∈ removed → in_grid p ∧ at_pos base_board p ≠ Some 0)
       ∧ (∀ p, in_grid p →
            at_pos b p = if decide (p ∈ removed) then Some 0
                         else at_pos base_board p)
       ∧ Z.of_nat (count_empty b) = difficulty + 1)
  ∧ ((∃ r, generate_sudoku_puzzle draws difficulty = Some r)
     ↔ difficulty ≤ Z.of_nat (size (filled_cells_drawn draws)))
  ∧ ∃ b, generate_sudoku_puzzle positions difficulty = Some (Ok b).
Proof.
  intros Hd Hdraws.
  split; [|split; [|by apply generate_sudoku_puzzle_finishes]].
  2:{ unfold generate_sudoku_puzzle.
      rewrite (remove_cells_finishes draws difficulty base_board [] Hdraws
                 removal_state_base).
      rewrite list_to_set_nil, difference_empty_L. simpl. done. }
  intros r Hrun.
  apply (remove_cells_spec draws difficulty base_board []) in Hrun
    as (b & removed & -> & Hstate & Hlen);
    [|done|apply removal_state_base].
  simpl in Hlen.
  pose proof (removal_state_empty_cells _ _ Hstate) as Hperm.
  apply Permutation_length in Hperm. rewrite length_app in Hperm.
  simpl in Hperm.
  destruct Hstate as (Hshape & Hnodup & Hfilled & Hcells).
  exists b, removed. unfold count_empty. split_and!; try done; lia.
Qed.

Lemma generate_sudoku_puzzle_removes_d_filled_cells_witness :
  (∀ r, generate_sudoku_puzzle [(0, 0); (6, 7); (0, 0); (3, 3)] 2 = Some r →
     ∃ b removed,
       r = Ok b ∧ is_9x9 b
       ∧ NoDup removed ∧ Z.of_nat (length removed) = 2
       ∧ (∀ p, p ∈ removed → in_grid p ∧ at_pos base_board p ≠ Some 0)
       ∧ (∀ p, in_grid p →
            at_pos b p = if decide (p ∈ removed) then Some 0
                         else at_pos base_board p)
       ∧ Z.of_nat (count_empty b) = 2 + 1)
  ∧ ((∃ r, generate_sudoku_puzzle [(0, 0); (6, 7); (0, 0); (3, 3)] 2 = Some r)
     ↔ 2 ≤ Z.of_nat (size (filled_cells_drawn
                             [(0, 0); (6, 7); (0, 0); (3, 3)])))
  ∧ ∃ b, generate_sudoku_puzzle positions 2 = Some (Ok b).
Proof.
  apply (generate_sudoku_puzzle_removes_d_filled_cells
           2 [(0, 0); (6, 7); (0, 0); (3, 3)]); [lia|].
  refine (bool_decide_unpack _ _). vm_compute. exact I.
Defined.

(** *** The scans, exactly *)

(** X7: on a 9×9 board [find_empty] returns the first empty cell in
    row-major order (every cell of an earlier row, and every earlier cell of
    its row, is filled), and [None] exactly when no cell is empty. *)
Theorem find_empty_first_in_row_major_order (b : board) :
  is_9x9 b →
  (∃ r c, find_empty b = Ok (Some (r, c))
          ∧ in_grid (r, c) ∧ at_pos b (r, c) = Some 0
          ∧ ∀ q, in_grid q → q.1 < r ∨ (q.1 = r ∧ q.2 < c) →
                 at_pos b q ≠ Some 0)
  ∨ (find_empty b = Ok None ∧ ∀ q, in_grid q → at_pos b q ≠ Some 0).
Proof.
  intros Hshape.
  destruct (find_empty_total b Hshape) as [[[r c]|] Hfind]; [left|right].
  - exists r, c. split; [done|].
    pose proof (find_empty_Some _ _ _ Hfind) as (Hr & Hc & Hcell).
    split_and!; [done..|].
    intros q [Hq1 Hq2] Hbefore.
    apply for_first_Some_first in Hfind
      as (pre & r' & post & Hrows & Hrow & Hpre).
    apply for_first_Some_first in Hrow
      as (pre' & c' & post' & Hcols & Hcol & Hpre').
    assert (0 ≤ r' < 9) as Hr'.
    { apply elem_of_range. rewrite Hrows, elem_of_app. right. left. }
    assert (0 ≤ c' < 9) as Hc'.
    { apply elem_of_range. rewrite Hcols, elem_of_app. right. left. }
    rewrite getitem2_nonneg in Hcol by lia.
    destruct (lookup2 b r' c') as [v|]; rewrite ?bind_Ok, ?bind_Raise in Hcol;
      [|done].
    case_bool_decide; [|done]. simplify_eq.
    destruct (is_9x9_lookup2 b q.1 q.2 Hshape Hq1 Hq2) as [w Hw].
    unfold at_pos. rewrite Hw. intros [= ->].
    destruct Hbefore as [Hlt|[Heq Hlt]].
    + assert (q.1 ∈ pre) as Hin by (eapply range_split; [done|lia]).
      apply Hpre in Hin.
      pose proof (for_first_None _ _ Hin q.2
                    (proj2 (elem_of_range 0 9 q.2) Hq2)) as Hscan.
      cbv beta in Hscan.
      rewrite getitem2_nonneg, Hw, bind_Ok in Hscan by lia.
      by rewrite bool_decide_true in Hscan.
    + assert (q.2 ∈ pre') as Hin by (eapply range_split; [done|lia]).
      apply Hpre' in Hin. rewrite <- Heq in Hin.
      rewrite getitem2_nonneg, Hw, bind_Ok in Hin by lia.
      by rewrite bool_decide_true in Hin.
  - split; [done|]. intros q [Hq1 Hq2].
    destruct (find_empty_None b q.1 q.2 Hfind Hq1 Hq2) as (v & Hv & Hne).
    unfold at_pos. congruence.
Qed.

Lemma find_empty_first_in_row_major_order_witness :
  (∃ r c, find_empty dead_end_puzzle = Ok (Some (r, c))
          ∧ in_grid (r, c) ∧ at_pos dead_end_puzzle (r, c) = Some 0
          ∧ ∀ q, in_grid q → q.1 < r ∨ (q.1 = r ∧ q.2 < c) →
                 at_pos dead_end_puzzle q ≠ Some 0)
  ∨ (find_empty dead_end_puzzle = Ok None
     ∧ ∀ q, in_grid q → at_pos dead_end_puzzle q ≠ Some 0).
Proof.
  apply (find_empty_first_in_row_major_order dead_end_puzzle).
  refine (bool_decide_unpack _ _). vm_compute. exact I.
Defined.

(** A move the scans reject clashes with another cell of its row, column
    or box. *)
Lemma is_valid_sudoku_move_false b num pos :
  in_grid pos → is_valid_sudoku_move b num pos = Ok false →
  ∃ q, in_grid q ∧ q ≠ pos ∧ same_unit q pos ∧ at_pos b q = Some num.
Proof.
  intros [Hpr Hpc] Hrun. unfold is_valid_sudoku_move in Hrun.
  match type of Hrun with
  | (?m ≫= _) = _ => destruct m as [[[]|]|] eqn:Hrow
  end; rewrite ?bind_Ok, ?bind_Raise in Hrun; [| |done].
  { apply for_first_Some in Hrow as (col & Hcol & Hbody).
    apply elem_of_range in Hcol.
    rewrite getitem2_nonneg in Hbody by lia.
    destruct (lookup2 b pos.1 col) as [v|] eqn:Hv;
      rewrite ?bind_Ok, ?bind_Raise in Hbody; [|done].
    case_bool_decide as Hhit; [|done]. destruct Hhit as [-> Hne].
    exists (pos.1, col). split_and!.
    - split; simpl; lia.
    - intros Heq. apply Hne. by rewrite <- Heq.
    - by left.
    - done. }
  match type of Hrun with
  | (?m ≫= _) = _ => destruct m as [[[]|]|] eqn:Hcol
  end; rewrite ?bind_Ok, ?bind_Raise in Hrun; [| |done].
  { apply for_first_Some in Hcol as (row & Hrow' & Hbody).
    apply elem_of_range in Hrow'.
    rewrite getitem2_nonneg in Hbody by lia.
    destruct (lookup2 b row pos.2) as [v|] eqn:Hv;
      rewrite ?bind_Ok, ?bind_Raise in Hbody; [|done].
    case_bool_decide as Hhit; [|done]. destruct Hhit as [-> Hne].
    exists (row, pos.2). split_and!.
    - split; simpl; lia.
    - intros Heq. apply Hne. by rewrite <- Heq.
    - by right; left.
    - done. }
  cbv zeta in Hrun.
  match type of Hrun with
  | (?m ≫= _) = _ => destruct m as [[[]|]|] eqn:Hbox
  end; rewrite ?bind_Ok, ?bind_Raise in Hrun; [|done..].
  apply for_first_Some in Hbox as (r & Hr & Hbox).
  apply for_first_Some in Hbox as (c & Hc & Hbody).
  apply elem_of_range in Hr, Hc.
  assert (0 ≤ r < 9 ∧ r `div` 3 = pos.1 `div` 3) as [Hr9 Hrd]
    by (clear -Hr Hpr; Z.to_euclidean_division_equations; lia).
  assert (0 ≤ c < 9 ∧ c `div` 3 = pos.2 `div` 3) as [Hc9 Hcd]
    by (clear -Hc Hpc; Z.to_euclidean_division_equations; lia).
  rewrite getitem2_nonneg in Hbody by lia.
  destruct (lookup2 b r c) as [v|] eqn:Hv;
    rewrite ?bind_Ok, ?bind_Raise in Hbody; [|done].
  case_bool_decide as Hhit; [|done]. destruct Hhit as [-> Hne].
  exists (r, c). split_and!; [split; simpl; lia|done| |done].
  by right; right.
Qed.

(** X8: on a 9×9 board and for a position of the grid,
    [is_valid_sudoku_move] returns [True] exactly when no other cell of the
    position's row, column or 3×3 box holds [num]; it looks neither at the
    cell itself nor at whether [num] is a digit. *)
Theorem is_valid_sudoku_move_iff_no_clash (b : board) (num : Z) (pos : Z * Z) :
  is_9x9 b → in_grid pos →
  ∃ ok, is_valid_sudoku_move b num pos = Ok ok
      ∧ (ok = true ↔
         ∀ q, in_grid q → q ≠ pos → same_unit q pos → at_pos b q ≠ Some num).
Proof.
  intros Hshape Hpos.
  destruct (is_valid_sudoku_move_total b num pos Hshape Hpos) as [ok Hrun].
  exists ok. split; [done|]. split.
  - intros ->. by apply is_valid_sudoku_move_true.
  - intros Hfree. destruct ok; [done|]. exfalso.
    destruct (is_valid_sudoku_move_false b num pos Hpos Hrun)
      as (q & Hq & Hne & Hsame & Hclash).
    by apply (Hfree q).
Qed.

Lemma is_valid_sudoku_move_iff_no_clash_witness :
  ∃ ok, is_valid_sudoku_move dead_end_puzzle 9 (0, 8) = Ok ok
      ∧ (ok = true ↔
         ∀ q, in_grid q → q ≠ (0, 8) → same_unit q (0, 8) →
              at_pos dead_end_puzzle q ≠ Some 9).
Proof.
  apply (is_valid_sudoku_move_iff_no_clash dead_end_puzzle 9 (0, 8)).
  - refine (bool_decide_unpack _ _). vm_compute. exact I.
  - unfold in_grid. simpl. lia.
Defined.

(** *** The search keeps the givens and finds a solution if there is one *)

(** [b'] holds what [b] holds wherever [b] is not empty. *)
Definition keeps (b b' : board) : Prop :=
  ∀ p, 0 ≤ p.1 → 0 ≤ p.2 → at_pos b p ≠ Some 0 → at_pos b' p = at_pos b p.

Lemma keeps_refl b : keeps b b.
Proof. by intros p _ _ _. Qed.

Lemma keeps_insert2 b row col i b' :
  0 ≤ row → 0 ≤ col → lookup2 b row col = Some 0 →
  keeps (insert2 b row col i) b' → keeps b b'.
Proof.
  intros Hrow Hcol Hcell Hkeeps p Hp1 Hp2 Hp.
  assert (at_pos (insert2 b row col i) p = at_pos b p) as Heq.
  { unfold at_pos. rewrite lookup2_insert2 by eauto.
    rewrite decide_False; [done|]. intros [Hr Hc].
    apply Hp. unfold at_pos. by rewrite Hr, Hc. }
  rewrite <- Heq. apply Hkeeps; [done..|]. by rewrite Heq.
Qed.

Lemma try_digits_true_keeps rec row col digits : ∀ b b',
  (∀ b1 b1', rec b1 = Ok (false, b1') → b1' = b1) →
  (∀ b1 b1', rec b1 = Ok (true, b1') → keeps b1 b1') →
  0 ≤ row → 0 ≤ col → lookup2 b row col = Some 0 →
  try_digits rec row col digits b = Ok (true, b') → keeps b b'.
Proof.
  intros b b' Hfalse Htrue Hrow Hcol. revert b.
  induction digits as [|i digits IH]; simpl; intros b Hcell Hrun; [done|].
  destruct (is_valid_sudoku_move b i (row, col)) as [[]|];
    rewrite ?bind_Ok, ?bind_Raise in Hrun; [|by auto|done].
  rewrite setitem2_nonneg, Hcell, bind_Ok in Hrun by done.
  destruct (rec (insert2 b row col i)) as [[[] b1]|] eqn:Hb1;
    rewrite ?bind_Ok, ?bind_Raise in Hrun; simpl in Hrun; [| |done].
  - simplify_eq. apply (keeps_insert2 b row col i); try done.
    by apply Htrue.
  - apply Hfalse in Hb1 as ->.
    assert (is_Some (lookup2 (insert2 b row col i) row col)) as [w Hw].
    { rewrite lookup2_insert2, decide_True by eauto. eauto. }
    rewrite setitem2_nonneg, Hw, insert2_undo, bind_Ok in Hrun by done.
    by apply IH.
Qed.

Lemma solve_sudoku_dfs_true_keeps fuel : ∀ b b',
  solve_sudoku_dfs fuel b = Ok (true, b') → keeps b b'.
Proof.
  induction fuel as [|fuel IH]; intros b b' Hrun; [done|].
  rewrite solve_sudoku_dfs_S in Hrun.
  destruct (find_empty b) as [[[row col]|]|] eqn:Hfind;
    rewrite ?bind_Ok, ?bind_Raise in Hrun; [| |done].
  - apply find_empty_Some in Hfind as (Hrow & Hcol & Hcell).
    eapply try_digits_true_keeps; [| | | | |exact Hrun]; eauto; try lia.
    apply solve_sudoku_dfs_false_restores.
  - simplify_eq. apply keeps_refl.
Qed.

(** X9: when [solve_sudoku_dfs] returns [True], every cell that was filled
    on the board it was given holds the same digit on the board it leaves:
    the search only writes into cells that were empty. *)
Theorem solve_sudoku_dfs_success_keeps_givens (fuel : nat) (b b' : board) :
  solve_sudoku_dfs fuel b = Ok (true, b') →
  ∀ p, 0 ≤ p.1 → 0 ≤ p.2 → at_pos b p ≠ Some 0 → at_pos b' p = at_pos b p.
Proof. apply solve_sudoku_dfs_true_keeps. Qed.

Lemma solve_sudoku_dfs_success_keeps_givens_witness :
  solve_sudoku_dfs 82 sample_puzzle = Ok (true, sample_solution)
  ∧ ∀ p, 0 ≤ p.1 → 0 ≤ p.2 → at_pos sample_puzzle p ≠ Some 0 →
         at_pos sample_solution p = at_pos sample_puzzle p.
Proof.
  assert (solve_sudoku_dfs 82 sample_puzzle = Ok (true, sample_solution))
    as Hrun by (vm_compute; reflexivity).
  split; [exact Hrun|].
  exact (solve_sudoku_dfs_success_keeps_givens
           82 sample_puzzle sample_solution Hrun).
Defined.

(** [s] agrees with [b] on the filled cells of [b]. *)
Definition extends (b s : board) : Prop :=
  ∀ p, in_grid p → at_pos b p ≠ Some 0 → at_pos s p = at_pos b p.

(** Any two positions that share a unit lie in one of the 27 units. *)
Lemma units_cover :
  Forall (λ p, Forall (λ q,
    same_unit p q → Exists (λ u, p ∈ u ∧ q ∈ u) units) positions) positions.
Proof. refine (bool_decide_unpack _ _). vm_compute. exact I. Qed.

Lemma NoDup_fmap_inj_on {A B} (f : A → B) (l : list A) x y :
  NoDup (f <$> l) → x ∈ l → y ∈ l → f x = f y → x = y.
Proof.
  induction l as [|a l IH]; simpl; intros Hnodup Hx Hy Heq.
  { by apply elem_of_nil in Hx. }
  apply NoDup_cons in Hnodup as [Ha Hnodup].
  apply elem_of_cons in Hx as [->|Hx], Hy as [->|Hy]; try done.
  - exfalso. apply Ha. rewrite Heq. by apply list_elem_of_fmap_2.
  - exfalso. apply Ha. rewrite <- Heq. by apply list_elem_of_fmap_2.
  - by apply IH.
Qed.

Lemma solved_digit s p :
  solved s → in_grid p → ∃ v, at_pos s p = Some v ∧ 1 ≤ v ≤ 9.
Proof.
  intros (Hshape & Hdigits & _) Hp.
  destruct (is_9x9_at_pos s p Hshape Hp) as [v Hv]. exists v. split; [done|].
  unfold at_pos, lookup2 in Hv.
  destruct (s !! Z.to_nat p.1) as [row|] eqn:Hrow; simpl in Hv; [|done].
  rewrite Forall_lookup in Hdigits. specialize (Hdigits _ _ Hrow).
  rewrite Forall_lookup in Hdigits. by apply (Hdigits _ _ Hv).
Qed.

Lemma solved_no_clash s p q :
  solved s → in_grid p → in_grid q → p ≠ q → same_unit p q →
  at_pos s p ≠ at_pos s q.
Proof.
  intros (Hshape & Hdigits & Hunits) Hp Hq Hne Hsame Heq.
  pose proof units_cover as Hcover. rewrite Forall_forall in Hcover.
  apply elem_of_positions in Hp, Hq.
  specialize (Hcover p Hp). rewrite Forall_forall in Hcover.
  specialize (Hcover q Hq Hsame).
  apply Exists_exists in Hcover as (u & Hu & Hpu & Hqu).
  rewrite Forall_forall in Hunits. specialize (Hunits u Hu).
  apply Hne. apply (NoDup_fmap_inj_on (at_pos s) u); try done.
  rewrite Hunits. apply NoDup_fmap_2; [apply _|]. apply NoDup_seqZ.
Qed.

Lemma extends_inv b s : is_9x9 b → solved s → extends b s → inv b.
Proof.
  intros Hshape Hsolved Hext. split_and!; [done|..].
  - intros p Hp. destruct (is_9x9_at_pos b p Hshape Hp) as [v Hv].
    exists v. split; [done|].
    destruct (decide (v = 0)) as [->|Hv0]; [lia|].
    destruct (solved_digit s p Hsolved Hp) as (w & Hw & Hrange).
    rewrite Hext in Hw by (done || congruence). simplify_eq. lia.
  - intros p q v Hp Hq Hne Hsame Hv Hpv Hqv.
    apply (solved_no_clash s p q); try done.
    rewrite !Hext by (done || congruence). congruence.
Qed.

Lemma try_digits_complete rec row col s digits : ∀ b,
  (∀ b1 b1', rec b1 = Ok (false, b1') → b1' = b1) →
  (∀ b1, is_9x9 b1 → (count_empty b1 < count_empty b)%nat →
         ∃ r, rec b1 = Ok r) →
  (∀ b1, is_9x9 b1 → (count_empty b1 < count_empty b)%nat → extends b1 s →
         ∃ b1', rec b1 = Ok (true, b1')) →
  is_9x9 b → in_grid (row, col) → at_pos b (row, col) = Some 0 →
  extends b s → solved s →
  (∃ i, i ∈ digits ∧ at_pos s (row, col) = Some i) →
  Forall (λ i, i ≠ 0) digits →
  ∃ b', try_digits rec row col digits b = Ok (true, b').
Proof.
  intros b Hfalse Htotal Hcomplete Hshape Hpos Hcell Hext Hsolved.
  induction digits as [|i digits IH]; simpl; intros (i' & Hi' & Hs) Hdigits.
  { by apply elem_of_nil in Hi'. }
  apply Forall_cons in Hdigits as [Hi Hdigits].
  pose proof Hpos as [Hr Hc]. simpl in Hr, Hc.
  pose proof Hcell as Hcell'. unfold at_pos in Hcell'. simpl in Hcell'.
  destruct (is_valid_sudoku_move_total b i (row, col)) as [valid Hvalid];
    try done.
  rewrite Hvalid, bind_Ok.
  assert (i = i' → valid = true) as Hmust.
  { intros ->. destruct valid; [done|]. exfalso.
    destruct (is_valid_sudoku_move_false b i' (row, col) Hpos Hvalid)
      as (q & Hq & Hne & Hsame & Hclash).
    apply (solved_no_clash s q (row, col)); try done.
    rewrite Hext by (done || congruence). congruence. }
  destruct valid.
  - rewrite setitem2_nonneg, Hcell', bind_Ok by lia.
    destruct (decide (i = i')) as [->|Hne].
    + destruct (Hcomplete (insert2 b row col i')) as [b1 Hb1].
      * by apply is_9x9_insert2.
      * by apply count_empty_insert2.
      * intros p Hp. rewrite at_pos_insert2 by eauto.
        case_decide as Heq; [by rewrite Heq|]. by apply Hext.
      * rewrite Hb1, bind_Ok. by eexists.
    + destruct (Htotal (insert2 b row col i)) as [[[] b1] Hb1].
      * by apply is_9x9_insert2.
      * by apply count_empty_insert2.
      * rewrite Hb1, bind_Ok. by eexists.
      * rewrite Hb1, bind_Ok. simpl. apply Hfalse in Hb1 as ->.
        assert (is_Some (lookup2 (insert2 b row col i) row col)) as [w Hw].
        { rewrite lookup2_insert2, decide_True by (eauto || lia). eauto. }
        rewrite setitem2_nonneg, Hw, insert2_undo, bind_Ok by (done || lia).
        apply IH; [|done]. exists i'. split; [|done].
        apply elem_of_cons in Hi' as [?|?]; [congruence|done].
  - apply IH; [|done]. exists i'. split; [|done].
    apply elem_of_cons in Hi' as [Heq|?]; [|done].
    symmetry in Heq. by apply Hmust in Heq.
Qed.

Lemma solve_sudoku_dfs_complete fuel s : ∀ b,
  is_9x9 b → (count_empty b < fuel)%nat → solved s → extends b s →
  ∃ b', solve_sudoku_dfs fuel b = Ok (true, b').
Proof.
  induction fuel as [|fuel IH]; intros b Hshape Hfuel Hsolved Hext; [lia|].
  rewrite solve_sudoku_dfs_S.
  destruct (find_empty_total b Hshape) as [[[row col]|] Hfind];
    rewrite Hfind, bind_Ok; [|by eexists].
  apply find_empty_Some in Hfind as (Hrow & Hcol & Hcell).
  apply (try_digits_complete _ _ _ s); try done.
  - apply solve_sudoku_dfs_false_restores.
  - intros b1 Hshape1 Hlt. apply solve_sudoku_dfs_total; [done|lia].
  - intros b1 Hshape1 Hlt Hext1. apply IH; try done. lia.
  - destruct (solved_digit s (row, col) Hsolved) as (v & Hv & Hrange);
      [done|].
    exists v. split; [|done]. apply elem_of_range. lia.
  - apply Forall_forall. intros i Hi. apply elem_of_range in Hi. lia.
Qed.

(** X10: the search is complete.  If a 9×9 board can be completed to a
    solved grid (one that agrees with it on its filled cells), then
    [solve_sudoku_dfs] returns [True], leaving a solved grid that agrees
    with the board on its filled cells; so it returns [False] only on a
    board with no solution. *)
Theorem solve_sudoku_dfs_finds_a_solution (b s : board) :
  is_9x9 b → solved s → extends b s →
  ∃ b', solve_sudoku_dfs 82 b = Ok (true, b') ∧ solved b' ∧ extends b b'.
Proof.
  intros Hshape Hsolved Hext.
  destruct (solve_sudoku_dfs_complete 82 s b) as [b' Hrun]; try done.
  { unfold count_empty, empty_cells.
    assert (length positions = 81%nat) as Hlen by (vm_compute; reflexivity).
    pose proof (length_filter (λ p, at_pos b p = Some 0) positions). lia. }
  exists b'. split_and!; [done| |].
  - destruct (solve_sudoku_dfs_true_inv 82 b b') as [Hinv Hfull]; [|done|].
    + by apply (extends_inv b s).
    + by apply solved_of_inv_full.
  - intros p [Hp1 Hp2]. apply (solve_sudoku_dfs_true_keeps 82 b b' Hrun); lia.
Qed.

Lemma solve_sudoku_dfs_finds_a_solution_witness :
  ∃ b', solve_sudoku_dfs 82 sample_puzzle = Ok (true, b')
      ∧ solved b' ∧ extends sample_puzzle b'.
Proof.
  assert (solve_sudoku_dfs 82 sample_puzzle = Ok (true, sample_solution))
    as Hrun by (vm_compute; reflexivity).
  apply (solve_sudoku_dfs_finds_a_solution sample_puzzle sample_solution).
  - refine (bool_decide_unpack _ _). vm_compute. exact I.
  - apply (solve_sudoku_dfs_true_solved 82 sample_puzzle);
      [refine (bool_decide_unpack _ _); vm_compute; exact I ..|exact Hrun].
  - intros p [Hp1 Hp2].
    apply (solve_sudoku_dfs_true_keeps 82 _ _ Hrun); lia.
Defined.

(** *** The route [generate_and_solve_sudoku] *)

(** The route, reduced to its "puzzle" and "solution" fields: the solution
    is the solved copy of the puzzle when the solver succeeds, and [None]
    (the string "No solution found") when it fails.  [None] as a whole says
    the generator is still running. *)
Definition generate_and_solve_sudoku (fuel : nat) (draws : list (Z * Z))
    (difficulty : Z) : option (result (board * option board)) :=
  match generate_sudoku_puzzle draws difficulty with
  | None => None
  | Some (Raise e) => Some (Raise e)
  | Some (Ok puzzle) =>
      Some (r ← solve_sudoku_dfs fuel puzzle ;
            Ok (puzzle, if r.1 : bool then Some r.2 else None))
  end.

Lemma try_digits_true_full rec row col digits : ∀ b b',
  (∀ b1 b1', rec b1 = Ok (true, b1') → find_empty b1' = Ok None) →
  try_digits rec row col digits b = Ok (true, b') → find_empty b' = Ok None.
Proof.
  intros b b' Hrec. revert b.
  induction digits as [|i digits IH]; simpl; intros b Hrun; [done|].
  destruct (is_valid_sudoku_move b i (row, col)) as [[]|];
    rewrite ?bind_Ok, ?bind_Raise in Hrun; [|by eauto|done].
  destruct (setitem2 b row col i) as [b1|];
    rewrite ?bind_Ok, ?bind_Raise in Hrun; [|done].
  destruct (rec b1) as [[[] b2]|] eqn:Hb1;
    rewrite ?bind_Ok, ?bind_Raise in Hrun; simpl in Hrun; [| |done].
  - simplify_eq. by eapply Hrec.
  - destruct (setitem2 b2 row col 0) as [b3|];
      rewrite ?bind_Ok, ?bind_Raise in Hrun; [|done].
    by eapply IH.
Qed.

(** A board the search leaves with [True] has no empty cell. *)
Lemma solve_sudoku_dfs_true_full fuel : ∀ b b',
  solve_sudoku_dfs fuel b = Ok (true, b') → find_empty b' = Ok None.
Proof.
  induction fuel as [|fuel IH]; intros b b' Hrun; [done|].
  rewrite solve_sudoku_dfs_S in Hrun.
  destruct (find_empty b) as [[[row col]|]|] eqn:Hfind;
    rewrite ?bind_Ok, ?bind_Raise in Hrun; [| |done].
  - by eapply try_digits_true_full.
  - by simplify_eq.
Qed.

(** The only two equal digits of the base grid that share a unit are the
    5s of its last column, in rows 4 and 7. *)
Lemma base_board_only_clash :
  Forall (λ p, Forall (λ q,
    p = q ∨ ¬ same_unit p q ∨ at_pos base_board p = Some 0
    ∨ at_pos base_board p ≠ at_pos base_board q
    ∨ (p = (4, 8) ∧ q = (7, 8)) ∨ (p = (7, 8) ∧ q = (4, 8)))
    positions) positions.
Proof. refine (bool_decide_unpack _ _). vm_compute. exact I. Qed.

Lemma base_board_cells_in_range : cells_in_range base_board.
Proof. refine (bool_decide_unpack _ _). vm_compute. exact I. Qed.

Lemma removal_state_inv removed b :
  removal_state removed b →
  at_pos b (4, 8) = Some 0 ∨ at_pos b (7, 8) = Some 0 → inv b.
Proof.
  intros (Hshape & Hnodup & Hfilled & Hcells) Hblank.
  assert (∀ p v, in_grid p → at_pos b p = Some v → v ≠ 0 →
                 at_pos base_board p = Some v) as Hbase.
  { intros p v Hp Hv Hv0. rewrite Hcells in Hv by done.
    case_decide; [congruence|done]. }
  split_and!; [done|..].
  - intros p Hp. destruct (is_9x9_at_pos b p Hshape Hp) as [v Hv].
    exists v. split; [done|].
    destruct (decide (v = 0)) as [->|Hv0]; [lia|].
    apply Hbase in Hv; [|done..].
    pose proof base_board_cells_in_range as Hrange.
    unfold at_pos, lookup2 in Hv.
    destruct (base_board !! Z.to_nat p.1) as [row|] eqn:Hrow; simpl in Hv;
      [|done].
    unfold cells_in_range in Hrange. rewrite Forall_lookup in Hrange.
    specialize (Hrange _ _ Hrow). rewrite Forall_lookup in Hrange.
    by apply (Hrange _ _ Hv).
  - intros p q v Hp Hq Hne Hsame Hv Hpv Hqv.
    pose proof (Hbase p v Hp Hpv Hv) as Hbp.
    pose proof (Hbase q v Hq Hqv Hv) as Hbq.
    pose proof base_board_only_clash as Hclash.
    rewrite Forall_forall in Hclash.
    specialize (Hclash p (proj2 (elem_of_positions p) Hp)).
    rewrite Forall_forall in Hclash.
    destruct (Hclash q (proj2 (elem_of_positions q) Hq))
      as [?|[?|[?|[?|[[-> ->]|[-> ->]]]]]]; try done; try congruence.
    + destruct Hblank; congruence.
    + destruct Hblank; congruence.
Qed.

(** X11: what the route [generate_and_solve_sudoku] reports, for every
    difficulty and every sequence of random draws.  A reported solution has
    no empty cell and agrees with the puzzle on its filled cells, and it is a
    valid Sudoku grid exactly when the puzzle blanks one of the two 5s that
    the base grid holds in its last column (rows 4 and 7); "No solution
    found" is reported only for a puzzle that no valid grid completes. *)
Theorem generate_and_solve_sudoku_report (fuel : nat) (draws : list (Z * Z))
    (difficulty : Z) (puzzle : board) (solution : option board) :
  (82 ≤ fuel)%nat → Forall in_grid draws →
  generate_and_solve_sudoku fuel draws difficulty
    = Some (Ok (puzzle, solution)) →
  match solution with
  | Some sol =>
      extends puzzle sol
      ∧ (∀ p, in_grid p → at_pos sol p ≠ Some 0)
      ∧ (solved sol ↔
         at_pos puzzle (4, 8) = Some 0 ∨ at_pos puzzle (7, 8) = Some 0)
  | None => ¬ ∃ s, solved s ∧ extends puzzle s
  end.
Proof.
  intros Hfuel Hdraws Hroute. unfold generate_and_solve_sudoku in Hroute.
  destruct (generate_sudoku_puzzle draws difficulty) as [[pz|]|] eqn:Hgen;
    [|done..].
  apply (remove_cells_spec draws difficulty base_board []) in Hgen
    as (pz' & removed & [= <-] & Hstate & _);
    [|done|apply removal_state_base].
  pose proof Hstate as (Hshape & _ & Hfilled & Hcells).
  destruct (solve_sudoku_dfs fuel pz) as [[success sol]|] eqn:Hrun;
    rewrite ?bind_Ok, ?bind_Raise in Hroute; [|done].
  simpl in Hroute. destruct success; simplify_eq.
  - assert (extends puzzle sol) as Hext.
    { intros p [Hp1 Hp2].
      apply (solve_sudoku_dfs_true_keeps fuel _ _ Hrun); lia. }
    split_and!; [done| |split].
    + intros p [Hp1 Hp2].
      destruct (find_empty_None sol p.1 p.2) as (v & Hv & Hv0);
        [by eapply solve_sudoku_dfs_true_full|done..|].
      unfold at_pos. congruence.
    + intros Hsolved.
      destruct (decide (at_pos puzzle (4, 8) = Some 0)) as [|H4]; [by left|].
      destruct (decide (at_pos puzzle (7, 8) = Some 0)) as [|H7]; [by right|].
      exfalso.
      assert (in_grid (4, 8)) as Hin4 by (unfold in_grid; simpl; lia).
      assert (in_grid (7, 8)) as Hin7 by (unfold in_grid; simpl; lia).
      apply (solved_no_clash sol (4, 8) (7, 8)); try done.
      { by right; left. }
      rewrite (Hext _ Hin4 H4), (Hext _ Hin7 H7).
      rewrite !Hcells by done.
      rewrite Hcells in H4, H7 by done.
      destruct (decide ((4, 8) ∈ removed)); [done|].
      destruct (decide ((7, 8) ∈ removed)); [done|]. done.
    + intros Hblank.
      destruct (solve_sudoku_dfs_true_inv fuel puzzle sol) as [Hinv Hfull];
        [by eapply removal_state_inv|done|].
      by apply solved_of_inv_full.
  - intros (s & Hsolved & Hext).
    destruct (solve_sudoku_dfs_complete fuel s puzzle) as [b' Hb'];
      try done; [|congruence].
    unfold count_empty, empty_cells.
    assert (length positions = 81%nat) as Hlen by (vm_compute; reflexivity).
    pose proof (length_filter (λ p, at_pos puzzle p = Some 0) positions). lia.
Qed.

(** Draws that blank the last five rows of the base grid. *)
Definition last_rows_draws : list (Z * Z) :=
  filter (λ p, 4 ≤ p.1) positions.

Lemma generate_and_solve_sudoku_report_witness :
  ∃ puzzle sol,
    generate_and_solve_sudoku 82 last_rows_draws 44
      = Some (Ok (puzzle, Some sol))
    ∧ extends puzzle sol
    ∧ (∀ p, in_grid p → at_pos sol p ≠ Some 0)
    ∧ (solved sol ↔
       at_pos puzzle (4, 8) = Some 0 ∨ at_pos puzzle (7, 8) = Some 0).
Proof.
  assert (∃ puzzle sol,
            generate_and_solve_sudoku 82 last_rows_draws 44
              = Some (Ok (puzzle, Some sol))) as (puzzle & sol & Hroute)
    by (do 2 eexists; vm_compute; reflexivity).
  exists puzzle, sol. split; [exact Hroute|].
  apply (generate_and_solve_sudoku_report 82 last_rows_draws 44
           puzzle (Some sol)); [lia| |exact Hroute].
  refine (bool_decide_unpack _ _). vm_compute. exact I.
Defined.

End Sudoku.

(** ** Maze grids

    A maze is a list of rows of cells, 1 for WALL and 0 for PATH; a position
    is a pair (row, column). *)

Abbreviation pos := (Z * Z)%type.

(** Two positions are 4-adjacent. *)
Definition adjacent (p q : pos) : Prop :=
  Z.abs (p.1 - q.1) + Z.abs (p.2 - q.2) = 1.

#[global] Instance adjacent_dec p q : Decision (adjacent p q).
Proof. unfold adjacent. apply _. Defined.

(** Every consecutive pair of the list is 4-adjacent. *)
Fixpoint chain (l : list pos) : Prop :=
  match l with
  | p :: (q :: _) as l' => adjacent p q ∧ chain l'
  | _ => True
  end.

(** A position inside the grid that holds 0, a PATH cell. *)
Definition is_path_cell (maze : list (list Z)) (p : pos) : Prop :=
  0 ≤ p.1 ∧ 0 ≤ p.2 ∧ lookup2 maze p.1 p.2 = Some 0.

#[global] Instance is_path_cell_dec maze p : Decision (is_path_cell maze p).
Proof. unfold is_path_cell. apply _. Defined.

Lemma chain_snoc l p q :
  chain (l ++ [p]) → adjacent p q → chain ((l ++ [p]) ++ [q]).
Proof.
  induction l as [|a l IH]; simpl; intros Hchain Hadj; [done|].
  destruct l as [|b l]; simpl in *; [tauto|].
  destruct Hchain as [Hab Hchain]. split; [done|]. by apply IH.
Qed.

(** ** Maze generator *)

Module MazeGenerator.

(** The list [directions] of [carve_path] before it is shuffled: the steps
    (dx, dy) up, down, left and right. *)
Definition directions : list (Z * Z) := [(0, -2); (0, 2); (-2, 0); (2, 0)].

(** One turn of the [for dx, dy in directions] loop of [carve_path cx cy];
    [carve_path] is the recursive call.  The state is the maze together with
    the number of [random.shuffle] calls made so far. *)
Definition carve_step
    (carve_path : Z → Z → list (list Z) * nat → result (list (list Z) * nat))
    (width height : Z) (cx cy : Z) (d : Z * Z) (st : list (list Z) * nat)
    : result (list (list Z) * nat) :=
  let nx := cx + d.1 in
  let ny := cy + d.2 in
  if bool_decide (0 ≤ nx < width) && bool_decide (0 ≤ ny < height) then
    v ← getitem2 st.1 ny nx ;
    if bool_decide (v = 1) then
      maze ← setitem2 st.1 (cy + d.2 `div` 2) (cx + d.1 `div` 2) 0 ;
      carve_path nx ny (maze, st.2)
    else Ok st
  else Ok st.

(** [carve_path cx cy], a closure over [maze], [width] and [height];
    [shuffles k] is the order in which the k-th call of [random.shuffle]
    leaves [directions].  [fuel] bounds the depth of the recursion. *)
Fixpoint carve_path (fuel : nat) (shuffles : nat → list (Z * Z))
    (width height : Z) (cx cy : Z) (st : list (list Z) * nat)
    : result (list (list Z) * nat) :=
  match fuel with
  | O => Raise RecursionError
  | S fuel =>
      maze ← setitem2 st.1 cy cx 0 ;
      for_each (shuffles st.2)
        (carve_step (carve_path fuel shuffles width height) width height cx cy)
        (maze, S st.2)
  end.

(** [generate_maze width height]; [start_x] and [start_y] are the outcomes
    of the two [random.randrange] calls. *)
Definition generate_maze (fuel : nat) (shuffles : nat → list (Z * Z))
    (start_x start_y : Z) (width height : Z) : result (list (list Z)) :=
  let maze := replicate (Z.to_nat height) (replicate (Z.to_nat width) 1) in
  st ← carve_path fuel shuffles width height start_x start_y (maze, O) ;
  maze ← setitem2 st.1 1 1 0 ;
  maze ← setitem2 maze (height - 2) (width - 2) 0 ;
  Ok maze.

(** A legal outcome of [random.randrange(1, stop, 2)]. *)
Definition randrange_odd (stop x : Z) : Prop := 1 ≤ x < stop ∧ x `mod` 2 = 1.

(** *** Perfect mazes *)

(** One move between two 4-adjacent PATH cells. *)
Definition step (maze : list (list Z)) (p q : pos) : Prop :=
  is_path_cell maze p ∧ is_path_cell maze q ∧ adjacent p q.

(** Every PATH cell is reachable from every other. *)
Definition connected (maze : list (list Z)) : Prop :=
  ∀ p q, is_path_cell maze p → is_path_cell maze q → rtc (step maze) p q.

(** A cycle: at least three distinct PATH cells, each adjacent to the next
    and the last adjacent to the first. *)
Definition is_cycle (maze : list (list Z)) (cyc : list pos) : Prop :=
  (3 ≤ length cyc)%nat
  ∧ NoDup cyc
  ∧ Forall (is_path_cell maze) cyc
  ∧ chain cyc
  ∧ ∃ a b, head cyc = Some a ∧ last cyc = Some b ∧ adjacent b a.

(** The PATH cells form a tree. *)
Definition perfect (maze : list (list Z)) : Prop :=
  connected maze ∧ ∀ cyc, ¬ is_cycle maze cyc.

(** *** Trees grown leaf by leaf

    [tree_order l]: the cells of [l], newest first, were added one at a time,
    each adjacent to exactly one of the cells added before it. *)
Inductive tree_order : list pos → Prop :=
| tree_root p : tree_order [p]
| tree_leaf p q l :
    tree_order l → p ∉ l → q ∈ l → adjacent p q →
    (∀ q', q' ∈ l → adjacent p q' → q' = q) →
    tree_order (p :: l).

Lemma adjacent_sym p q : adjacent p q → adjacent q p.
Proof. unfold adjacent. lia. Qed.

Lemma adjacent_irrefl p : ¬ adjacent p p.
Proof. unfold adjacent. lia. Qed.

Lemma tree_order_NoDup l : tree_order l → NoDup l.
Proof.
  induction 1 as [p|p q l Htree IH Hp Hq Hadj Huniq].
  - apply NoDup_singleton.
  - by constructor.
Qed.

Lemma tree_order_connected l :
  tree_order l →
  ∀ p q, p ∈ l → q ∈ l → rtc (λ a b, a ∈ l ∧ b ∈ l ∧ adjacent a b) p q.
Proof.
  induction 1 as [r|p0 q0 l Htree IH Hp0 Hq0 Hadj Huniq]; intros p q Hp Hq.
  - apply list_elem_of_singleton in Hp as ->.
    apply list_elem_of_singleton in Hq as ->. done.
  - assert (∀ a b, a ∈ l → b ∈ l →
              rtc (λ a b, a ∈ p0 :: l ∧ b ∈ p0 :: l ∧ adjacent a b) a b)
      as Hold.
    { intros a b Ha Hb. eapply rtc_subrel; [|by apply IH].
      intros x y (Hx & Hy & Hxy). split_and!; [by right|by right|done]. }
    apply elem_of_cons in Hp as [->|Hp], Hq as [->|Hq].
    + done.
    + apply (rtc_l _ _ q0); [|by apply Hold].
      split_and!; [left|by right|done].
    + apply (rtc_r _ q0); [by apply Hold|].
      split_and!; [by right|left|by apply adjacent_sym].
    + by apply Hold.
Qed.

Lemma chain_app_inv l1 l2 : chain (l1 ++ l2) → chain l1 ∧ chain l2.
Proof.
  induction l1 as [|a l1 IH]; simpl; [done|].
  destruct l1 as [|b l1]; simpl in *.
  - destruct l2 as [|c l2]; [done|]. intros [_ ?]. done.
  - intros [Hab Hchain]. apply IH in Hchain as [? ?]. done.
Qed.

Lemma chain_last_head l1 p l2 y :
  chain (l1 ++ p :: l2) → last l1 = Some y → adjacent y p.
Proof.
  induction l1 as [|a l1 IH]; simpl; [done|].
  destruct l1 as [|b l1]; simpl in *.
  - intros [Hadj _] [= <-]. done.
  - intros [_ Hchain] Hlast. by apply IH.
Qed.

Lemma chain_cons_head p l x : chain (p :: l) → head l = Some x → adjacent p x.
Proof. destruct l as [|q l]; simpl; [done|]. intros [Hadj _] [= <-]. done. Qed.

Lemma last_elem_of {A} (l : list A) x : last l = Some x → x ∈ l.
Proof.
  intros Hlast. apply last_Some in Hlast as [l' ->].
  apply elem_of_app. right. left.
Qed.

Lemma head_elem_of {A} (l : list A) x : head l = Some x → x ∈ l.
Proof. destruct l; [done|]. intros [= <-]. left. Qed.

(** In a cycle through [p], the cell [p] has two distinct neighbours on the
    cycle. *)
Lemma cycle_two_neighbours (cyc : list pos) p :
  (3 ≤ length cyc)%nat → NoDup cyc → chain cyc →
  (∃ a b, head cyc = Some a ∧ last cyc = Some b ∧ adjacent b a) →
  p ∈ cyc →
  ∃ x y, x ≠ y ∧ x ≠ p ∧ y ≠ p ∧ x ∈ cyc ∧ y ∈ cyc
         ∧ adjacent p x ∧ adjacent p y.
Proof.
  intros Hlen Hnodup Hchain (a & b & Hhead & Hlast & Hclose) Hp.
  apply list_elem_of_split in Hp as (l1 & l2 & ->).
  apply NoDup_app in Hnodup as (Hnd1 & Hdisj & Hnd2).
  apply NoDup_cons in Hnd2 as [Hp2 Hnd2].
  assert (p ∉ l1) as Hp1 by (intros Hin; apply (Hdisj p Hin); left).
  rewrite length_app in Hlen. simpl in Hlen.
  destruct (last l1) as [y|] eqn:Hy, (head l2) as [x|] eqn:Hx.
  - (* a cell before and a cell after *)
    exists x, y.
    pose proof (head_elem_of _ _ Hx) as Hxin.
    pose proof (last_elem_of _ _ Hy) as Hyin.
    split_and!.
    + intros ->. apply (Hdisj y Hyin). by right.
    + by intros ->.
    + by intros ->.
    + apply elem_of_app. right. by right.
    + apply elem_of_app. by left.
    + apply chain_app_inv in Hchain as [_ Hchain].
      by eapply chain_cons_head.
    + apply adjacent_sym. by eapply chain_last_head.
  - (* [p] is the last cell: its successor is the head of the cycle *)
    destruct l2; [|done]. simpl in Hlen.
    destruct l1 as [|a' l1]; [done|]. simpl in Hhead. simplify_eq.
    rewrite last_snoc in Hlast. simplify_eq.
    exists a, y. pose proof (last_elem_of _ _ Hy) as Hyin.
    split_and!.
    + intros ->. destruct l1 as [|c l1]; [simpl in Hlen; lia|].
      apply NoDup_cons in Hnd1 as [Ha _]. apply Ha.
      by apply (last_elem_of (c :: l1)).
    + intros ->. apply Hp1. left.
    + by intros ->.
    + left.
    + apply elem_of_app. by left.
    + done.
    + apply adjacent_sym. by eapply chain_last_head.
  - (* [p] is the first cell: its predecessor is the last of the cycle *)
    apply last_None in Hy as ->.
    simpl in *. simplify_eq.
    assert (last l2 = Some b) as Hb.
    { destruct l2 as [|c l2]; [done|]. done. }
    pose proof (head_elem_of _ _ Hx) as Hxin.
    pose proof (last_elem_of _ _ Hb) as Hbin.
    exists x, b. split_and!.
    + intros ->. destruct l2 as [|c l2]; [done|]. simpl in Hx. simplify_eq.
      destruct l2 as [|c' l2]; [simpl in Hlen; lia|].
      apply NoDup_cons in Hnd2 as [Hc _]. apply Hc.
      by apply (last_elem_of (c' :: l2)).
    + by intros ->.
    + by intros ->.
    + by right.
    + by right.
    + by eapply chain_cons_head.
    + by apply adjacent_sym.
  - apply last_None in Hy as ->.
    destruct l2; [|done]. simpl in Hlen. lia.
Qed.

Lemma tree_order_acyclic l :
  tree_order l →
  ∀ cyc, (3 ≤ length cyc)%nat → NoDup cyc → (∀ x, x ∈ cyc → x ∈ l) →
         chain cyc →
         (∃ a b, head cyc = Some a ∧ last cyc = Some b ∧ adjacent b a) →
         False.
Proof.
  induction 1 as [r|p0 q0 l Htree IH Hp0 Hq0 Hadj Huniq];
    intros cyc Hlen Hnodup Hsub Hchain Hclose.
  - assert (length cyc ≤ length [r])%nat as Hle.
    { apply submseteq_length, NoDup_submseteq; done. }
    simpl in Hle. lia.
  - destruct (decide (p0 ∈ cyc)) as [Hin|Hnotin].
    + destruct (cycle_two_neighbours cyc p0)
        as (x & y & Hxy & Hx & Hy & Hxin & Hyin & Hax & Hay); try done.
      assert (x ∈ l) as Hxl.
      { apply Hsub in Hxin. apply elem_of_cons in Hxin as [?|?]; done. }
      assert (y ∈ l) as Hyl.
      { apply Hsub in Hyin. apply elem_of_cons in Hyin as [?|?]; done. }
      apply Hxy. rewrite (Huniq x Hxl Hax), (Huniq y Hyl Hay). done.
    + apply (IH cyc); try done.
      intros x Hx. pose proof (Hsub x Hx) as Hxl.
      apply elem_of_cons in Hxl as [->|?]; done.
Qed.

(** *** Carving keeps the PATH cells a tree *)

Section carving.

Context (shuffles : nat → list (Z * Z)) (width height : Z).
Hypothesis shuffles_perm : ∀ k, shuffles k ≡ₚ directions.
Hypothesis width_odd : 3 ≤ width ∧ width `mod` 2 = 1.
Hypothesis height_odd : 3 ≤ height ∧ height `mod` 2 = 1.

Definition in_bounds (p : pos) : Prop :=
  0 ≤ p.1 < height ∧ 0 ≤ p.2 < width.

(** The cells with two odd coordinates, which the carving visits. *)
Definition room (p : pos) : Prop :=
  in_bounds p ∧ p.1 `mod` 2 = 1 ∧ p.2 `mod` 2 = 1.

(** The cells the carving may turn into PATH: off the border, and not at
    two even coordinates. *)
Definition carvable (p : pos) : Prop :=
  0 < p.1 < height - 1 ∧ 0 < p.2 < width - 1
  ∧ (p.1 `mod` 2 = 1 ∨ p.2 `mod` 2 = 1).

Definition shape (m : list (list Z)) : Prop :=
  length m = Z.to_nat height ∧ Forall (λ row, length row = Z.to_nat width) m.

Definition cellv (m : list (list Z)) (p : pos) : option Z :=
  lookup2 m p.1 p.2.

Definition cells : list pos := cprod (range 0 height) (range 0 width).

(** The invariant: the PATH cells are exactly those of [ord], a tree in
    the order it was carved, and a carved cell next to a room has that room
    carved too. *)
Definition inv (m : list (list Z)) (ord : list pos) : Prop :=
  shape m
  ∧ tree_order ord
  ∧ (∀ p, in_bounds p →
       cellv m p = Some (if decide (p ∈ ord) then 0 else 1))
  ∧ (∀ p, p ∈ ord → carvable p)
  ∧ (∀ p q, p ∈ ord → adjacent p q →
       q.1 `mod` 2 = 1 → q.2 `mod` 2 = 1 → q ∈ ord).

(** Every room a step of 2 away from [r] and inside the grid is in [ord]. *)
Definition closed (ord : list pos) (r : pos) : Prop :=
  ∀ d, d ∈ directions → in_bounds (r.1 + d.2, r.2 + d.1) →
       (r.1 + d.2, r.2 + d.1) ∈ ord.

Lemma elem_of_cells p : p ∈ cells ↔ in_bounds p.
Proof.
  unfold cells, in_bounds. rewrite list_elem_of_cprod, !elem_of_range. done.
Qed.

Lemma length_cells : length cells = Z.to_nat (width * height).
Proof.
  unfold cells, range. rewrite list_cprod_list_prod, length_prod, !length_seqZ.
  lia.
Qed.

Lemma carvable_in_bounds p : carvable p → in_bounds p.
Proof. unfold carvable, in_bounds. lia. Qed.

Lemma room_carvable p : room p → carvable p.
Proof.
  clear shuffles_perm. unfold room, in_bounds, carvable.
  destruct width_odd, height_odd.
  intros ([? ?] & ? & ?). split_and!; try (by left);
    Z.to_euclidean_division_equations; lia.
Qed.

Lemma shape_cellv m p : shape m → in_bounds p → is_Some (cellv m p).
Proof.
  intros [Hlen Hrows] [Hr Hc]. unfold cellv, lookup2.
  destruct (lookup_lt_is_Some_2 m (Z.to_nat p.1)) as [row Hrow]; [lia|].
  rewrite Hrow. simpl. apply lookup_lt_is_Some_2.
  rewrite Forall_lookup in Hrows. rewrite (Hrows _ _ Hrow). lia.
Qed.

Lemma cellv_in_bounds m p v :
  shape m → 0 ≤ p.1 → 0 ≤ p.2 → cellv m p = Some v → in_bounds p.
Proof.
  intros [Hlen Hrows] Hr Hc. unfold cellv, lookup2.
  destruct (m !! Z.to_nat p.1) as [row|] eqn:Hrow; simpl; [|done].
  intros Hv. rewrite Forall_lookup in Hrows.
  pose proof (Hrows _ _ Hrow) as Hw.
  apply lookup_lt_Some in Hrow, Hv. unfold in_bounds. lia.
Qed.

Lemma shape_insert2 m r c v : shape m → shape (insert2 m r c v).
Proof.
  intros [Hlen Hrows]. unfold insert2.
  destruct (m !! Z.to_nat r) as [row|] eqn:Hrow; [|done].
  split; [by rewrite length_insert|].
  apply Forall_insert; [done|]. rewrite length_insert.
  rewrite Forall_lookup in Hrows. eauto.
Qed.

Lemma cellv_insert2 m q v p :
  shape m → in_bounds q → in_bounds p →
  cellv (insert2 m q.1 q.2 v) p = if decide (p = q) then Some v else cellv m p.
Proof.
  intros Hshape Hq Hp. pose proof (shape_cellv m q Hshape Hq) as Hsome.
  destruct Hq as [? ?], Hp as [? ?]. unfold cellv in *.
  rewrite lookup2_insert2 by (done || lia).
  destruct p as [pr pc], q as [qr qc]; simpl in *.
  repeat case_decide; try done.
  - destruct H3 as [-> ->]. done.
  - simplify_eq. exfalso. auto.
Qed.

Lemma directions_cases d :
  d ∈ directions →
  (d.1 = 0 ∧ (d.2 = -2 ∨ d.2 = 2)) ∨ (d.2 = 0 ∧ (d.1 = -2 ∨ d.1 = 2)).
Proof.
  unfold directions. rewrite !elem_of_cons, elem_of_nil.
  intros [->|[->|[->|[->|[]]]]]; simpl; lia.
Qed.

Lemma step_room cur d :
  room cur → d ∈ directions → in_bounds (cur.1 + d.2, cur.2 + d.1) →
  room (cur.1 + d.2, cur.2 + d.1).
Proof.
  intros (_ & Hr & Hc) Hd Hin. apply directions_cases in Hd.
  split; [done|]. simpl. split; Z.to_euclidean_division_equations; lia.
Qed.

(** The wall cell between two rooms has no other neighbour with an odd
    coordinate. *)
Lemma door_neighbours (cur d q : pos) :
  cur.1 `mod` 2 = 1 → cur.2 `mod` 2 = 1 →
  (d.1 = 0 ∧ (d.2 = -2 ∨ d.2 = 2)) ∨ (d.2 = 0 ∧ (d.1 = -2 ∨ d.1 = 2)) →
  adjacent q (cur.1 + d.2 `div` 2, cur.2 + d.1 `div` 2) →
  q.1 `mod` 2 = 1 ∨ q.2 `mod` 2 = 1 →
  q = cur ∨ q = (cur.1 + d.2, cur.2 + d.1).
Proof.
  clear. destruct cur as [cr cc], d as [dx dy], q as [qr qc].
  unfold adjacent. simpl. intros Hr Hc Hd Hadj Hq.
  assert ((qr = cr ∧ qc = cc) ∨ (qr = cr + dy ∧ qc = cc + dx))
    as [[-> ->]|[-> ->]]
    by (Z.to_euclidean_division_equations; lia); auto.
Qed.

(** Carving the wall between a room of the tree and a room outside it, and
    then that room, grows the tree by two leaves. *)
Lemma inv_carve m ord cur d :
  let n := (cur.1 + d.2, cur.2 + d.1) in
  let door := (cur.1 + d.2 `div` 2, cur.2 + d.1 `div` 2) in
  inv m ord → cur ∈ ord → room cur → d ∈ directions →
  in_bounds n → n ∉ ord →
  in_bounds door
  ∧ inv (insert2 (insert2 m door.1 door.2 0) n.1 n.2 0) (n :: door :: ord).
Proof.
  intros n door (Hshape & Htree & Hcells & Hcarv & Hdoors) Hcur Hroom Hd
    Hn Hfresh.
  pose proof (step_room cur d Hroom Hd Hn) as Hnroom. fold n in Hnroom.
  pose proof (room_carvable n Hnroom) as Hncarv.
  pose proof (room_carvable cur Hroom) as Hccarv.
  apply directions_cases in Hd.
  destruct Hroom as (Hcb & Hc1 & Hc2), Hnroom as (_ & Hn1 & Hn2).
  assert (adjacent door cur) as Hdc.
  { clear -Hd. unfold adjacent, door. simpl.
    Z.to_euclidean_division_equations. lia. }
  assert (adjacent n door) as Hnd.
  { clear -Hd. unfold adjacent, n, door. simpl.
    Z.to_euclidean_division_equations. lia. }
  assert (carvable door) as Hdcarv.
  { clear -Hd Hncarv Hccarv Hc1 Hc2. unfold carvable, n, door in *.
    simpl in *. Z.to_euclidean_division_equations. lia. }
  assert (door ∉ ord) as Hdfresh.
  { intros Hin. apply Hfresh. apply (Hdoors door n Hin); [|done..].
    by apply adjacent_sym. }
  assert (n ≠ door) as Hne.
  { intros Heq. rewrite Heq in Hnd. by apply adjacent_irrefl in Hnd. }
  split; [by apply carvable_in_bounds|].
  split_and!.
  - by do 2 apply shape_insert2.
  - apply (tree_leaf n door).
    + apply (tree_leaf door cur); try done.
      intros q Hq Hadj. destruct (Hcarv q Hq) as (_ & _ & Hqodd).
      destruct (door_neighbours cur d q) as [->| ->];
        [done|done|done|by apply adjacent_sym|done|done|done].
    + intros Hin. apply elem_of_cons in Hin as [?|?]; done.
    + left.
    + done.
    + intros q Hq Hadj. apply elem_of_cons in Hq as [->|Hq]; [done|].
      exfalso. apply Hfresh. by apply (Hdoors q n Hq); [apply adjacent_sym|..].
  - intros p Hp.
    rewrite cellv_insert2 by (done || by apply shape_insert2).
    rewrite cellv_insert2 by (done || by apply carvable_in_bounds).
    rewrite Hcells by done.
    destruct (decide (p = n)) as [->|Hpn].
    { rewrite decide_True; [done|left]. }
    destruct (decide (p = door)) as [->|Hpd].
    { rewrite decide_True; [done|right; left]. }
    destruct (decide (p ∈ ord)) as [Hin|Hnin].
    + rewrite decide_True; [done|by do 2 right].
    + rewrite decide_False; [done|].
      rewrite !elem_of_cons. intros [?|[?|?]]; done.
  - intros p. rewrite !elem_of_cons. intros [->|[->|Hp]]; auto.
  - intros p q. rewrite !elem_of_cons. intros [->|[->|Hp]] Hadj Hq1 Hq2.
    + exfalso. clear -Hadj Hq1 Hq2 Hn1 Hn2. unfold adjacent in Hadj.
      Z.to_euclidean_division_equations. lia.
    + destruct (door_neighbours cur d q) as [->| ->];
        [done|done|done|by apply adjacent_sym|by left| |].
      * by do 2 right.
      * by left.
    + do 2 right. by apply (Hdoors p q).
Qed.

Lemma inv_length m ord : inv m ord → (length ord ≤ length cells)%nat.
Proof.
  intros (_ & Htree & _ & Hcarv & _).
  apply submseteq_length, NoDup_submseteq; [by apply tree_order_NoDup|].
  intros p Hp. by apply elem_of_cells, carvable_in_bounds, Hcarv.
Qed.

Lemma closed_mono ord ord' r :
  (∀ p, p ∈ ord → p ∈ ord') → closed ord r → closed ord' r.
Proof. intros Hsub Hclosed d Hd Hin. by apply Hsub, Hclosed. Qed.

Lemma carve_path_S fuel cx cy st :
  carve_path (S fuel) shuffles width height cx cy st
  = (maze ← setitem2 st.1 cy cx 0 ;
     for_each (shuffles st.2)
       (carve_step (carve_path fuel shuffles width height) width height cx cy)
       (maze, S st.2)).
Proof. reflexivity. Qed.

(** The state of the loop of [carve_path cx cy] once the directions [pre]
    are done: the tree has only grown, every room added since the call began
    has all its neighbouring rooms carved, and so has the current room in the
    directions of [pre]. *)
Definition loop_inv (ord0 : list pos) (cx cy : Z) (pre : list (Z * Z))
    (st : list (list Z) * nat) : Prop :=
  ∃ ord,
    inv st.1 ord
    ∧ (∀ p, p ∈ ord0 → p ∈ ord)
    ∧ (length ord0 ≤ length ord)%nat
    ∧ (∀ r, room r → r ∈ ord → r ∈ ord0 ∨ closed ord r)
    ∧ (∀ d, d ∈ pre → in_bounds (cy + d.2, cx + d.1) →
         (cy + d.2, cx + d.1) ∈ ord).

(** What a call [carve_path cx cy] on the maze [m] achieves, [ord0] being
    the tree once (cy, cx) is carved. *)
Definition carve_post (ord0 : list pos) (cx cy : Z)
    (st' : list (list Z) * nat) : Prop :=
  ∃ ord',
    inv st'.1 ord'
    ∧ (∀ p, p ∈ ord0 → p ∈ ord')
    ∧ (length ord0 ≤ length ord')%nat
    ∧ (∀ r, room r → r ∈ ord' → (r ∈ ord0 ∧ r ≠ (cy, cx)) ∨ closed ord' r).

Lemma carve_step_spec rec ord0 cx cy pre d st :
  (∀ nx ny m k ord,
     room (ny, nx) → shape m → inv (insert2 m ny nx 0) ord →
     (ny, nx) ∈ ord → (length ord0 + 2 ≤ length ord)%nat →
     ∃ st', rec nx ny (m, k) = Ok st' ∧ carve_post ord nx ny st') →
  room (cy, cx) → (cy, cx) ∈ ord0 → d ∈ directions →
  loop_inv ord0 cx cy pre st →
  ∃ st', carve_step rec width height cx cy d st = Ok st'
       ∧ loop_inv ord0 cx cy (pre ++ [d]) st'.
Proof.
  intros Hrec Hroom Hcur Hd (ord & Hinv & Hsub & Hlen & Hclosed & Hpre).
  unfold carve_step.
  destruct (bool_decide (0 ≤ cx + d.1 < width)
            && bool_decide (0 ≤ cy + d.2 < height)) eqn:Hbounds.
  2:{ exists st. split; [done|]. exists ord. split_and!; try done.
      intros d' Hd' [Hin1 Hin2]. simpl in Hin1, Hin2.
      apply elem_of_app in Hd' as [Hd'|Hd']; [by apply Hpre|].
      apply list_elem_of_singleton in Hd' as ->.
      apply andb_false_iff in Hbounds as [Hb|Hb];
        apply bool_decide_eq_false in Hb; lia. }
  apply andb_prop in Hbounds as [Hnx Hny].
  apply bool_decide_eq_true in Hnx, Hny.
  set (n := (cy + d.2, cx + d.1)).
  assert (in_bounds n) as Hn by done.
  pose proof Hinv as (Hshape & Htree & Hcells & Hcarv & Hdoors).
  pose proof (Hcells n Hn) as Hv. unfold cellv in Hv. simpl in Hv.
  rewrite getitem2_nonneg, Hv, bind_Ok by lia.
  destruct (decide (n ∈ ord)) as [Hin|Hfresh].
  { rewrite bool_decide_false by done.
    exists st. split; [done|]. exists ord. split_and!; try done.
    intros d' Hd' Hin'.
    apply elem_of_app in Hd' as [Hd'|Hd']; [by apply Hpre|].
    by apply list_elem_of_singleton in Hd' as ->. }
  rewrite bool_decide_true by done.
  destruct (inv_carve st.1 ord (cy, cx) d) as [Hdoor Hinv']; try done.
  { by apply Hsub. }
  simpl in Hdoor, Hinv'.
  destruct (shape_cellv st.1 _ Hshape Hdoor) as [w Hw].
  unfold cellv in Hw. simpl in Hw. destruct Hdoor as [Hd1 Hd2].
  simpl in Hd1, Hd2.
  rewrite setitem2_nonneg, Hw, bind_Ok by lia.
  set (door := (cy + d.2 `div` 2, cx + d.1 `div` 2)) in *.
  destruct (Hrec (cx + d.1) (cy + d.2)
              (insert2 st.1 (cy + d.2 `div` 2) (cx + d.1 `div` 2) 0)
              st.2 (n :: door :: ord))
    as (st' & Hrun & ord' & Hinv'' & Hsub' & Hlen' & Hclosed').
  { by apply (step_room (cy, cx) d). }
  { by apply shape_insert2. }
  { done. }
  { left. }
  { simpl. lia. }
  exists st'. split; [done|]. exists ord'. split_and!.
  - done.
  - intros p Hp. apply Hsub'. do 2 right. by apply Hsub.
  - simpl in Hlen'. lia.
  - intros r Hr Hin. destruct (Hclosed' r Hr Hin) as [[Hold Hrn]|Hcl]; [|by right].
    apply elem_of_cons in Hold as [?|Hold]; [done|].
    apply elem_of_cons in Hold as [->|Hold].
    { exfalso. destruct Hr as (_ & Hr1 & Hr2), Hroom as (_ & Hc1 & Hc2).
      apply directions_cases in Hd. clear -Hr1 Hr2 Hc1 Hc2 Hd.
      unfold door in *. simpl in *. Z.to_euclidean_division_equations. lia. }
    destruct (Hclosed r Hr Hold) as [?|Hcl]; [by left|right].
    eapply closed_mono; [|exact Hcl].
    intros p Hp. apply Hsub'. by do 2 right.
  - intros d' Hd' Hin'.
    apply elem_of_app in Hd' as [Hd'|Hd'].
    + apply Hsub'. do 2 right. by apply Hpre.
    + apply list_elem_of_singleton in Hd' as ->. apply Hsub'. left.
Qed.

Lemma carve_path_spec fuel : ∀ cx cy m k ord0,
  room (cy, cx) → shape m → inv (insert2 m cy cx 0) ord0 → (cy, cx) ∈ ord0 →
  Z.of_nat (length cells) - Z.of_nat (length ord0) < 2 * Z.of_nat fuel →
  ∃ st', carve_path fuel shuffles width height cx cy (m, k) = Ok st'
       ∧ carve_post ord0 cx cy st'.
Proof.
  induction fuel as [|fuel IH]; intros cx cy m k ord0 Hroom Hshape Hinv Hcur
    Hfuel.
  { apply inv_length in Hinv. lia. }
  rewrite carve_path_S. simpl fst. simpl snd.
  pose proof Hroom as ([Hcy Hcx] & _). simpl in Hcy, Hcx.
  destruct (shape_cellv m (cy, cx) Hshape) as [w Hw]; [by destruct Hroom|].
  unfold cellv in Hw. simpl in Hw.
  rewrite setitem2_nonneg, Hw, bind_Ok by lia.
  destruct (for_each_total (loop_inv ord0 cx cy) (shuffles k)
              (carve_step (carve_path fuel shuffles width height)
                 width height cx cy) (insert2 m cy cx 0, S k))
    as (st' & Hrun & ord' & Hinv' & Hsub & Hlen & Hclosed & Hdirs).
  - intros pre d st Hst Hd. apply (carve_step_spec _ ord0); try done.
    + intros nx ny m1 k1 ord Hn Hshape1 Hinv1 Hin Hlen1.
      apply IH; try done. lia.
    + by rewrite <- (shuffles_perm k).
  - exists ord0. split_and!; try done. by left.
    intros d Hd. by apply elem_of_nil in Hd.
  - exists st'. split; [done|]. exists ord'. split_and!; try done.
    intros r Hr Hin. destruct (decide (r = (cy, cx))) as [->|Hne].
    + right. intros d Hd. apply Hdirs. by rewrite (shuffles_perm k).
    + destruct (Hclosed r Hr Hin); [by left|by right].
Qed.

(** The rooms form a connected lattice: a set of rooms closed under steps
    of 2 holds all of them as soon as it holds one. *)
Lemma rooms_all_carved ord :
  (∀ r, room r → r ∈ ord → closed ord r) →
  ∀ (n : nat) r t, room r → r ∈ ord → room t →
    Z.abs (t.1 - r.1) + Z.abs (t.2 - r.2) ≤ 2 * Z.of_nat n → t ∈ ord.
Proof.
  intros Hclosed. induction n as [|n IH]; intros r t Hr Hin Ht Hdist.
  { assert (t = r) as ->; [|done].
    destruct t, r; simpl in *. f_equal; lia. }
  destruct (decide (t = r)) as [->|Hne]; [done|].
  pose proof Hr as (Hrb & Hr1 & Hr2). pose proof Ht as (Htb & Ht1 & Ht2).
  assert (∃ d, d ∈ directions
             ∧ in_bounds (r.1 + d.2, r.2 + d.1)
             ∧ Z.abs (t.1 - (r.1 + d.2)) + Z.abs (t.2 - (r.2 + d.1))
               ≤ 2 * Z.of_nat n) as (d & Hd & Hdb & Hdist').
  { destruct t as [t1 t2], r as [r1 r2]. unfold in_bounds in *. simpl in *.
    assert (t1 ≠ r1 ∨ t2 ≠ r2) as Hcase.
    { destruct (decide (t1 = r1)) as [->|]; [|by left].
      right. intros ->. done. }
    clear Hne IH Hclosed Hin Hr Ht.
    unfold directions.
    destruct (decide (t1 < r1)); [exists (0, -2)|].
    { rewrite !elem_of_cons. simpl. split_and!; [auto|..];
        Z.to_euclidean_division_equations; lia. }
    destruct (decide (r1 < t1)); [exists (0, 2)|].
    { rewrite !elem_of_cons. simpl. split_and!; [auto|..];
        Z.to_euclidean_division_equations; lia. }
    destruct (decide (t2 < r2)); [exists (-2, 0)|exists (2, 0)].
    { rewrite !elem_of_cons. simpl. split_and!; [auto|..];
        Z.to_euclidean_division_equations; lia. }
    { rewrite !elem_of_cons. simpl. split_and!; [auto 6|..];
        Z.to_euclidean_division_equations; lia. } }
  apply (IH (r.1 + d.2, r.2 + d.1) t); try done.
  - by apply step_room.
  - by apply (Hclosed r).
Qed.

Lemma inv_start start_x start_y :
  randrange_odd width start_x → randrange_odd height start_y →
  let m := replicate (Z.to_nat height) (replicate (Z.to_nat width) 1) in
  shape m ∧ room (start_y, start_x)
  ∧ inv (insert2 m start_y start_x 0) [(start_y, start_x)].
Proof.
  intros [Hx Hxodd] [Hy Hyodd] m.
  assert (shape m) as Hshape.
  { split; [apply length_replicate|].
    apply Forall_replicate, length_replicate. }
  assert (room (start_y, start_x)) as Hroom.
  { unfold room, in_bounds. simpl. lia. }
  split_and!; try done. unfold inv. split_and!.
  - by apply shape_insert2.
  - constructor.
  - intros p Hp.
    rewrite (cellv_insert2 m (start_y, start_x)) by (done || by destruct Hroom).
    assert (cellv m p = Some 1) as ->.
    { destruct Hp as [Hp1 Hp2]. unfold cellv, lookup2, m.
      rewrite lookup_replicate_2 by lia. simpl.
      by rewrite lookup_replicate_2 by lia. }
    destruct (decide (p = (start_y, start_x))) as [->|Hne].
    + rewrite decide_True; [done|left].
    + rewrite decide_False; [done|]. by intros ?%list_elem_of_singleton.
  - intros p Hp. apply list_elem_of_singleton in Hp as ->.
    by apply room_carvable.
  - intros p q Hp Hadj Hq1 Hq2. apply list_elem_of_singleton in Hp as ->.
    exfalso. unfold adjacent in Hadj. simpl in Hadj.
    clear -Hadj Hq1 Hq2 Hxodd Hyodd. Z.to_euclidean_division_equations. lia.
Qed.

(** [generate_maze] returns, and the maze it returns satisfies the
    invariant with every room carved. *)
Lemma generate_maze_spec fuel start_x start_y :
  randrange_odd width start_x → randrange_odd height start_y →
  width * height ≤ 2 * Z.of_nat fuel →
  ∃ maze ord,
    generate_maze fuel shuffles start_x start_y width height = Ok maze
    ∧ inv maze ord ∧ (∀ r, room r → r ∈ ord).
Proof.
  intros Hx Hy Hfuel. unfold generate_maze.
  destruct (inv_start start_x start_y Hx Hy) as (Hshape & Hroom & Hinv).
  destruct (carve_path_spec fuel start_x start_y
              (replicate (Z.to_nat height) (replicate (Z.to_nat width) 1))
              O [(start_y, start_x)])
    as ([m k] & -> & ord & Hinv' & Hsub & _ & Hclosed); try done.
  { left. }
  { rewrite length_cells. simpl length. destruct width_odd, height_odd. nia. }
  rewrite bind_Ok. simpl fst. simpl in Hinv'.
  assert (∀ r, room r → r ∈ ord) as Hrooms.
  { intros t Ht.
    apply (rooms_all_carved ord) with
      (n := Z.to_nat (Z.abs (t.1 - start_y) + Z.abs (t.2 - start_x)))
      (r := (start_y, start_x)); try done.
    - intros r Hr Hin. destruct (Hclosed r Hr Hin) as [[Hr0 Hne]|]; [|done].
      by apply list_elem_of_singleton in Hr0.
    - apply Hsub. left.
    - simpl. lia. }
  pose proof Hinv' as (Hshape' & _ & Hcells & _).
  assert (∀ r, room r → setitem2 m r.1 r.2 0 = Ok m) as Hset.
  { intros r Hr. pose proof Hr as ([? ?] & _).
    pose proof (Hcells r (proj1 Hr)) as Hv.
    rewrite decide_True in Hv by auto. unfold cellv in Hv.
    rewrite setitem2_nonneg, Hv by lia. by rewrite insert2_same. }
  destruct width_odd as [Hw Hwodd], height_odd as [Hh Hhodd].
  pose proof (Hset (1, 1)) as Hset1. simpl in Hset1.
  rewrite Hset1, bind_Ok.
  2:{ unfold room, in_bounds. simpl. split_and!; (done || lia). }
  pose proof (Hset (height - 2, width - 2)) as Hset2. simpl in Hset2.
  rewrite Hset2, bind_Ok.
  2:{ unfold room, in_bounds. simpl. split_and!; try lia;
        Z.to_euclidean_division_equations; lia. }
  by exists m, ord.
Qed.

Lemma inv_is_path_cell m ord p : inv m ord → is_path_cell m p ↔ p ∈ ord.
Proof.
  intros (Hshape & _ & Hcells & Hcarv & _). unfold is_path_cell. split.
  - intros (Hr & Hc & Hv).
    pose proof (cellv_in_bounds m p 0 Hshape Hr Hc Hv) as Hin.
    specialize (Hcells p Hin). unfold cellv in Hcells.
    rewrite Hv in Hcells. by case_decide.
  - intros Hp. pose proof (carvable_in_bounds p (Hcarv p Hp)) as Hin.
    specialize (Hcells p Hin). rewrite decide_True in Hcells by done.
    destruct Hin as [? ?]. split_and!; [lia..|done].
Qed.

Lemma inv_perfect m ord : inv m ord → perfect m.
Proof.
  intros Hinv. pose proof Hinv as (_ & Htree & _). split.
  - intros p q Hp Hq.
    eapply rtc_subrel; [|apply (tree_order_connected ord Htree)].
    + intros a b (Ha & Hb & Hab). unfold step.
      by rewrite !(inv_is_path_cell m ord).
    + by apply (inv_is_path_cell m ord).
    + by apply (inv_is_path_cell m ord).
  - intros cyc (Hlen & Hnodup & Hcells & Hchain & Hclose).
    eapply (tree_order_acyclic ord Htree cyc); try done.
    intros x Hx. rewrite Forall_forall in Hcells.
    by apply (inv_is_path_cell m ord), Hcells.
Qed.

Lemma inv_border m ord r c :
  inv m ord → in_bounds (r, c) →
  r = 0 ∨ r = height - 1 ∨ c = 0 ∨ c = width - 1 →
  getitem2 m r c = Ok 1.
Proof.
  intros (_ & _ & Hcells & Hcarv & _) Hin Hborder.
  specialize (Hcells _ Hin). unfold cellv in Hcells. simpl in Hcells.
  destruct Hin as [? ?]. simpl in *.
  rewrite getitem2_nonneg, Hcells by lia.
  rewrite decide_False; [done|].
  intros Hp. apply Hcarv in Hp. unfold carvable in Hp. simpl in Hp. lia.
Qed.

Lemma inv_room_path m ord r :
  inv m ord → (∀ r, room r → r ∈ ord) → room r → getitem2 m r.1 r.2 = Ok 0.
Proof.
  intros (_ & _ & Hcells & _) Hrooms Hr. pose proof Hr as ([? ?] & _).
  specialize (Hcells r (proj1 Hr)). rewrite decide_True in Hcells by auto.
  unfold cellv in Hcells. by rewrite getitem2_nonneg, Hcells by lia.
Qed.

End carving.

(** A sequence of shuffle outcomes: the listed order on even calls, its
    reverse on odd ones. *)
Definition alternating_shuffles (k : nat) : list (Z * Z) :=
  if Nat.even k then directions else reverse directions.

Lemma alternating_shuffles_perm k : alternating_shuffles k ≡ₚ directions.
Proof.
  unfold alternating_shuffles. destruct (Nat.even k); [done|].
  apply reverse_Permutation.
Qed.

(** C7: for every odd width ≥ 3 and odd height ≥ 3 and every outcome of the
    random choices (the two start coordinates and the order each shuffle
    leaves), [generate_maze width height] returns a grid in which cells
    (1,1) and (height−2, width−2) are PATH and the PATH cells form a tree:
    every PATH cell is reachable from every other and there is no cycle.
    The recursion is at most width·height/2 calls deep. *)
Theorem generate_maze_is_perfect (width height start_x start_y : Z)
    (shuffles : nat → list (Z * Z)) (fuel : nat) :
  3 ≤ width → width `mod` 2 = 1 → 3 ≤ height → height `mod` 2 = 1 →
  randrange_odd width start_x → randrange_odd height start_y →
  (∀ k, shuffles k ≡ₚ directions) →
  width * height ≤ 2 * Z.of_nat fuel →
  ∃ maze,
    generate_maze fuel shuffles start_x start_y width height = Ok maze
    ∧ getitem2 maze 1 1 = Ok 0
    ∧ getitem2 maze (height - 2) (width - 2) = Ok 0
    ∧ perfect maze.
Proof.
  intros Hw Hwodd Hh Hhodd Hx Hy Hperm Hfuel.
  destruct (generate_maze_spec shuffles width height Hperm
              (conj Hw Hwodd) (conj Hh Hhodd) fuel start_x start_y)
    as (maze & ord & Hrun & Hinv & Hrooms); try done.
  exists maze. split_and!; [done|..].
  - apply (inv_room_path width height maze ord (1, 1)); try done.
    unfold room, in_bounds. simpl. split_and!; (done || lia).
  - apply (inv_room_path width height maze ord (height - 2, width - 2));
      try done.
    unfold room, in_bounds. simpl.
    split_and!; try lia; Z.to_euclidean_division_equations; lia.
  - by apply (inv_perfect width height (conj Hw Hwodd) (conj Hh Hhodd)
                maze ord).
Qed.

Lemma generate_maze_is_perfect_witness :
  ∃ maze,
    generate_maze 18 alternating_shuffles 3 1 7 5 = Ok maze
    ∧ getitem2 maze 1 1 = Ok 0
    ∧ getitem2 maze (5 - 2) (7 - 2) = Ok 0
    ∧ perfect maze.
Proof.
  apply (generate_maze_is_perfect 7 5 3 1 alternating_shuffles 18);
    try done; try lia.
  apply alternating_shuffles_perm.
Defined.

(** C10: for every odd width ≥ 3 and odd height ≥ 3 and every outcome of
    the random choices, every border cell of the grid [generate_maze]
    returns (row 0, row height−1, column 0 and column width−1) is WALL. *)
Theorem generate_maze_border_is_wall (width height start_x start_y : Z)
    (shuffles : nat → list (Z * Z)) (fuel : nat) :
  3 ≤ width → width `mod` 2 = 1 → 3 ≤ height → height `mod` 2 = 1 →
  randrange_odd width start_x → randrange_odd height start_y →
  (∀ k, shuffles k ≡ₚ directions) →
  width * height ≤ 2 * Z.of_nat fuel →
  ∃ maze,
    generate_maze fuel shuffles start_x start_y width height = Ok maze
    ∧ ∀ r c, 0 ≤ r < height → 0 ≤ c < width →
        r = 0 ∨ r = height - 1 ∨ c = 0 ∨ c = width - 1 →
        getitem2 maze r c = Ok 1.
Proof.
  intros Hw Hwodd Hh Hhodd Hx Hy Hperm Hfuel.
  destruct (generate_maze_spec shuffles width height Hperm
              (conj Hw Hwodd) (conj Hh Hhodd) fuel start_x start_y)
    as (maze & ord & Hrun & Hinv & Hrooms); try done.
  exists maze. split; [done|]. intros r c Hr Hc Hborder.
  by apply (inv_border width height maze ord).
Qed.

Lemma generate_maze_border_is_wall_witness :
  ∃ maze,
    generate_maze 18 alternating_shuffles 5 3 7 5 = Ok maze
    ∧ ∀ r c, 0 ≤ r < 5 → 0 ≤ c < 7 →
        r = 0 ∨ r = 5 - 1 ∨ c = 0 ∨ c = 7 - 1 →
        getitem2 maze r c = Ok 1.
Proof.
  apply (generate_maze_border_is_wall 7 5 5 3 alternating_shuffles 18);
    try done; try lia.
  apply alternating_shuffles_perm.
Defined.

(** X12: for every odd width ≥ 3 and odd height ≥ 3 and every outcome of
    the random choices, the grid [generate_maze] returns has [height] rows
    of [width] cells, each 0 or 1; every cell at two odd coordinates is
    PATH and every cell at two even coordinates is WALL. *)
Theorem generate_maze_layout (width height start_x start_y : Z)
    (shuffles : nat → list (Z * Z)) (fuel : nat) :
  3 ≤ width → width `mod` 2 = 1 → 3 ≤ height → height `mod` 2 = 1 →
  randrange_odd width start_x → randrange_odd height start_y →
  (∀ k, shuffles k ≡ₚ directions) →
  width * height ≤ 2 * Z.of_nat fuel →
  ∃ maze,
    generate_maze fuel shuffles start_x start_y width height = Ok maze
    ∧ length maze = Z.to_nat height
    ∧ Forall (λ row, length row = Z.to_nat width) maze
    ∧ ∀ r c, 0 ≤ r < height → 0 ≤ c < width →
        (getitem2 maze r c = Ok 0 ∨ getitem2 maze r c = Ok 1)
        ∧ (r `mod` 2 = 1 → c `mod` 2 = 1 → getitem2 maze r c = Ok 0)
        ∧ (r `mod` 2 = 0 → c `mod` 2 = 0 → getitem2 maze r c = Ok 1).
Proof.
  intros Hw Hwodd Hh Hhodd Hx Hy Hperm Hfuel.
  destruct (generate_maze_spec shuffles width height Hperm
              (conj Hw Hwodd) (conj Hh Hhodd) fuel start_x start_y)
    as (maze & ord & Hrun & Hinv & Hrooms); try done.
  pose proof Hinv as ([Hlen Hrows] & _ & Hcells & Hcarv & _).
  exists maze. split_and!; [done..|].
  intros r c Hr Hc.
  assert (in_bounds width height (r, c)) as Hin by done.
  specialize (Hcells _ Hin). unfold cellv in Hcells. simpl in Hcells.
  rewrite getitem2_nonneg, Hcells by lia. split_and!.
  - case_decide; auto.
  - intros Hrodd Hcodd. rewrite decide_True; [done|]. by apply Hrooms.
  - intros Hreven Hceven. rewrite decide_False; [done|].
    intros Hp. apply Hcarv in Hp as (_ & _ & Hodd). simpl in Hodd. lia.
Qed.

Lemma generate_maze_layout_witness :
  ∃ maze,
    generate_maze 18 alternating_shuffles 3 3 7 5 = Ok maze
    ∧ length maze = Z.to_nat 5
    ∧ Forall (λ row, length row = Z.to_nat 7) maze
    ∧ ∀ r c, 0 ≤ r < 5 → 0 ≤ c < 7 →
        (getitem2 maze r c = Ok 0 ∨ getitem2 maze r c = Ok 1)
        ∧ (r `mod` 2 = 1 → c `mod` 2 = 1 → getitem2 maze r c = Ok 0)
        ∧ (r `mod` 2 = 0 → c `mod` 2 = 0 → getitem2 maze r c = Ok 1).
Proof.
  apply (generate_maze_layout 7 5 3 3 alternating_shuffles 18);
    try done; try lia.
  apply alternating_shuffles_perm.
Defined.

(** *** Routes in a tree *)

(** A route through the cells of [l]: each cell is adjacent to the next and
    none occurs twice. *)
Definition route (l P : list pos) : Prop :=
  chain P ∧ NoDup P ∧ ∀ x, x ∈ P → x ∈ l.

Lemma chain_reverse P : chain P → chain (reverse P).
Proof.
  induction P as [|a P IH]; [done|]. intros Hchain.
  destruct P as [|b P]; [done|]. destruct Hchain as [Hab Hchain].
  rewrite (reverse_cons _ a), reverse_cons.
  apply chain_snoc; [|by apply adjacent_sym].
  rewrite <- reverse_cons. by apply IH.
Qed.

Lemma route_reverse l P : route l P → route l (reverse P).
Proof.
  intros (Hchain & Hnodup & Hsub). split_and!.
  - by apply chain_reverse.
  - by rewrite reverse_Permutation.
  - intros x Hx. apply Hsub. by rewrite elem_of_reverse in Hx.
Qed.

(** A leaf of the tree can only be the first or the last cell of a route. *)
Lemma leaf_endpoint p0 q0 l P :
  (∀ q', q' ∈ l → adjacent p0 q' → q' = q0) →
  route (p0 :: l) P → p0 ∈ P → head P = Some p0 ∨ last P = Some p0.
Proof.
  intros Huniq (Hchain & Hnodup & Hsub) Hin.
  apply list_elem_of_split in Hin as (l1 & l2 & ->).
  pose proof Hnodup as Hnd.
  apply NoDup_app in Hnd as (Hnd1 & Hdisj & Hnd2).
  apply NoDup_cons in Hnd2 as [Hp2 Hnd2].
  destruct (last l1) as [y|] eqn:Hy; [|apply last_None in Hy as ->; by left].
  destruct (head l2) as [x|] eqn:Hx.
  2:{ destruct l2; [|done]. right. by rewrite last_snoc. }
  exfalso.
  pose proof (head_elem_of _ _ Hx) as Hxin.
  pose proof (last_elem_of _ _ Hy) as Hyin.
  assert (x ≠ p0) as Hxp by (by intros ->).
  assert (y ≠ p0) as Hyp.
  { intros ->. apply (Hdisj p0 Hyin). left. }
  assert (x ∈ l) as Hxl.
  { assert (x ∈ p0 :: l) as Hxl
      by (apply Hsub, elem_of_app; right; by right).
    apply elem_of_cons in Hxl as [?|?]; done. }
  assert (y ∈ l) as Hyl.
  { assert (y ∈ p0 :: l) as Hyl by (apply Hsub, elem_of_app; by left).
    apply elem_of_cons in Hyl as [?|?]; done. }
  assert (adjacent p0 x) as Hax.
  { apply chain_app_inv in Hchain as [_ Hchain]. by eapply chain_cons_head. }
  assert (adjacent p0 y) as Hay.
  { apply adjacent_sym. by eapply chain_last_head. }
  apply (Hdisj y Hyin). right.
  by rewrite (Huniq y Hyl Hay), <- (Huniq x Hxl Hax).
Qed.

(** Two routes that leave a leaf and end at the same cell are one, if the
    routes through the rest of the tree are unique. *)
Lemma leaf_route_head p0 q0 l P Q :
  (∀ P Q, route l P → route l Q → head P = head Q → last P = last Q →
          P = Q) →
  (∀ q', q' ∈ l → adjacent p0 q' → q' = q0) →
  route (p0 :: l) P → route (p0 :: l) Q →
  head P = Some p0 → head Q = Some p0 → last P = last Q → P = Q.
Proof.
  intros IH Huniq (HchainP & HnodupP & HsubP) (HchainQ & HnodupQ & HsubQ)
    HheadP HheadQ Hlast.
  destruct P as [|p P]; [done|]. destruct Q as [|q Q]; [done|].
  simpl in HheadP, HheadQ. simplify_eq. f_equal.
  apply NoDup_cons in HnodupP as [HpP HnodupP].
  apply NoDup_cons in HnodupQ as [HpQ HnodupQ].
  assert (∀ R, chain (p0 :: R) → NoDup R → p0 ∉ R →
               (∀ x, x ∈ p0 :: R → x ∈ p0 :: l) →
               route l R ∧ (R ≠ [] → head R = Some q0)) as Hrest.
  { intros R Hchain Hnodup Hp Hsub.
    assert (∀ x, x ∈ R → x ∈ l) as HsubR.
    { intros x Hx. assert (x ∈ p0 :: l) as Hxl by (apply Hsub; by right).
      apply elem_of_cons in Hxl as [->|?]; done. }
    split.
    - split_and!; try done.
      destruct R as [|r R]; [done|]. by destruct Hchain.
    - destruct R as [|r R]; [done|]. intros _. simpl. f_equal.
      destruct Hchain as [Hadj _]. apply Huniq; [|done].
      apply HsubR. left. }
  destruct (Hrest P HchainP HnodupP HpP HsubP) as [HrP HhP].
  destruct (Hrest Q HchainQ HnodupQ HpQ HsubQ) as [HrQ HhQ].
  destruct P as [|x P], Q as [|y Q]; [done|..].
  - exfalso. apply HpQ. apply last_elem_of. exact (eq_sym Hlast).
  - exfalso. apply HpP. apply last_elem_of. exact Hlast.
  - apply IH; [done|done| |exact Hlast]. by rewrite HhP, HhQ.
Qed.

(** In a tree there is one route at most between two cells. *)
Lemma tree_order_unique_route l :
  tree_order l →
  ∀ P Q, route l P → route l Q → head P = head Q → last P = last Q → P = Q.
Proof.
  induction 1 as [r|p0 q0 l Htree IH Hp0 Hq0 Hadj Huniq];
    intros P Q HP HQ Hhead Hlast.
  - assert (∀ R, route [r] R → R = [] ∨ R = [r]) as Hone.
    { intros R (_ & Hnodup & Hsub).
      destruct R as [|a [|b R]]; [by left| |].
      - right. f_equal. apply list_elem_of_singleton, Hsub. left.
      - exfalso. apply NoDup_cons in Hnodup as [Hab _]. apply Hab.
        assert (a = r) as -> by (apply list_elem_of_singleton, Hsub; left).
        assert (b = r) as ->
          by (apply list_elem_of_singleton, Hsub; right; left).
        left. }
    destruct (Hone P HP) as [->| ->], (Hone Q HQ) as [->| ->]; done.
  - assert (∀ R, route (p0 :: l) R → p0 ∉ R → route l R) as Hold.
    { intros R (Hchain & Hnodup & Hsub) Hp. split_and!; try done.
      intros x Hx. pose proof (Hsub x Hx) as Hxl.
      apply elem_of_cons in Hxl as [->|?]; done. }
    destruct (decide (p0 ∈ P)) as [HinP|HoutP].
    + destruct (leaf_endpoint p0 q0 l P Huniq HP HinP) as [HhP|HlP].
      * apply (leaf_route_head p0 q0 l); try done. by rewrite <- Hhead.
      * rewrite <- (reverse_involutive P), <- (reverse_involutive Q). f_equal.
        apply (leaf_route_head p0 q0 l); try done.
        -- by apply route_reverse.
        -- by apply route_reverse.
        -- by rewrite head_reverse.
        -- by rewrite head_reverse, <- Hlast.
        -- by rewrite !last_reverse.
    + destruct (decide (p0 ∈ Q)) as [HinQ|HoutQ].
      * exfalso. apply HoutP.
        destruct (leaf_endpoint p0 q0 l Q Huniq HQ HinQ) as [HhQ|HlQ].
        -- apply head_elem_of. by rewrite Hhead.
        -- apply last_elem_of. by rewrite Hlast.
      * apply IH; auto.
Qed.

(** X15: in the grid [generate_maze] returns (odd width and height ≥ 3,
    any outcome of the random choices) there is at most one way between two
    cells: two sequences of PATH cells, each cell 4-adjacent to the next and
    none repeated, that start at the same cell and end at the same cell are
    the same sequence. *)
Theorem generate_maze_routes_are_unique (width height start_x start_y : Z)
    (shuffles : nat → list (Z * Z)) (fuel : nat) :
  3 ≤ width → width `mod` 2 = 1 → 3 ≤ height → height `mod` 2 = 1 →
  randrange_odd width start_x → randrange_odd height start_y →
  (∀ k, shuffles k ≡ₚ directions) →
  width * height ≤ 2 * Z.of_nat fuel →
  ∃ maze,
    generate_maze fuel shuffles start_x start_y width height = Ok maze
    ∧ ∀ P Q,
        chain P → NoDup P → Forall (is_path_cell maze) P →
        chain Q → NoDup Q → Forall (is_path_cell maze) Q →
        head P = head Q → last P = last Q → P = Q.
Proof.
  intros Hw Hwodd Hh Hhodd Hx Hy Hperm Hfuel.
  destruct (generate_maze_spec shuffles width height Hperm
              (conj Hw Hwodd) (conj Hh Hhodd) fuel start_x start_y)
    as (maze & ord & Hrun & Hinv & Hrooms); try done.
  exists maze. split; [done|].
  intros P Q HchainP HnodupP HcellsP HchainQ HnodupQ HcellsQ Hhead Hlast.
  pose proof Hinv as (_ & Htree & _).
  apply (tree_order_unique_route ord Htree); try done.
  - split_and!; try done. intros c Hc. rewrite Forall_forall in HcellsP.
    by apply (inv_is_path_cell width height (conj Hw Hwodd) (conj Hh Hhodd)
                maze ord), HcellsP.
  - split_and!; try done. intros c Hc. rewrite Forall_forall in HcellsQ.
    by apply (inv_is_path_cell width height (conj Hw Hwodd) (conj Hh Hhodd)
                maze ord), HcellsQ.
Qed.

Lemma generate_maze_routes_are_unique_witness :
  ∃ maze,
    generate_maze 18 alternating_shuffles 1 3 7 5 = Ok maze
    ∧ ∀ P Q,
        chain P → NoDup P → Forall (is_path_cell maze) P →
        chain Q → NoDup Q → Forall (is_path_cell maze) Q →
        head P = head Q → last P = last Q → P = Q.
Proof.
  apply (generate_maze_routes_are_unique 7 5 1 3 alternating_shuffles 18);
    try done; try lia.
  apply alternating_shuffles_perm.
Defined.

End MazeGenerator.

(** ** Maze solver *)

Module MazeSolver.

Abbreviation frame := (pos * list pos)%type.

(** [stack.pop()]: the last element of the list, and the list without it. *)
Definition list_pop {A} (l : list A) : option (list A * A) :=
  match reverse l with
  | [] => None
  | x :: r => Some (reverse r, x)
  end.

(** The four neighbours in the order right, left, down, up. *)
Definition directions : list pos := [(0, 1); (0, -1); (1, 0); (-1, 0)].

(** The [for dr, dc in ...] loop: push every neighbour that is in bounds,
    not a wall and not yet visited, with the path extended by it. *)
Definition push_neighbors (maze : list (list Z)) (rows cols : Z)
    (visited : gset pos) (r c : Z) (path : list pos) (stack : list frame)
    : result (list frame) :=
  for_each directions (λ d stack,
    let nr := r + d.1 in
    let nc := c + d.2 in
    if bool_decide (0 ≤ nr < rows) && bool_decide (0 ≤ nc < cols) then
      v ← getitem2 maze nr nc ;
      if bool_decide (v = 0) && bool_decide ((nr, nc) ∉ visited) then
        Ok (stack ++ [((nr, nc), path ++ [(nr, nc)])])
      else Ok stack
    else Ok stack) stack.

(** The [while stack:] loop.  [None] says the loop is still running after
    [fuel] iterations; [Some (Ok None)] is the no-path signal. *)
Fixpoint dfs_loop (fuel : nat) (maze : list (list Z)) (rows cols : Z)
    (goal : pos) (stack : list frame) (visited : gset pos)
    : option (result (option (list pos))) :=
  match fuel with
  | O => None
  | S fuel =>
      match list_pop stack with
      | None => Some (Ok None)
      | Some (stack, ((r, c), path)) =>
          if bool_decide ((r, c) = goal) then Some (Ok (Some path))
          else if bool_decide ((r, c) ∈ visited) then
            dfs_loop fuel maze rows cols goal stack visited
          else
            let visited := {[ (r, c) ]} ∪ visited in
            match push_neighbors maze rows cols visited r c path stack with
            | Raise e => Some (Raise e)
            | Ok stack => dfs_loop fuel maze rows cols goal stack visited
            end
      end
  end.

(** [solve_maze_dfs maze start end]. *)
Definition solve_maze_dfs (fuel : nat) (maze : list (list Z))
    (start goal : pos) : option (result (option (list pos))) :=
  match getitem maze 0 with
  | Raise e => Some (Raise e)
  | Ok row0 =>
      let rows := Z.of_nat (length maze) in
      let cols := Z.of_nat (length row0) in
      dfs_loop fuel maze rows cols goal [(start, [start])] ∅
  end.

Lemma list_pop_Some {A} (l l' : list A) x :
  list_pop l = Some (l', x) → l = l' ++ [x].
Proof.
  unfold list_pop. destruct (reverse l) as [|y r] eqn:Hrev; [done|].
  intros [= <- <-]. rewrite <- (reverse_involutive l), Hrev.
  by rewrite reverse_cons.
Qed.

Lemma list_pop_snoc {A} (l : list A) x : list_pop (l ++ [x]) = Some (l, x).
Proof.
  unfold list_pop. rewrite reverse_snoc. by rewrite reverse_involutive.
Qed.

(** *** The invariant of the search *)

(** A frame of the stack: its path leads from [start] to its position along
    adjacent cells, all but the first of them PATH cells, and every position
    before the last has been visited, each once. *)
Definition frame_ok (maze : list (list Z)) (start : pos)
    (visited : gset pos) (f : frame) : Prop :=
  ∃ init,
    f.2 = init ++ [f.1]
    ∧ head f.2 = Some start
    ∧ chain f.2
    ∧ NoDup init
    ∧ (∀ q, q ∈ init → q ∈ visited)
    ∧ Forall (is_path_cell maze) (tail f.2).

Lemma frame_ok_mono maze start visited visited' f :
  visited ⊆ visited' → frame_ok maze start visited f →
  frame_ok maze start visited' f.
Proof.
  intros Hsub (init & Hpath & Hhead & Hchain & Hnodup & Hvis & Hcells).
  exists init. split_and!; try done. intros q Hq. apply Hsub. auto.
Qed.

Lemma tail_snoc_path {A} (l : list A) x y :
  tail ((l ++ [x]) ++ [y]) = tail (l ++ [x]) ++ [y].
Proof. by destruct l. Qed.

Lemma head_snoc_path {A} (l : list A) x y :
  head ((l ++ [x]) ++ [y]) = head (l ++ [x]).
Proof. by destruct l. Qed.

Lemma push_neighbors_ok maze rows cols start visited r c path stack stack' :
  (r, c) ∈ visited →
  frame_ok maze start (visited ∖ {[ (r, c) ]}) ((r, c), path) →
  (r, c) ∉ (visited ∖ {[ (r, c) ]}) →
  Forall (frame_ok maze start visited) stack →
  push_neighbors maze rows cols visited r c path stack = Ok stack' →
  Forall (frame_ok maze start visited) stack'.
Proof.
  intros Hin (init & Hpath & Hhead & Hchain & Hnodup & Hvis & Hcells) Hfresh.
  simpl in Hpath, Hhead, Hchain, Hcells.
  unfold push_neighbors.
  apply (for_each_invariant (Forall (frame_ok maze start visited))).
  intros d s s' Hd Hs Hbody.
  destruct (bool_decide (0 ≤ r + d.1 < rows) && bool_decide (0 ≤ c + d.2 < cols))
    eqn:Hbounds; [|by simplify_eq].
  apply andb_prop in Hbounds as [Hnr Hnc].
  apply bool_decide_eq_true in Hnr, Hnc.
  rewrite getitem2_nonneg in Hbody by lia.
  destruct (lookup2 maze (r + d.1) (c + d.2)) as [v|] eqn:Hv;
    rewrite ?bind_Ok, ?bind_Raise in Hbody; [|done].
  destruct (bool_decide (v = 0) && bool_decide ((r + d.1, c + d.2) ∉ visited))
    eqn:Hfree; [|by simplify_eq].
  apply andb_prop in Hfree as [Hv0 Hnew].
  apply bool_decide_eq_true in Hv0, Hnew. subst v.
  injection Hbody as <-.
  apply Forall_app. split; [done|]. apply Forall_singleton.
  exists path. simpl. split_and!.
  - done.
  - rewrite Hpath, head_snoc_path, <- Hpath. done.
  - rewrite Hpath. apply chain_snoc; [by rewrite <- Hpath|].
    unfold adjacent. simpl.
    unfold directions in Hd. rewrite !elem_of_cons, elem_of_nil in Hd.
    destruct Hd as [->|[->|[->|[->|[]]]]]; simpl; lia.
  - rewrite Hpath. apply NoDup_app. split_and!; [done| |apply NoDup_singleton].
    intros q Hq Hq'. apply list_elem_of_singleton in Hq' as ->.
    apply Hvis in Hq. done.
  - intros q. rewrite Hpath, elem_of_app, list_elem_of_singleton.
    intros [Hq| ->]; [|done]. apply Hvis in Hq.
    by apply elem_of_difference in Hq as [Hq _].
  - rewrite Hpath, tail_snoc_path, <- Hpath. apply Forall_app. split; [done|].
    apply Forall_singleton. unfold is_path_cell. simpl. split_and!; [lia..|done].
Qed.

(** What a returned path satisfies. *)
Definition path_ok (maze : list (list Z)) (start goal : pos)
    (path : list pos) : Prop :=
  head path = Some start
  ∧ last path = Some goal
  ∧ chain path
  ∧ NoDup path
  ∧ Forall (is_path_cell maze) (tail path).

Lemma dfs_loop_path fuel maze rows cols start goal : ∀ stack visited path,
  goal ∉ visited →
  Forall (frame_ok maze start visited) stack →
  dfs_loop fuel maze rows cols goal stack visited = Some (Ok (Some path)) →
  path_ok maze start goal path.
Proof.
  induction fuel as [|fuel IH]; intros stack visited path Hgoal Hstack Hrun;
    [done|].
  simpl in Hrun.
  destruct (list_pop stack) as [[stack' [[r c] p]]|] eqn:Hpop; [|done].
  apply list_pop_Some in Hpop as ->.
  apply Forall_app in Hstack as [Hstack Hframe].
  rewrite Forall_singleton in Hframe.
  case_bool_decide as Hend.
  - simplify_eq.
    destruct Hframe as (init & Hpath & Hhead & Hchain & Hnodup & Hvis & Hcells).
    simpl in *. split_and!; try done.
    + rewrite Hpath. apply last_snoc.
    + rewrite Hpath. apply NoDup_app.
      split_and!; [done| |apply NoDup_singleton].
      intros q Hq Hq'. apply list_elem_of_singleton in Hq' as ->. auto.
  - case_bool_decide as Hseen; [by eapply IH|].
    destruct (push_neighbors _ _ _ _ _ _ _ _) as [stack''|] eqn:Hpush;
      [|done].
    assert (({[(r, c)]} ∪ visited) ∖ {[(r, c)]} = visited) as Hminus
      by set_solver.
    eapply IH; [| |exact Hrun].
    + set_solver.
    + eapply push_neighbors_ok; [| | | |exact Hpush].
      * set_solver.
      * by rewrite Hminus.
      * set_solver.
      * eapply Forall_impl; [exact Hstack|]. intros f.
        apply frame_ok_mono. set_solver.
Qed.

Lemma solve_maze_dfs_path_ok fuel maze start goal path :
  solve_maze_dfs fuel maze start goal = Some (Ok (Some path)) →
  path_ok maze start goal path.
Proof.
  unfold solve_maze_dfs. destruct (getitem maze 0) as [row0|]; [|done].
  apply dfs_loop_path.
  - apply not_elem_of_empty.
  - apply Forall_singleton. exists []. simpl.
    split_and!; try done; [constructor|intros q Hq; by apply elem_of_nil in Hq].
Qed.

(** The grid has no row: [maze[0]] raises. *)
Lemma solve_maze_dfs_no_rows fuel start goal :
  solve_maze_dfs fuel [] start goal = Some (Raise IndexError).
Proof. reflexivity. Qed.

(** C3, as the claim states it, fails when the start is a wall: on the
    one-row grid [[1, 0]] the search from (0,0) to (0,1) returns the path
    [(0,0), (0,1)], whose first position is a WALL cell. *)
Lemma solve_maze_dfs_path_starts_on_wall :
  solve_maze_dfs 2 [[1; 0]] (0, 0) (0, 1) = Some (Ok (Some [(0, 0); (0, 1)]))
  ∧ ¬ Forall (is_path_cell [[1; 0]]) [(0, 0); (0, 1)].
Proof.
  split; [vm_compute; reflexivity|].
  refine (proj1 (bool_decide_eq_false _) _). vm_compute. reflexivity.
Qed.

(** C3 (amended): for every maze grid and start/end positions for which
    [solve_maze_dfs] returns a path, the path's first element is the start,
    its last element is the end, every consecutive pair of positions is
    4-adjacent, no position repeats, and every position after the first is a
    PATH cell of the grid; the start itself is never checked, so the whole
    path lies on PATH cells exactly when the start is one. *)
Theorem solve_maze_dfs_returns_simple_path (fuel : nat)
    (maze : list (list Z)) (start goal : pos) (path : list pos) :
  solve_maze_dfs fuel maze start goal = Some (Ok (Some path)) →
  head path = Some start
  ∧ last path = Some goal
  ∧ chain path
  ∧ NoDup path
  ∧ Forall (is_path_cell maze) (tail path)
  ∧ (is_path_cell maze start → Forall (is_path_cell maze) path).
Proof.
  intros Hrun.
  destruct (solve_maze_dfs_path_ok _ _ _ _ _ Hrun)
    as (Hhead & Hlast & Hchain & Hnodup & Hcells).
  split_and!; try done.
  intros Hstart. destruct path as [|p path]; [done|].
  simpl in Hhead, Hcells. simplify_eq. by constructor.
Qed.

Definition ring_maze : list (list Z) :=
  [ [1; 1; 1; 1; 1];
    [1; 0; 0; 0; 1];
    [1; 0; 1; 0; 1];
    [1; 0; 0; 0; 1];
    [1; 1; 1; 1; 1] ].

Lemma solve_maze_dfs_returns_simple_path_witness :
  let path := [(1, 1); (2, 1); (3, 1); (3, 2); (3, 3)] in
  solve_maze_dfs 10 ring_maze (1, 1) (3, 3) = Some (Ok (Some path))
  ∧ head path = Some (1, 1)
  ∧ last path = Some (3, 3)
  ∧ chain path
  ∧ NoDup path
  ∧ Forall (is_path_cell ring_maze) (tail path)
  ∧ (is_path_cell ring_maze (1, 1) → Forall (is_path_cell ring_maze) path).
Proof.
  intros path.
  assert (solve_maze_dfs 10 ring_maze (1, 1) (3, 3) = Some (Ok (Some path)))
    as Hrun by (vm_compute; reflexivity).
  split; [exact Hrun|].
  exact (solve_maze_dfs_returns_simple_path
           10 ring_maze (1, 1) (3, 3) path Hrun).
Defined.

(** C9: for every maze grid (a list with at least one row, as the function
    reads [maze[0]] first) and every position p, [solve_maze_dfs maze p p]
    returns the single-element path [p] in the first iteration of its loop,
    whether p is a PATH cell, a WALL cell or outside the grid. *)
Theorem solve_maze_dfs_start_is_goal (fuel : nat) (maze : list (list Z))
    (p : pos) :
  maze ≠ [] → solve_maze_dfs (S fuel) maze p p = Some (Ok (Some [p])).
Proof.
  intros Hmaze. destruct maze as [|row0 maze]; [done|].
  unfold solve_maze_dfs. rewrite getitem_nonneg by lia. simpl.
  destruct p as [r c]. by rewrite bool_decide_true.
Qed.

Lemma solve_maze_dfs_start_is_goal_witness :
  solve_maze_dfs 1 ring_maze (0, 7) (0, 7) = Some (Ok (Some [(0, 7)])).
Proof. exact (solve_maze_dfs_start_is_goal 0 ring_maze (0, 7) ltac:(done)). Defined.

(** *** The search terminates *)

(** The positions that can ever be on the stack: the start and the cells
    inside the grid. *)
Definition candidates (rows cols : Z) (start : pos) : gset pos :=
  {[ start ]} ∪ list_to_set (cprod (range 0 rows) (range 0 cols)).

Lemma size_list_to_set_le (l : list pos) :
  (size (list_to_set l : gset pos) ≤ length l)%nat.
Proof.
  induction l as [|a l IH].
  - by rewrite list_to_set_nil, size_empty.
  - rewrite list_to_set_cons, size_union_alt, size_singleton. simpl length.
    pose proof (subseteq_size (list_to_set l ∖ {[a]}) (list_to_set l : gset pos))
      as Hle.
    assert (list_to_set l ∖ {[a]} ⊆ (list_to_set l : gset pos)) as Hsub
      by set_solver.
    specialize (Hle Hsub). lia.
Qed.

Lemma size_candidates (rows cols : nat) start :
  (size (candidates (Z.of_nat rows) (Z.of_nat cols) start)
   ≤ rows * cols + 1)%nat.
Proof.
  unfold candidates. rewrite size_union_alt, size_singleton.
  set (grid := list_to_set _ : gset pos).
  assert (size (grid ∖ {[start]}) ≤ size grid)%nat as Hle
    by (apply subseteq_size; set_solver).
  pose proof (size_list_to_set_le
                (cprod (range 0 (Z.of_nat rows)) (range 0 (Z.of_nat cols))))
    as Hgrid.
  fold grid in Hgrid.
  rewrite list_cprod_list_prod, length_prod in Hgrid.
  unfold range in Hgrid. rewrite !length_seqZ in Hgrid.
  replace (Z.to_nat (Z.of_nat rows - 0)) with rows in Hgrid by lia.
  replace (Z.to_nat (Z.of_nat cols - 0)) with cols in Hgrid by lia.
  lia.
Qed.

Lemma push_neighbors_bound maze rows cols start visited r c path stack stack' :
  Forall (λ f : frame, f.1 ∈ candidates rows cols start) stack →
  push_neighbors maze rows cols visited r c path stack = Ok stack' →
  (length stack' ≤ length stack + 4)%nat
  ∧ Forall (λ f : frame, f.1 ∈ candidates rows cols start) stack'.
Proof.
  intros Hstack Hrun. unfold push_neighbors in Hrun.
  eapply (for_each_prefix_invariant
            (λ pre s, (length s ≤ length stack + length pre)%nat
                      ∧ Forall (λ f : frame, f.1 ∈ candidates rows cols start) s)
            directions _ [] stack stack'); [|by split; [simpl; lia|]|exact Hrun].
  intros pre d s s' [Hlen Hs] Hbody.
  rewrite length_app. simpl length.
  destruct (bool_decide (0 ≤ r + d.1 < rows) && bool_decide (0 ≤ c + d.2 < cols))
    eqn:Hbounds; [|simplify_eq; split; [lia|done]].
  apply andb_prop in Hbounds as [Hnr Hnc].
  apply bool_decide_eq_true in Hnr, Hnc.
  destruct (getitem2 maze (r + d.1) (c + d.2)) as [v|];
    rewrite ?bind_Ok, ?bind_Raise in Hbody; [|done].
  destruct (bool_decide (v = 0) && bool_decide ((r + d.1, c + d.2) ∉ visited));
    simplify_eq; [|split; [lia|done]].
  split; [rewrite length_app; simpl; lia|].
  apply Forall_app. split; [done|]. apply Forall_singleton. simpl.
  unfold candidates. apply elem_of_union_r, elem_of_list_to_set.
  apply list_elem_of_cprod. simpl. by rewrite !elem_of_range.
Qed.

Lemma dfs_loop_total fuel maze rows cols start goal : ∀ stack visited,
  visited ⊆ candidates rows cols start →
  Forall (λ f : frame, f.1 ∈ candidates rows cols start) stack →
  (4 * size (candidates rows cols start ∖ visited) + length stack < fuel)%nat →
  ∃ r, dfs_loop fuel maze rows cols goal stack visited = Some r.
Proof.
  induction fuel as [|fuel IH]; intros stack visited Hvis Hstack Hfuel; [lia|].
  simpl.
  destruct (list_pop stack) as [[stack' [[r c] path]]|] eqn:Hpop;
    [|by eexists].
  apply list_pop_Some in Hpop as ->.
  apply Forall_app in Hstack as [Hstack Hframe].
  rewrite Forall_singleton in Hframe. simpl in Hframe.
  rewrite length_app in Hfuel. simpl in Hfuel.
  case_bool_decide; [by eexists|].
  case_bool_decide as Hseen; [apply IH; [done|done|lia]|].
  destruct (push_neighbors _ _ _ _ _ _ _ _) as [stack''|] eqn:Hpush;
    [|by eexists].
  apply (push_neighbors_bound _ _ _ start) in Hpush as [Hlen Hstack''];
    [|done].
  assert (size (candidates rows cols start ∖ visited)
          = S (size (candidates rows cols start ∖ ({[(r, c)]} ∪ visited))))
    as Hsize.
  { assert (candidates rows cols start ∖ visited
            = {[(r, c)]} ∪ candidates rows cols start ∖ ({[(r, c)]} ∪ visited))
      as ->.
    { apply set_eq. intros q.
      rewrite elem_of_union, !elem_of_difference, elem_of_union,
        elem_of_singleton.
      destruct (decide (q = (r, c))) as [->|]; naive_solver. }
    rewrite size_union, size_singleton; [done|]. set_solver. }
  apply IH; [set_solver|done|lia].
Qed.

(** X2: [solve_maze_dfs] terminates on every input, with a path, the
    no-path signal or an [IndexError], within 4·(rows·cols + 1) + 2
    iterations of its loop. *)
Theorem solve_maze_dfs_terminates (fuel : nat) (maze : list (list Z))
    (start goal : pos) :
  (4 * (length maze * length (default [] (head maze)) + 1) + 1 < fuel)%nat →
  ∃ r, solve_maze_dfs fuel maze start goal = Some r.
Proof.
  intros Hfuel. unfold solve_maze_dfs.
  destruct maze as [|row0 maze]; [by eexists|].
  rewrite getitem_nonneg by lia. simpl lookup. cbv iota beta zeta.
  simpl in Hfuel.
  apply (dfs_loop_total _ _ _ _ start).
  - set_solver.
  - apply Forall_singleton. simpl. unfold candidates. set_solver.
  - rewrite difference_empty_L.
    pose proof (size_candidates (length (row0 :: maze)) (length row0) start)
      as Hsize.
    simpl length in *. lia.
Qed.

Lemma solve_maze_dfs_terminates_witness :
  ∃ r, solve_maze_dfs 110 ring_maze (1, 1) (9, 9) = Some r.
Proof.
  apply (solve_maze_dfs_terminates 110 ring_maze (1, 1) (9, 9)).
  simpl. lia.
Defined.

(** *** The search is complete *)

(** Every row is as long as the first one, whose length the search takes
    for the number of columns. *)
Definition rectangular (maze : list (list Z)) : Prop :=
  Forall (λ row, length row = length (default [] (head maze))) maze.

#[global] Instance rectangular_dec maze : Decision (rectangular maze).
Proof. unfold rectangular. apply _. Defined.

(** One move of the search: to a 4-adjacent PATH cell.  The cell moved
    from is not looked at, as the search never looks at its start. *)
Definition moves (maze : list (list Z)) (p q : pos) : Prop :=
  adjacent p q ∧ is_path_cell maze q.

Lemma list_pop_None {A} (l : list A) : list_pop l = None → l = [].
Proof.
  unfold list_pop. destruct (reverse l) eqn:Hrev; [|done].
  intros _. by rewrite <- (reverse_involutive l), Hrev.
Qed.

Lemma adjacent_direction (r c : Z) (q : pos) :
  adjacent (r, c) q → ∃ d, d ∈ directions ∧ q = (r + d.1, c + d.2).
Proof.
  destruct q as [qr qc]. unfold adjacent. simpl. intros Hadj.
  assert (qr = r ∧ qc = c + 1 ∨ qr = r ∧ qc = c - 1
          ∨ qr = r + 1 ∧ qc = c ∨ qr = r - 1 ∧ qc = c) as Hcase by lia.
  unfold directions.
  destruct Hcase as [[-> ->]|[[-> ->]|[[-> ->]|[-> ->]]]].
  - exists (0, 1). rewrite !elem_of_cons. split; [auto|simpl; f_equal; lia].
  - exists (0, -1). rewrite !elem_of_cons. split; [auto|simpl; f_equal; lia].
  - exists (1, 0). rewrite !elem_of_cons. split; [auto|simpl; f_equal; lia].
  - exists (-1, 0). rewrite !elem_of_cons. split; [auto 6|simpl; f_equal; lia].
Qed.

(** A set of positions that is closed under moves and misses the goal holds
    no position the goal can be reached from. *)
Lemma closed_unreachable (maze : list (list Z)) (visited : gset pos)
    (goal : pos) :
  (∀ p q, p ∈ visited → moves maze p q → q ∈ visited) → goal ∉ visited →
  ∀ x, x ∈ visited → ¬ rtc (moves maze) x goal.
Proof.
  intros Hclosed Hgoal x Hx Hreach.
  induction Hreach as [|x y z Hxy Hyz IH]; [done|].
  apply IH; [done|]. by eapply Hclosed.
Qed.

Section search.

Context (maze : list (list Z)) (rows cols : Z).
Hypothesis grid :
  ∀ r c, 0 ≤ r → 0 ≤ c → is_Some (lookup2 maze r c) ↔ r < rows ∧ c < cols.

Lemma is_path_cell_in_grid q :
  is_path_cell maze q → 0 ≤ q.1 < rows ∧ 0 ≤ q.2 < cols.
Proof.
  intros (Hr & Hc & Hv).
  assert (is_Some (lookup2 maze q.1 q.2)) as Hsome by (by rewrite Hv).
  apply grid in Hsome; lia.
Qed.

(** Inside the bounds the grid is read without an [IndexError]. *)
Lemma push_neighbors_total visited r c path stack :
  ∃ stack', push_neighbors maze rows cols visited r c path stack = Ok stack'.
Proof.
  unfold push_neighbors.
  match goal with
  | |- ∃ s, for_each ?xs ?body ?s0 = Ok s =>
      destruct (for_each_total (λ _ _, True) xs body s0) as (s' & Hs' & _);
        [|done|by exists s']
  end.
  intros pre d s _ _. cbv beta zeta.
  destruct (bool_decide (0 ≤ r + d.1 < rows) && bool_decide (0 ≤ c + d.2 < cols))
    eqn:Hbounds; [|by eexists].
  apply andb_prop in Hbounds as [Hnr Hnc].
  apply bool_decide_eq_true in Hnr, Hnc.
  rewrite getitem2_nonneg by lia.
  destruct (proj2 (grid (r + d.1) (c + d.2) ltac:(lia) ltac:(lia)))
    as [v Hv]; [lia|].
  rewrite Hv, bind_Ok. destruct (_ && _); by eexists.
Qed.

Lemma dfs_loop_no_raise fuel goal : ∀ stack visited e,
  dfs_loop fuel maze rows cols goal stack visited ≠ Some (Raise e).
Proof.
  induction fuel as [|fuel IH]; intros stack visited e; [done|]. simpl.
  destruct (list_pop stack) as [[stack' [[r c] path]]|]; [|done].
  case_bool_decide; [done|]. case_bool_decide; [apply IH|].
  destruct (push_neighbors_total ({[(r, c)]} ∪ visited) r c path stack')
    as [s ->].
  apply IH.
Qed.

(** The loop over the neighbours keeps what is on the stack and leaves every
    PATH neighbour of (r, c) either visited or on the stack. *)
Lemma push_neighbors_pushes visited r c path stack stack' :
  push_neighbors maze rows cols visited r c path stack = Ok stack' →
  (∀ x, x ∈ stack.*1 → x ∈ stack'.*1)
  ∧ ∀ q, moves maze (r, c) q → q ∈ visited ∨ q ∈ stack'.*1.
Proof.
  intros Hrun. unfold push_neighbors in Hrun.
  assert ((∀ x, x ∈ stack.*1 → x ∈ stack'.*1)
          ∧ ∀ d, d ∈ directions → is_path_cell maze (r + d.1, c + d.2) →
              (r + d.1, c + d.2) ∈ visited ∨ (r + d.1, c + d.2) ∈ stack'.*1)
    as [Hsub Hdirs].
  { eapply (for_each_prefix_invariant
              (λ pre (s : list frame),
                 (∀ x, x ∈ stack.*1 → x ∈ s.*1)
                 ∧ ∀ d, d ∈ pre → is_path_cell maze (r + d.1, c + d.2) →
                     (r + d.1, c + d.2) ∈ visited ∨ (r + d.1, c + d.2) ∈ s.*1)
              directions _ [] stack stack'); [| |exact Hrun].
    - intros pre d s s' [Hsub Hpre] Hbody.
      assert ((∀ x, x ∈ s.*1 → x ∈ s'.*1)
              ∧ (is_path_cell maze (r + d.1, c + d.2) →
                 (r + d.1, c + d.2) ∈ visited ∨ (r + d.1, c + d.2) ∈ s'.*1))
        as [Hss' Hd].
      { cbv beta zeta in Hbody.
        destruct (bool_decide (0 ≤ r + d.1 < rows)
                  && bool_decide (0 ≤ c + d.2 < cols)) eqn:Hbounds.
        - apply andb_prop in Hbounds as [Hnr Hnc].
          apply bool_decide_eq_true in Hnr, Hnc.
          rewrite getitem2_nonneg in Hbody by lia.
          destruct (lookup2 maze (r + d.1) (c + d.2)) as [v|] eqn:Hv;
            rewrite ?bind_Ok, ?bind_Raise in Hbody; [|done].
          destruct (bool_decide (v = 0)
                    && bool_decide ((r + d.1, c + d.2) ∉ visited)) eqn:Hfree.
          + injection Hbody as <-. rewrite fmap_app. simpl. split.
            * intros x Hx. apply elem_of_app. by left.
            * intros _. right. apply elem_of_app. right.
              by apply list_elem_of_singleton.
          + injection Hbody as <-. split; [done|].
            intros (_ & _ & Hcell). simpl in Hcell.
            rewrite Hv in Hcell. injection Hcell as ->.
            apply andb_false_iff in Hfree as [Hfree|Hfree];
              apply bool_decide_eq_false in Hfree; [done|].
            left. by apply dec_stable.
        - injection Hbody as <-. split; [done|]. intros Hcell.
          apply is_path_cell_in_grid in Hcell. simpl in Hcell.
          apply andb_false_iff in Hbounds as [Hout|Hout];
            apply bool_decide_eq_false in Hout; lia. }
      split; [auto|].
      intros d' Hd' Hcell. apply elem_of_app in Hd' as [Hd'|Hd'].
      + destruct (Hpre d' Hd' Hcell); auto.
      + apply list_elem_of_singleton in Hd' as ->. auto.
    - split; [done|]. intros d Hd. by apply elem_of_nil in Hd. }
  split; [done|]. intros q [Hadj Hcell].
  apply adjacent_direction in Hadj as (d & Hd & ->). by apply Hdirs.
Qed.

(** When the loop ends with the no-path signal, the goal can be reached
    from no position that was visited or on the stack. *)
Lemma dfs_loop_None fuel goal : ∀ stack visited,
  (∀ p q, p ∈ visited → moves maze p q → q ∈ visited ∨ q ∈ stack.*1) →
  goal ∉ visited →
  dfs_loop fuel maze rows cols goal stack visited = Some (Ok None) →
  ∀ x, x ∈ visited ∨ x ∈ stack.*1 → ¬ rtc (moves maze) x goal.
Proof.
  induction fuel as [|fuel IH]; intros stack visited Hclosed Hgoal Hrun;
    [done|].
  simpl in Hrun.
  destruct (list_pop stack) as [[stack' [[r c] path]]|] eqn:Hpop.
  - apply list_pop_Some in Hpop as ->.
    assert (∀ x, x ∈ (stack' ++ [((r, c), path)]).*1
                 ↔ x ∈ stack'.*1 ∨ x = (r, c)) as Hmem.
    { intros x. rewrite fmap_app, elem_of_app. simpl.
      by rewrite list_elem_of_singleton. }
    case_bool_decide as Hend; [done|].
    case_bool_decide as Hseen.
    + intros x Hx. apply (IH stack' visited); try done.
      * intros p q Hp Hpq. destruct (Hclosed p q Hp Hpq) as [|Hq]; [by left|].
        apply Hmem in Hq as [?| ->]; auto.
      * destruct Hx as [|Hx]; [by left|]. apply Hmem in Hx as [?| ->]; auto.
    + destruct (push_neighbors _ _ _ _ _ _ _ _) as [stack''|] eqn:Hpush;
        [|done].
      apply push_neighbors_pushes in Hpush as [Hsub Hnew].
      intros x Hx. apply (IH stack'' ({[(r, c)]} ∪ visited)); try done.
      * intros p q Hp Hpq. apply elem_of_union in Hp as [Hp|Hp].
        -- apply elem_of_singleton in Hp as ->. by apply Hnew.
        -- destruct (Hclosed p q Hp Hpq) as [|Hq];
             [left; by apply elem_of_union_r|].
           apply Hmem in Hq as [?| ->]; [right; auto|].
           left. by apply elem_of_union_l, elem_of_singleton.
      * intros Hin. apply elem_of_union in Hin as [Hin|Hin]; [|done].
        by apply elem_of_singleton in Hin.
      * destruct Hx as [|Hx]; [left; by apply elem_of_union_r|].
        apply Hmem in Hx as [?| ->]; [right; auto|].
        left. by apply elem_of_union_l, elem_of_singleton.
  - apply list_pop_None in Hpop as ->.
    intros x [Hx|Hx]; [|by apply elem_of_nil in Hx].
    apply (closed_unreachable maze visited); try done.
    intros p q Hp Hpq. destruct (Hclosed p q Hp Hpq) as [|Hq]; [done|].
    by apply elem_of_nil in Hq.
Qed.

End search.

Lemma rectangular_grid row0 maze :
  rectangular (row0 :: maze) →
  ∀ r c, 0 ≤ r → 0 ≤ c →
    is_Some (lookup2 (row0 :: maze) r c)
    ↔ r < Z.of_nat (length (row0 :: maze)) ∧ c < Z.of_nat (length row0).
Proof.
  unfold rectangular. simpl head. simpl default.
  intros Hrect r c Hr Hc. unfold lookup2.
  rewrite Forall_lookup in Hrect. split.
  - intros [v Hv].
    destruct ((row0 :: maze) !! Z.to_nat r) as [row|] eqn:Hrow;
      simpl in Hv; [|done].
    pose proof (Hrect _ _ Hrow) as Hlen.
    apply lookup_lt_Some in Hrow, Hv. lia.
  - intros [Hr' Hc'].
    destruct (lookup_lt_is_Some_2 (row0 :: maze) (Z.to_nat r)) as [row Hrow];
      [lia|].
    rewrite Hrow. simpl. apply lookup_lt_is_Some_2.
    rewrite (Hrect _ _ Hrow). lia.
Qed.

(** A returned path is a sequence of moves. *)
Lemma path_ok_walk maze start goal path :
  path_ok maze start goal path → rtc (moves maze) start goal.
Proof.
  intros (Hhead & Hlast & Hchain & _ & Hcells).
  destruct path as [|p path]; [done|].
  simpl in Hhead, Hcells. injection Hhead as ->.
  revert start Hlast Hchain.
  induction path as [|q path IH]; intros start Hlast Hchain.
  - simpl in Hlast. by injection Hlast as ->.
  - apply Forall_cons in Hcells as [Hq Hcells]. destruct Hchain as [Hadj Hchain].
    apply (rtc_l _ _ q); [done|]. by apply IH.
Qed.

(** On a rectangular grid the search ends without an error, and with a path
    exactly when the goal can be reached. *)
Lemma solve_maze_dfs_decides fuel maze start goal :
  maze ≠ [] → rectangular maze →
  (4 * (length maze * length (default [] (head maze)) + 1) + 1 < fuel)%nat →
  ∃ o, solve_maze_dfs fuel maze start goal = Some (Ok o)
       ∧ (is_Some o ↔ rtc (moves maze) start goal).
Proof.
  intros Hmaze Hrect Hfuel.
  destruct maze as [|row0 maze']; [done|]. clear Hmaze.
  pose proof (rectangular_grid row0 maze' Hrect) as Hgrid.
  simpl head in Hfuel. simpl default in Hfuel.
  assert (∀ o, solve_maze_dfs fuel (row0 :: maze') start goal = Some (Ok o) →
               (is_Some o ↔ rtc (moves (row0 :: maze')) start goal)) as Hiff.
  { intros o Hrun. split.
    - intros [path ->]. eapply path_ok_walk, solve_maze_dfs_path_ok, Hrun.
    - intros Hreach. destruct o as [path|]; [done|]. exfalso.
      unfold solve_maze_dfs in Hrun. rewrite getitem_nonneg in Hrun by lia.
      simpl lookup in Hrun. cbv iota beta zeta in Hrun.
      eapply (dfs_loop_None _ _ _ Hgrid fuel goal [(start, [start])] ∅);
        [| |exact Hrun| |exact Hreach].
      + intros p q Hp. by apply not_elem_of_empty in Hp.
      + apply not_elem_of_empty.
      + right. simpl. by apply list_elem_of_singleton. }
  assert (∃ res, solve_maze_dfs fuel (row0 :: maze') start goal = Some res)
    as [res Hres].
  { unfold solve_maze_dfs. rewrite getitem_nonneg by lia.
    simpl lookup. cbv iota beta zeta.
    apply (dfs_loop_total _ _ _ _ start).
    - apply empty_subseteq.
    - apply Forall_singleton. simpl. unfold candidates.
      by apply elem_of_union_l, elem_of_singleton.
    - rewrite difference_empty_L.
      pose proof (size_candidates (length (row0 :: maze')) (length row0) start)
        as Hsize.
      simpl length in *. lia. }
  destruct res as [o|e].
  - exists o. split; [done|]. by apply Hiff.
  - exfalso. unfold solve_maze_dfs in Hres.
    rewrite getitem_nonneg in Hres by lia.
    simpl lookup in Hres. cbv iota beta zeta in Hres.
    by apply (dfs_loop_no_raise _ _ _ Hgrid) in Hres.
Qed.

(** X13: on a rectangular grid with at least one row, [solve_maze_dfs]
    raises nothing and is complete: it returns a path exactly when the goal
    can be reached from the start by moves to 4-adjacent PATH cells, and the
    no-path signal exactly when it cannot. *)
Theorem solve_maze_dfs_finds_path_iff_reachable (fuel : nat)
    (maze : list (list Z)) (start goal : pos) :
  maze ≠ [] → rectangular maze →
  (4 * (length maze * length (default [] (head maze)) + 1) + 1 < fuel)%nat →
  ((∃ path, solve_maze_dfs fuel maze start goal = Some (Ok (Some path)))
   ↔ rtc (moves maze) start goal)
  ∧ (solve_maze_dfs fuel maze start goal = Some (Ok None)
     ↔ ¬ rtc (moves maze) start goal).
Proof.
  intros Hmaze Hrect Hfuel.
  destruct (solve_maze_dfs_decides fuel maze start goal Hmaze Hrect Hfuel)
    as (o & Hrun & Hiff).
  rewrite Hrun. destruct o as [path|].
  - assert (rtc (moves maze) start goal) as Hreach by (by apply Hiff).
    split; split; try done. by exists path.
  - assert (¬ rtc (moves maze) start goal) as Hnone.
    { intros Hreach. apply Hiff in Hreach. by destruct Hreach. }
    split; split; try done. by intros [path ?].
Qed.

Lemma solve_maze_dfs_finds_path_iff_reachable_witness :
  ((∃ path, solve_maze_dfs 110 ring_maze (1, 1) (3, 3) = Some (Ok (Some path)))
   ↔ rtc (moves ring_maze) (1, 1) (3, 3))
  ∧ (solve_maze_dfs 110 ring_maze (1, 1) (3, 3) = Some (Ok None)
     ↔ ¬ rtc (moves ring_maze) (1, 1) (3, 3)).
Proof.
  apply (solve_maze_dfs_finds_path_iff_reachable 110 ring_maze (1, 1) (3, 3)).
  - done.
  - refine (bool_decide_unpack _ _). vm_compute. exact I.
  - simpl. lia.
Defined.

End MazeSolver.

(** ** The maze route *)

Module MazeRoute.

(** [if n % 2 == 0: n += 1], applied to the requested width and height. *)
Definition make_odd (n : Z) : Z :=
  if bool_decide (n `mod` 2 = 0) then n + 1 else n.

(** [generate_and_solve_maze], from the requested width and height to the
    fields "maze" and "solution_path" of its response.  [depth] bounds the
    recursion of the generator and [steps] the iterations of the search;
    [start_x], [start_y] and [shuffles] are the outcomes of the random
    choices of [generate_maze]. *)
Definition generate_and_solve_maze (depth steps : nat)
    (shuffles : nat → list (Z * Z)) (start_x start_y : Z) (width height : Z)
    : option (result (list (list Z) * option (list pos))) :=
  let width := make_odd width in
  let height := make_odd height in
  match MazeGenerator.generate_maze depth shuffles start_x start_y
          width height with
  | Raise e => Some (Raise e)
  | Ok maze =>
      let start_pos := (1, 1) in
      let end_pos := (height - 2, width - 2) in
      match MazeSolver.solve_maze_dfs steps maze start_pos end_pos with
      | None => None
      | Some (Raise e) => Some (Raise e)
      | Some (Ok solution_path) => Some (Ok (maze, solution_path))
      end
  end.

Lemma make_odd_odd n : 2 ≤ n → 3 ≤ make_odd n ∧ make_odd n `mod` 2 = 1.
Proof.
  intros Hn. unfold make_odd. case_bool_decide;
    split; Z.to_euclidean_division_equations; lia.
Qed.

(** X14: for every requested width ≥ 2 and height ≥ 2 and every outcome of
    the random choices, the route [generate_and_solve_maze] answers with a
    maze of the sizes made odd and a solution path, never "no path": the
    path leads from (1, 1) to (height − 2, width − 2) along 4-adjacent PATH
    cells of the maze and repeats none, and it is the only such path. *)
Theorem generate_and_solve_maze_solves (depth steps : nat)
    (shuffles : nat → list (Z * Z)) (start_x start_y width height : Z) :
  2 ≤ width → 2 ≤ height →
  MazeGenerator.randrange_odd (make_odd width) start_x →
  MazeGenerator.randrange_odd (make_odd height) start_y →
  (∀ k, shuffles k ≡ₚ MazeGenerator.directions) →
  make_odd width * make_odd height ≤ 2 * Z.of_nat depth →
  4 * (make_odd height * make_odd width + 1) + 1 < Z.of_nat steps →
  ∃ maze path,
    generate_and_solve_maze depth steps shuffles start_x start_y width height
      = Some (Ok (maze, Some path))
    ∧ length maze = Z.to_nat (make_odd height)
    ∧ Forall (λ row, length row = Z.to_nat (make_odd width)) maze
    ∧ head path = Some (1, 1)
    ∧ last path = Some (make_odd height - 2, make_odd width - 2)
    ∧ chain path
    ∧ NoDup path
    ∧ Forall (is_path_cell maze) path
    ∧ ∀ other,
        head other = Some (1, 1) →
        last other = Some (make_odd height - 2, make_odd width - 2) →
        chain other → NoDup other → Forall (is_path_cell maze) other →
        other = path.
Proof.
  intros Hwidth Hheight Hx Hy Hperm Hdepth Hsteps.
  unfold generate_and_solve_maze.
  pose proof (make_odd_odd width Hwidth) as Hw.
  pose proof (make_odd_odd height Hheight) as Hh.
  set (w := make_odd width) in *. set (h := make_odd height) in *.
  destruct (MazeGenerator.generate_maze_spec shuffles w h Hperm Hw Hh
              depth start_x start_y)
    as (maze & ord & Hrun & Hinv & Hrooms); try done.
  rewrite Hrun. cbv zeta.
  pose proof Hinv as ([Hlen Hrows] & _).
  assert (∀ p, MazeGenerator.room w h p → is_path_cell maze p) as Hroom.
  { intros p Hp.
    by apply (MazeGenerator.inv_is_path_cell w h Hw Hh maze ord), Hrooms. }
  assert (is_path_cell maze (1, 1)) as Hstart.
  { apply Hroom. destruct Hw, Hh.
    unfold MazeGenerator.room, MazeGenerator.in_bounds. simpl.
    split_and!; (done || lia). }
  assert (is_path_cell maze (h - 2, w - 2)) as Hend.
  { apply Hroom. destruct Hw, Hh.
    unfold MazeGenerator.room, MazeGenerator.in_bounds. simpl.
    split_and!; try lia; Z.to_euclidean_division_equations; lia. }
  assert (rtc (MazeSolver.moves maze) (1, 1) (h - 2, w - 2)) as Hreach.
  { destruct (MazeGenerator.inv_perfect w h Hw Hh maze ord Hinv)
      as [Hconn _].
    eapply rtc_subrel; [|by apply Hconn].
    intros a b (_ & Hb & Hab). by split. }
  destruct maze as [|row0 maze'].
  { simpl in Hlen. destruct Hh. lia. }
  assert (length row0 = Z.to_nat w) as Hrow0.
  { by apply Forall_cons in Hrows as [? _]. }
  destruct (MazeSolver.solve_maze_dfs_decides steps (row0 :: maze')
              (1, 1) (h - 2, w - 2)) as (o & Hsolve & Hiff).
  - done.
  - unfold MazeSolver.rectangular. simpl head. simpl default.
    eapply Forall_impl; [exact Hrows|]. intros row Hrow. simpl in Hrow. lia.
  - simpl head. simpl default. rewrite Hlen, Hrow0. destruct Hw, Hh. nia.
  - apply Hiff in Hreach as [path ->]. rewrite Hsolve.
    exists (row0 :: maze'), path.
    destruct (MazeSolver.solve_maze_dfs_path_ok _ _ _ _ _ Hsolve)
      as (Hhead & Hlast & Hchain & Hnodup & Hcells).
    assert (Forall (is_path_cell (row0 :: maze')) path) as Hall.
    { destruct path as [|p path]; [done|].
      simpl in Hhead, Hcells. injection Hhead as ->. by constructor. }
    assert (∀ P, Forall (is_path_cell (row0 :: maze')) P →
                 ∀ x, x ∈ P → x ∈ ord) as Hord.
    { intros P HP c Hc. rewrite Forall_forall in HP.
      by apply (MazeGenerator.inv_is_path_cell w h Hw Hh (row0 :: maze') ord),
           HP. }
    split_and!; try done.
    intros other Hhead' Hlast' Hchain' Hnodup' Hcells'.
    pose proof Hinv as (_ & Htree & _).
    apply (MazeGenerator.tree_order_unique_route ord Htree).
    + split_and!; [done|done|by apply Hord].
    + split_and!; [done|done|by apply Hord].
    + by rewrite Hhead, Hhead'.
    + by rewrite Hlast, Hlast'.
Qed.

Lemma generate_and_solve_maze_solves_witness :
  ∃ maze path,
    generate_and_solve_maze 18 146 MazeGenerator.alternating_shuffles 3 3 6 4
      = Some (Ok (maze, Some path))
    ∧ length maze = Z.to_nat (make_odd 4)
    ∧ Forall (λ row, length row = Z.to_nat (make_odd 6)) maze
    ∧ head path = Some (1, 1)
    ∧ last path = Some (make_odd 4 - 2, make_odd 6 - 2)
    ∧ chain path
    ∧ NoDup path
    ∧ Forall (is_path_cell maze) path
    ∧ ∀ other,
        head other = Some (1, 1) →
        last other = Some (make_odd 4 - 2, make_odd 6 - 2) →
        chain other → NoDup other → Forall (is_path_cell maze) other →
        other = path.
Proof.
  apply (generate_and_solve_maze_solves
           18 146 MazeGenerator.alternating_shuffles 3 3 6 4).
  - lia.
  - lia.
  - vm_compute. split; [split|]; first [reflexivity|discriminate].
  - vm_compute. split; [split|]; first [reflexivity|discriminate].
  - apply MazeGenerator.alternating_shuffles_perm.
  - vm_compute. discriminate.
  - vm_compute. reflexivity.
Defined.

End MazeRoute.
